(** * WarpX fluid container and index heap sort: a shallow embedding

    The development follows [Source/Fluids/WarpXFluidContainer.cpp] (the
    relativistic fluid-moment solver: momentum push, MUSCL-Hancock
    advection, charge and current deposition) and the [HeapSort] functor of
    the velocity-coincidence thinning header.

    Real numbers of the program ([amrex::Real]) are modelled by [R];
    the program's [int] by [Z], with the 32-bit range checked explicitly
    in the heap sort.  A mesh array ([amrex::Array4]) is a total function
    of its index; ghost cells are simply the values outside the valid
    box. *)

From Stdlib Require Import Reals Lra Lia ZArith List Bool Permutation.
From Stdlib Require String.
Import ListNotations.

(* ================================================================== *)
(** * Index space: boxes, arrays, parallel loops (AMReX services) *)
(* ================================================================== *)

Module Amrex.

Local Open Scope Z_scope.

(** [amrex::IntVect] in three dimensions. *)
Record IntVect : Set := mkIntVect { iv0 : Z; iv1 : Z; iv2 : Z }.

(** Index type flags: 1 is nodal, 0 is cell-centred, per direction. *)
Definition TheNodeVector : IntVect := mkIntVect 1 1 1.

Definition nodeCentered (t : IntVect) : bool :=
  (iv0 t =? 1) && (iv1 t =? 1) && (iv2 t =? 1).

(** [amrex::Box]: inclusive lower and upper corners and an index type. *)
Record Box : Set := mkBox { smallEnd : IntVect; bigEnd : IntVect; btype : IntVect }.

Definition Cell : Set := (Z * Z * Z)%type.

(** [Box::contains(i,j,k)]. *)
Definition contains (b : Box) (c : Cell) : bool :=
  let '(i, j, k) := c in
  (iv0 (smallEnd b) <=? i) && (i <=? iv0 (bigEnd b)) &&
  (iv1 (smallEnd b) <=? j) && (j <=? iv1 (bigEnd b)) &&
  (iv2 (smallEnd b) <=? k) && (k <=? iv2 (bigEnd b)).

(** [Box::grow(n)]: n more points on every side. *)
Definition grow (b : Box) (n : Z) : Box :=
  {| smallEnd := mkIntVect (iv0 (smallEnd b) - n) (iv1 (smallEnd b) - n) (iv2 (smallEnd b) - n);
     bigEnd := mkIntVect (iv0 (bigEnd b) + n) (iv1 (bigEnd b) + n) (iv2 (bigEnd b) + n);
     btype := btype b |}.

(** [amrex::convert(box, typ)]: the upper corner moves by the change of
    index type in each direction. *)
Definition convert (b : Box) (typ : IntVect) : Box :=
  {| smallEnd := smallEnd b;
     bigEnd := mkIntVect (iv0 (bigEnd b) + (iv0 typ - iv0 (btype b)))
                         (iv1 (bigEnd b) + (iv1 typ - iv1 (btype b)))
                         (iv2 (bigEnd b) + (iv2 typ - iv2 (btype b)));
     btype := typ |}.

(** The integers [lo, lo+1, ..., hi]. *)
Definition zrange (lo hi : Z) : list Z :=
  map (fun n => lo + Z.of_nat n) (seq 0 (Z.to_nat (hi - lo + 1))).

(** The points of a box in the order a loop nest visits them:
    [k] outermost, [i] innermost. *)
Definition cells (b : Box) : list Cell :=
  flat_map (fun k =>
    flat_map (fun j =>
      map (fun i => (i, j, k)) (zrange (iv0 (smallEnd b)) (iv0 (bigEnd b))))
      (zrange (iv1 (smallEnd b)) (iv1 (bigEnd b))))
    (zrange (iv2 (smallEnd b)) (iv2 (bigEnd b))).

(** [amrex::ParallelFor(box, body)]: the body runs once at every point. *)
Definition ParallelFor {S : Type} (b : Box) (body : Cell -> S -> S) (s : S) : S :=
  fold_left (fun s c => body c s) (cells b) s.

Definition cell_eqb (c d : Cell) : bool :=
  let '(i, j, k) := c in let '(i', j', k') := d in
  (i =? i') && (j =? j') && (k =? k').

Definition comp_eqb (c d : Cell * Z) : bool :=
  cell_eqb (fst c) (fst d) && (snd c =? snd d).

Lemma cell_eqb_spec (c d : Cell) : reflect (c = d) (cell_eqb c d).
Proof.
  destruct c as [[i j] k], d as [[i' j'] k']; unfold cell_eqb.
  destruct (Z.eqb_spec i i'), (Z.eqb_spec j j'), (Z.eqb_spec k k'); simpl;
    constructor; congruence.
Qed.

Lemma comp_eqb_spec (c d : Cell * Z) : reflect (c = d) (comp_eqb c d).
Proof.
  destruct c as [c n], d as [d m]; unfold comp_eqb; simpl.
  destruct (cell_eqb_spec c d), (Z.eqb_spec n m); simpl; constructor; congruence.
Qed.

Lemma In_zrange (lo hi x : Z) : In x (zrange lo hi) <-> lo <= x <= hi.
Proof.
  unfold zrange. rewrite in_map_iff. split.
  - intros [n [<- Hn]]. apply in_seq in Hn. lia.
  - intros H. exists (Z.to_nat (x - lo)). split; [lia|]. apply in_seq. lia.
Qed.

Lemma NoDup_zrange (lo hi : Z) : NoDup (zrange lo hi).
Proof.
  unfold zrange. apply Finite.Injective_map_NoDup.
  - intros a b H. lia.
  - apply seq_NoDup.
Qed.

Lemma In_cells (b : Box) (c : Cell) : In c (cells b) <-> contains b c = true.
Proof.
  destruct c as [[i j] k]. unfold cells, contains.
  rewrite in_flat_map. split.
  - intros [k' [Hk H]]. apply in_flat_map in H. destruct H as [j' [Hj H]].
    apply in_map_iff in H. destruct H as [i' [E Hi]].
    inversion E; subst. apply In_zrange in Hk, Hj, Hi.
    repeat (apply andb_true_intro; split); apply Z.leb_le; lia.
  - intros H. repeat (apply andb_prop in H; destruct H as [H ?]).
    rewrite Z.leb_le in *.
    exists k. split; [apply In_zrange; lia|].
    apply in_flat_map. exists j. split; [apply In_zrange; lia|].
    apply in_map_iff. exists i. split; [reflexivity|apply In_zrange; lia].
Qed.

Lemma NoDup_flat_map {A B : Type} (f : A -> list B) (l : list A) :
  NoDup l ->
  (forall a, In a l -> NoDup (f a)) ->
  (forall a a' y, In a l -> In a' l -> In y (f a) -> In y (f a') -> a = a') ->
  NoDup (flat_map f l).
Proof.
  induction l as [|x l IH]; simpl; intros Hnd Hf Hdisj.
  - constructor.
  - inversion Hnd as [|? ? Hx Hl]; subst.
    apply NoDup_app.
    + apply Hf. now left.
    + apply IH; auto. intros a a' y Ha Ha'. apply Hdisj; now right.
    + intros y Hy Hy'. apply in_flat_map in Hy'. destruct Hy' as [a' [Ha' Hy']].
      assert (E : x = a') by (apply (Hdisj x a' y); simpl; auto).
      subst. contradiction.
Qed.

Lemma NoDup_cells (b : Box) : NoDup (cells b).
Proof.
  unfold cells. apply NoDup_flat_map.
  - apply NoDup_zrange.
  - intros k _. apply NoDup_flat_map.
    + apply NoDup_zrange.
    + intros j _. apply Finite.Injective_map_NoDup.
      * intros a a' H. congruence.
      * apply NoDup_zrange.
    + intros j j' y _ _ H H'. apply in_map_iff in H, H'.
      destruct H as [i [<- _]], H' as [i' [E _]]. congruence.
  - intros k k' y _ _ H H'. apply in_flat_map in H, H'.
    destruct H as [j [_ H]], H' as [j' [_ H']]. apply in_map_iff in H, H'.
    destruct H as [i [<- _]], H' as [i' [E _]]. congruence.
Qed.

Lemma contains_spec (b : Box) (i j k : Z) :
  contains b (i, j, k) = true <->
  iv0 (smallEnd b) <= i <= iv0 (bigEnd b) /\
  iv1 (smallEnd b) <= j <= iv1 (bigEnd b) /\
  iv2 (smallEnd b) <= k <= iv2 (bigEnd b).
Proof.
  unfold contains. rewrite !andb_true_iff, !Z.leb_le. lia.
Qed.

Lemma contains_grow (b : Box) (n : Z) (c : Cell) :
  0 <= n -> contains b c = true -> contains (grow b n) c = true.
Proof.
  destruct c as [[i j] k]. unfold contains, grow; simpl. intros Hn H.
  repeat (apply andb_prop in H; destruct H as [H ?]).
  rewrite Z.leb_le in *.
  repeat (apply andb_true_intro; split); apply Z.leb_le; lia.
Qed.

End Amrex.

(* ================================================================== *)
(** * Mesh arrays and the effect of a loop of point writes *)
(* ================================================================== *)

Module Fab.

Import Amrex.

(** [amrex::Array4<Real>]: one component, read as [a (i,j,k)], and
    several components, read as [a (i,j,k,n)]. *)
Definition Array4 : Type := Cell -> R.
Definition Array4n : Type := Cell * Z -> R.

(** [amrex::MultiFab]: one array per patch of the level's box array. *)
Definition MultiFab : Type := nat -> Array4.

Section Store.

Context {P V : Type}.
Variable eqb : P -> P -> bool.
Hypothesis eqb_spec : forall p q, reflect (p = q) (eqb p q).

(** The assignment [a(p) = v]. *)
Definition upd (a : P -> V) (p : P) (v : V) : P -> V :=
  fun q => if eqb q p then v else a q.

(** A straight-line sequence of assignments. *)
Definition apply_writes (ws : list (P * V)) (a : P -> V) : P -> V :=
  fold_left (fun a w => upd a (fst w) (snd w)) ws a.

Lemma upd_same (a : P -> V) p v : upd a p v p = v.
Proof. unfold upd. destruct (eqb_spec p p); congruence. Qed.

Lemma upd_other (a : P -> V) p v q : q <> p -> upd a p v q = a q.
Proof. unfold upd. destruct (eqb_spec q p); congruence. Qed.

Lemma apply_writes_app ws1 ws2 (a : P -> V) :
  apply_writes (ws1 ++ ws2) a = apply_writes ws2 (apply_writes ws1 a).
Proof. apply fold_left_app. Qed.

Lemma apply_writes_miss ws (a : P -> V) p :
  (forall v, ~ In (p, v) ws) -> apply_writes ws a p = a p.
Proof.
  revert a. induction ws as [|[q v] ws IH]; intros a H; simpl; [reflexivity|].
  unfold apply_writes in IH. rewrite IH.
  - apply upd_other. intros ->. apply (H v). now left.
  - intros v' Hin. apply (H v'). now right.
Qed.

Lemma apply_writes_hit ws (a : P -> V) p v :
  (forall v', In (p, v') ws -> v' = v) ->
  (exists v', In (p, v') ws) ->
  apply_writes ws a p = v.
Proof.
  induction ws as [|[q w] ws IH] using rev_ind; intros Hval [v' Hin].
  - destruct Hin.
  - rewrite apply_writes_app. simpl. unfold upd.
    destruct (eqb_spec p q) as [->|Hne].
    + apply Hval. apply in_or_app. right. now left.
    + apply IH.
      * intros v'' H. apply Hval. apply in_or_app. now left.
      * apply in_app_or in Hin. destruct Hin as [Hin|[E|[]]].
        -- now exists v'.
        -- congruence.
Qed.

Lemma fold_writes {C : Type} (w : C -> list (P * V)) (l : list C) (a : P -> V) :
  fold_left (fun a c => apply_writes (w c) a) l a = apply_writes (flat_map w l) a.
Proof.
  revert a. induction l as [|c l IH]; intros a; simpl; [reflexivity|].
  rewrite IH, apply_writes_app. reflexivity.
Qed.

End Store.

(** A loop whose body, at point [c], replaces what the state holds at [c]
    by a function of what it held there, and touches nothing else. *)
Section Cellwise.

Context {S P V : Type}.
Variable eqb : P -> P -> bool.
Hypothesis eqb_spec : forall p q, reflect (p = q) (eqb p q).
Variable get : S -> P -> V.
Variable step : S -> P -> S.
Variable h : P -> V -> V.
Hypothesis step_get :
  forall s c q, get (step s c) q = if eqb q c then h c (get s c) else get s q.

Lemma fold_cellwise_out (l : list P) (s : S) (p : P) :
  ~ In p l -> get (fold_left step l s) p = get s p.
Proof.
  revert s. induction l as [|c l IH]; intros s Hp; simpl; [reflexivity|].
  rewrite IH by (intros H; apply Hp; now right).
  rewrite step_get. destruct (eqb_spec p c) as [->|]; [|reflexivity].
  exfalso. apply Hp. now left.
Qed.

Lemma fold_cellwise_in (l : list P) (s : S) (p : P) :
  NoDup l -> In p l -> get (fold_left step l s) p = h p (get s p).
Proof.
  revert s. induction l as [|c l IH]; intros s Hnd Hp; simpl; [destruct Hp|].
  inversion Hnd as [|? ? Hc Hl]; subst. destruct Hp as [->|Hp].
  - rewrite fold_cellwise_out by assumption.
    rewrite step_get. destruct (eqb_spec p p); congruence.
  - rewrite IH by assumption. rewrite step_get.
    destruct (eqb_spec p c) as [->|]; [contradiction|reflexivity].
Qed.

End Cellwise.

Lemma fold_left_proj {S T C : Type} (proj : S -> T) (body : S -> C -> S)
      (g : T -> C -> T) :
  (forall s c, proj (body s c) = g (proj s) c) ->
  forall l s, proj (fold_left body l s) = fold_left g l (proj s).
Proof.
  intros H l. induction l as [|c l IH]; intros s; simpl; [reflexivity|].
  rewrite IH, H. reflexivity.
Qed.

End Fab.

(* ================================================================== *)
(** * The slope limiter *)
(* ================================================================== *)

Module MusclHancockUtils.

Local Open Scope R_scope.

(** Modelled from the spec: the limiter [ave] lives in MusclHancockUtils.H,
    which is not among the sources.  The specification describes it as a
    symmetric van-Leer-type average of the backward and forward
    differences: zero when the two have opposite sign or one of them is
    zero, and otherwise the harmonic-mean blend [2ab/(a+b)], which is [a]
    when [a = b]. *)
Definition ave (a b : R) : R :=
  if Rle_dec (a * b) 0 then 0 else 2 * a * b / (a + b).

(** C6.  The limiter vanishes when its arguments have opposite signs or
    one of them is zero; it returns [a] on equal non-zero arguments; and
    its magnitude never exceeds [2 * max (|a|, |b|)]. *)
Theorem ave_limiter (a b : R) :
  (a * b <= 0 -> ave a b = 0) /\
  (a = b -> a <> 0 -> ave a b = a) /\
  Rabs (ave a b) <= 2 * Rmax (Rabs a) (Rabs b).
Proof.
  unfold ave. split; [|split].
  - intros H. destruct (Rle_dec (a * b) 0); [reflexivity|contradiction].
  - intros <- Ha. destruct (Rle_dec (a * a) 0) as [H|H].
    + exfalso. nra.
    + field. lra.
  - pose proof (Rmax_l (Rabs a) (Rabs b)) as Hmax.
    pose proof (Rabs_pos a) as Hpos.
    destruct (Rle_dec (a * b) 0) as [H|H].
    + rewrite Rabs_R0. lra.
    + apply Rnot_le_lt in H.
      assert (Hs : a + b <> 0) by nra.
      set (x := 2 * a * b / (a + b)).
      assert (Hx : x * (a + b) = 2 * a * b) by (unfold x; field; exact Hs).
      apply Rle_trans with (2 * Rabs a); [|lra].
      destruct (Rlt_le_dec 0 a) as [Ha|Ha].
      * assert (Hb : 0 < b) by nra.
        rewrite (Rabs_pos_eq a) by lra.
        apply Rabs_le. split; nra.
      * assert (Ha' : a < 0) by nra.
        assert (Hb : b < 0) by nra.
        rewrite (Rabs_left a) by lra.
        apply Rabs_le. split; nra.
Qed.

Lemma ave_limiter_witness :
  ave 1 (-1) = 0 /\ ave 3 3 = 3 /\ Rabs (ave 1 3) <= 2 * Rmax (Rabs 1) (Rabs 3).
Proof.
  split; [|split].
  - apply (proj1 (ave_limiter 1 (-1))). lra.
  - apply (proj1 (proj2 (ave_limiter 3 3))); [reflexivity|lra].
  - apply (proj2 (proj2 (ave_limiter 1 3))).
Defined.

End MusclHancockUtils.

(* ================================================================== *)
(** * The fluid container *)
(* ================================================================== *)

Module Fluid.

Import Amrex Fab.

Local Open Scope R_scope.

(** ** Flux-Jacobian kernel

    The closed-form entries of the flux Jacobians, as functions of the
    local bulk momentum, exactly as the advection kernel spells them. *)
Section Jacobian.

Variables Ux Uy Uz clight : R.

Definition Uz_sq := Uz*Uz.
Definition Uy_sq := Uy*Uy.
Definition Ux_sq := Ux*Ux.
Definition Uz_cubed := Uz_sq*Uz.
Definition Uy_cubed := Uy_sq*Uy.
Definition Ux_cubed := Ux_sq*Ux.
Definition c_sq := clight*clight.
Definition gamma := sqrt (1 + (Ux_sq + Uy_sq + Uz_sq)/(c_sq)).
Definition gamma_cubed := gamma*gamma*gamma.
Definition a := c_sq*gamma_cubed.

(* Flux-Jacobian elements in x *)
Definition A00x := (Ux*(Uz_sq)+Ux*(Uy_sq)+(Ux_cubed))/a.
Definition A01x := ((c_sq)+(Uz_sq)+(Uy_sq))/a.
Definition A02x := -(Ux*Uy)/a.
Definition A03x := -(Ux*Uz)/a.

Definition A10x := -(Ux_sq)/(gamma_cubed).
Definition A11x := (2*Ux*(c_sq)+2*Ux*(Uz_sq)+2*Ux*(Uy_sq)+(Ux_cubed))/a.
Definition A12x := -((Ux_sq)*Uy)/a.
Definition A13x := -((Ux_sq)*Uz)/a.

Definition A20x := -(Ux*Uy)/(gamma_cubed).
Definition A21x := (Uy*(c_sq)+Uy*(Uz_sq)+(Uy_cubed))/a.
Definition A22x := (Ux*(c_sq)+Ux*(Uz_sq)+(Ux_cubed))/a.
Definition A23x := -(Ux*Uy*Uz)/a.

Definition A30x := -(Ux*Uz)/(gamma_cubed).
Definition A31x := (Uz*(c_sq)+(Uz_cubed)+(Uy_sq)*Uz)/a.
Definition A32x := -(Ux*Uy*Uz)/a.
Definition A33x := (Ux*(c_sq)+Ux*(Uy_sq)+(Ux_cubed))/a.

(* Flux-Jacobian elements in y *)
Definition A00y := (Uy*(Uz_sq)+(Uy_cubed)+(Ux_sq)*Uy)/a.
Definition A01y := -(Ux*Uy)/a.
Definition A02y := ((c_sq)+(Uz_sq)+(Ux_sq))/a.
Definition A03y := -(Uy*Uz)/a.

Definition A10y := -(Ux*Uy)/(gamma_cubed).
Definition A11y := (Uy*(c_sq)+Uy*(Uz_sq)+(Uy_cubed))/a.
Definition A12y := (Ux*(c_sq)+Ux*(Uz_sq)+(Ux_cubed))/a.
Definition A13y := -(Ux*Uy*Uz)/a.

Definition A20y := -(Uy_sq)/(gamma_cubed).
Definition A21y := -(Ux*(Uy_sq))/a.
Definition A22y := (2*Uy*(c_sq)+2*Uy*(Uz_sq)+(Uy_cubed)+2*(Ux_sq)*Uy)/a.
Definition A23y := -((Uy_sq)*Uz)/a.

Definition A30y := -(Uy*Uz)/(gamma_cubed).
Definition A31y := -(Ux*Uy*Uz)/a.
Definition A32y := (Uz*(c_sq)+(Uz_cubed)+(Ux_sq)*Uz)/a.
Definition A33y := (Uy*(c_sq)+(Uy_cubed)+(Ux_sq)*Uy)/a.

(* Flux-Jacobian elements in z *)
Definition A00z := ((Uz_cubed)+((Uy_sq)+(Ux_sq))*Uz)/a.
Definition A01z := -(Ux*Uz)/a.
Definition A02z := -(Uy*Uz)/a.
Definition A03z := ((c_sq)+(Uy_sq)+(Ux_sq))/a.

Definition A10z := -(Ux*Uz)/(gamma_cubed).
Definition A11z := (Uz*(c_sq)+(Uz_cubed)+(Uy_sq)*Uz)/a.
Definition A12z := -(Ux*Uy*Uz)/a.
Definition A13z := (Ux*(c_sq)+Ux*(Uy_sq)+(Ux_cubed))/a.

Definition A20z := -(Uy*Uz)/(gamma_cubed).
Definition A21z := -(Ux*Uy*Uz)/a.
Definition A22z := (Uz*(c_sq)+(Uz_cubed)+(Ux_sq)*Uz)/a.
Definition A23z := (Uy*(c_sq)+(Uy_cubed)+(Ux_sq)*Uy)/a.

Definition A30z := -(Uz_sq)/(gamma_cubed).
Definition A31z := -(Ux*(Uz_sq))/a.
Definition A32z := -(Uy*(Uz_sq))/a.
Definition A33z := (2*Uz*(c_sq)+(Uz_cubed)+(2*(Uy_sq)+2*(Ux_sq))*Uz)/a.

End Jacobian.

(** The four arrays of one patch: [N], [NUx], [NUy], [NUz]. *)
Record Moments : Type := mkMoments {
  N_arr : Array4; NUx_arr : Array4; NUy_arr : Array4; NUz_arr : Array4 }.

(** The temporaries of the advection step on one patch. *)
Record Edges : Type := mkEdges {
  Vx : Array4; Vy : Array4; Vz : Array4;
  Q_minus_x : Array4n; Q_plus_x : Array4n;
  Q_minus_y : Array4n; Q_plus_y : Array4n;
  Q_minus_z : Array4n; Q_plus_z : Array4n }.

(** The fluid state of one mesh level: [N[lev]] and [NU[lev][0..2]]. *)
Record Level : Type := mkLevel {
  N : MultiFab; NU0 : MultiFab; NU1 : MultiFab; NU2 : MultiFab }.

(** The arrays of patch [p], as [N[lev]->array(mfi)] and its siblings
    hand them to a kernel. *)
Definition arrays (S : Level) (p : nat) : Moments :=
  {| N_arr := N S p; NUx_arr := NU0 S p; NUy_arr := NU1 S p; NUz_arr := NU2 S p |}.

(** ** Guard-cell exchange *)

(** The images of a point under the periodic shifts of the domain. *)
Definition shifts1 (p : Z) : list Z := [0; p; - p]%Z.

Definition images (period : IntVect) (c : Cell) : list Cell :=
  let '(i, j, k) := c in
  flat_map (fun sk =>
    flat_map (fun sj =>
      map (fun si => (i + si, j + sj, k + sk)%Z) (shifts1 (iv0 period)))
      (shifts1 (iv1 period)))
    (shifts1 (iv2 period)).

Fixpoint first_some {A B : Type} (f : A -> option B) (l : list A) : option B :=
  match l with
  | [] => None
  | x :: l' => match f x with Some y => Some y | None => first_some f l' end
  end.

(** The value some patch holds, among its valid points, for a periodic
    image of [c]. *)
Definition valid_source (ba : list Box) (period : IntVect) (mf : MultiFab)
           (c : Cell) : option R :=
  first_some (fun q =>
    match nth_error ba q with
    | None => None
    | Some b =>
        first_some (fun c' => if contains b c' then Some (mf q c') else None)
                   (images period c)
    end) (seq 0 (length ba)).

(** Modelled from the spec: the boundary-fill operation
    [fillBoundary(field, width, periodicity)] of the communication layer
    (ablastr/utils/Communication.H is not among the sources).  Valid points
    keep their value; a guard point within [ng] of the valid box receives
    the value a patch holds for it, when there is one.  The
    single-precision option of the call only concerns rounding. *)
Definition FillBoundary (ba : list Box) (period : IntVect)
           (mf : MultiFab) (ng : Z) : MultiFab :=
  fun p c =>
    match nth_error ba p with
    | None => mf p c
    | Some b =>
        if contains b c then mf p c
        else if contains (grow b ng) c then
          match valid_source ba period mf c with
          | Some v => v
          | None => mf p c
          end
        else mf p c
    end.

(** The guard width of the fluid fields ([nguards] of [AllocateLevelMFs]). *)
Definition nGrow : Z := 2%Z.

(** Every point of every patch, guard cells included, holds the same
    density and the same momentum density. *)
Definition uniform_level (S : Level) (n0 u0 v0 w0 : R) : Prop :=
  forall p c, N S p c = n0 /\ NU0 S p c = u0 /\ NU1 S p c = v0 /\ NU2 S p c = w0.

Definition constant (f : Cell -> R) : Prop := forall c d, f c = f d.

Lemma first_some_In {A B : Type} (f : A -> option B) (l : list A) (y : B) :
  first_some f l = Some y -> exists x, In x l /\ f x = Some y.
Proof.
  induction l as [|x l IH]; simpl; [discriminate|].
  destruct (f x) as [y'|] eqn:E.
  - intros H. injection H as <-. exists x. auto.
  - intros H. destruct (IH H) as [x' [Hin Hx']]. exists x'. auto.
Qed.

Lemma FillBoundary_valid (ba : list Box) (period : IntVect) (mf : MultiFab)
      (ng : Z) (p : nat) (b : Box) (c : Cell) :
  nth_error ba p = Some b -> contains b c = true ->
  FillBoundary ba period mf ng p c = mf p c.
Proof.
  intros Hp Hc. unfold FillBoundary. rewrite Hp, Hc. reflexivity.
Qed.

Lemma FillBoundary_const (ba : list Box) (period : IntVect) (mf : MultiFab)
      (ng : Z) (v : R) :
  (forall p c, mf p c = v) -> forall p c, FillBoundary ba period mf ng p c = v.
Proof.
  intros H p c. unfold FillBoundary.
  destruct (nth_error ba p) as [b|]; [|apply H].
  destruct (contains b c); [apply H|].
  destruct (contains (grow b ng) c); [|apply H].
  destruct (valid_source ba period mf c) as [v'|] eqn:E; [|apply H].
  unfold valid_source in E. apply first_some_In in E. destruct E as [q' [_ E]].
  destruct (nth_error ba q') as [b'|]; [|discriminate].
  apply first_some_In in E. destruct E as [c' [_ E]].
  destruct (contains b' c'); [|discriminate].
  injection E as <-. apply H.
Qed.

(** ** MUSCL-Hancock advection *)

Section Advection.

(** [dt], the cell sizes [dx[0..2]] and the speed of light. *)
Variables dt dx0 dx1 dx2 clight : R.

(** The limiter and the two-point numerical flux of MusclHancockUtils.H;
    the advection step is stated for whatever these two functions are. *)
Variable ave : R -> R -> R.
Variable flux : R -> R -> R -> R -> R.

Definition cx := (dt/dx0).
Definition cy := (dt/dx1).
Definition cz := (dt/dx2).
Definition cx_half := 0.5*(dt/dx0).
Definition cy_half := 0.5*(dt/dx1).
Definition cz_half := 0.5*(dt/dx2).

(** *** The local quantities of the first kernel at cell [(i,j,k)] *)
Section Cell.

Variable m : Moments.
Variables i j k : Z.

(* Isolate U from NU *)
Definition Ux := (NUx_arr m (i,j,k) / N_arr m (i,j,k)).
Definition Uy := (NUy_arr m (i,j,k) / N_arr m (i,j,k)).
Definition Uz := (NUz_arr m (i,j,k) / N_arr m (i,j,k)).

Local Notation "f '@U'" := (f Ux Uy Uz clight) (at level 1, format "f '@U'").

(* Compute the cell slopes x *)
Definition dQ0x :=
  ave (N_arr m (i,j,k)%Z - N_arr m (i-1,j,k)%Z) (N_arr m (i+1,j,k)%Z - N_arr m (i,j,k)%Z).
Definition dQ1x :=
  ave (NUx_arr m (i,j,k)%Z - NUx_arr m (i-1,j,k)%Z) (NUx_arr m (i+1,j,k)%Z - NUx_arr m (i,j,k)%Z).
Definition dQ2x :=
  ave (NUy_arr m (i,j,k)%Z - NUy_arr m (i-1,j,k)%Z) (NUy_arr m (i+1,j,k)%Z - NUy_arr m (i,j,k)%Z).
Definition dQ3x :=
  ave (NUz_arr m (i,j,k)%Z - NUz_arr m (i-1,j,k)%Z) (NUz_arr m (i+1,j,k)%Z - NUz_arr m (i,j,k)%Z).

(* Compute the cell slopes y *)
Definition dQ0y :=
  ave (N_arr m (i,j,k)%Z - N_arr m (i,j-1,k)%Z) (N_arr m (i,j+1,k)%Z - N_arr m (i,j,k)%Z).
Definition dQ1y :=
  ave (NUx_arr m (i,j,k)%Z - NUx_arr m (i,j-1,k)%Z) (NUx_arr m (i,j+1,k)%Z - NUx_arr m (i,j,k)%Z).
Definition dQ2y :=
  ave (NUy_arr m (i,j,k)%Z - NUy_arr m (i,j-1,k)%Z) (NUy_arr m (i,j+1,k)%Z - NUy_arr m (i,j,k)%Z).
Definition dQ3y :=
  ave (NUz_arr m (i,j,k)%Z - NUz_arr m (i,j-1,k)%Z) (NUz_arr m (i,j+1,k)%Z - NUz_arr m (i,j,k)%Z).

(* Compute the cell slopes z *)
Definition dQ0z :=
  ave (N_arr m (i,j,k)%Z - N_arr m (i,j,k-1)%Z) (N_arr m (i,j,k+1)%Z - N_arr m (i,j,k)%Z).
Definition dQ1z :=
  ave (NUx_arr m (i,j,k)%Z - NUx_arr m (i,j,k-1)%Z) (NUx_arr m (i,j,k+1)%Z - NUx_arr m (i,j,k)%Z).
Definition dQ2z :=
  ave (NUy_arr m (i,j,k)%Z - NUy_arr m (i,j,k-1)%Z) (NUy_arr m (i,j,k+1)%Z - NUy_arr m (i,j,k)%Z).
Definition dQ3z :=
  ave (NUz_arr m (i,j,k)%Z - NUz_arr m (i,j,k-1)%Z) (NUz_arr m (i,j,k+1)%Z - NUz_arr m (i,j,k)%Z).

(* Compute Q ([ N, NU]) at the halfsteps (Q_tilde) using the slopes (dQ) *)
Definition AdQ0x := A00x@U*dQ0x + A01x@U*dQ1x + A02x@U*dQ2x + A03x@U*dQ3x.
Definition AdQ1x := A10x@U*dQ0x + A11x@U*dQ1x + A12x@U*dQ2x + A13x@U*dQ3x.
Definition AdQ2x := A20x@U*dQ0x + A21x@U*dQ1x + A22x@U*dQ2x + A23x@U*dQ3x.
Definition AdQ3x := A30x@U*dQ0x + A31x@U*dQ1x + A32x@U*dQ2x + A33x@U*dQ3x.
Definition AdQ0y := A00y@U*dQ0y + A01y@U*dQ1y + A02y@U*dQ2y + A03y@U*dQ3y.
Definition AdQ1y := A10y@U*dQ0y + A11y@U*dQ1y + A12y@U*dQ2y + A13y@U*dQ3y.
Definition AdQ2y := A20y@U*dQ0y + A21y@U*dQ1y + A22y@U*dQ2y + A23y@U*dQ3y.
Definition AdQ3y := A30y@U*dQ0y + A31y@U*dQ1y + A32y@U*dQ2y + A33y@U*dQ3y.
Definition AdQ0z := A00z@U*dQ0z + A01z@U*dQ1z + A02z@U*dQ2z + A03z@U*dQ3z.
Definition AdQ1z := A10z@U*dQ0z + A11z@U*dQ1z + A12z@U*dQ2z + A13z@U*dQ3z.
Definition AdQ2z := A20z@U*dQ0z + A21z@U*dQ1z + A22z@U*dQ2z + A23z@U*dQ3z.
Definition AdQ3z := A30z@U*dQ0z + A31z@U*dQ1z + A32z@U*dQ2z + A33z@U*dQ3z.
Definition Q_tilde0 := N_arr m (i,j,k)%Z - cx_half*AdQ0x - cy_half*AdQ0y - cz_half*AdQ0z.
Definition Q_tilde1 := NUx_arr m (i,j,k)%Z - cx_half*AdQ1x - cy_half*AdQ1y - cz_half*AdQ1z.
Definition Q_tilde2 := NUy_arr m (i,j,k)%Z - cx_half*AdQ2x - cy_half*AdQ2y - cz_half*AdQ2z.
Definition Q_tilde3 := NUz_arr m (i,j,k)%Z - cx_half*AdQ3x - cy_half*AdQ3y - cz_half*AdQ3z.

End Cell.

(** *** The same quantities, indexed by the component [n] of the
    conserved vector [(N, NUx, NUy, NUz)] *)

Definition Q_tilde (m : Moments) (i j k n : Z) : R :=
  match n with
  | 0%Z => Q_tilde0 m i j k | 1%Z => Q_tilde1 m i j k
  | 2%Z => Q_tilde2 m i j k | _ => Q_tilde3 m i j k
  end.

Definition dQx (m : Moments) (i j k n : Z) : R :=
  match n with
  | 0%Z => dQ0x m i j k | 1%Z => dQ1x m i j k
  | 2%Z => dQ2x m i j k | _ => dQ3x m i j k
  end.

Definition dQy (m : Moments) (i j k n : Z) : R :=
  match n with
  | 0%Z => dQ0y m i j k | 1%Z => dQ1y m i j k
  | 2%Z => dQ2y m i j k | _ => dQ3y m i j k
  end.

Definition dQz (m : Moments) (i j k n : Z) : R :=
  match n with
  | 0%Z => dQ0z m i j k | 1%Z => dQ1z m i j k
  | 2%Z => dQ2z m i j k | _ => dQ3z m i j k
  end.

(** The predicted state just inside the upper face of cell [(i,j,k)]
    along the axis of the slope [dQ], and just inside its lower face. *)
Definition edge_minus (dQ : Moments -> Z -> Z -> Z -> Z -> R)
           (m : Moments) (i j k n : Z) : R :=
  Q_tilde m i j k n + dQ m i j k n / 2.

Definition edge_plus (dQ : Moments -> Z -> Z -> Z -> Z -> R)
           (m : Moments) (i j k n : Z) : R :=
  Q_tilde m i j k n - dQ m i j k n / 2.

(** The local velocities [U/gamma]. *)
Definition V_x (m : Moments) (i j k : Z) : R :=
  Ux m i j k / gamma (Ux m i j k) (Uy m i j k) (Uz m i j k) clight.
Definition V_y (m : Moments) (i j k : Z) : R :=
  Uy m i j k / gamma (Ux m i j k) (Uy m i j k) (Uz m i j k) clight.
Definition V_z (m : Moments) (i j k : Z) : R :=
  Uz m i j k / gamma (Ux m i j k) (Uy m i j k) (Uz m i j k) clight.

(** The numerical flux of component [n] through the face that cell
    [(i,j,k)] shares with its upper neighbour along each axis: it is
    computed from the two predicted edge states straddling that face. *)
Definition face_flux_x (m : Moments) (n i j k : Z) : R :=
  flux (edge_minus dQx m i j k n) (edge_plus dQx m (i+1) j k n)
       (V_x m i j k) (V_x m (i+1) j k).

Definition face_flux_y (m : Moments) (n i j k : Z) : R :=
  flux (edge_minus dQy m i j k n) (edge_plus dQy m i (j+1) k n)
       (V_y m i j k) (V_y m i (j+1) k).

Definition face_flux_z (m : Moments) (n i j k : Z) : R :=
  flux (edge_minus dQz m i j k n) (edge_plus dQz m i j (k+1) n)
       (V_z m i j k) (V_z m i j (k+1)).

(** The explicit finite-volume formula
    [Q - sum_axis (dt/dx_axis) (F_plus_axis - F_minus_axis)]. *)
Definition finite_volume (m : Moments) (n i j k : Z) (Q_old : R) : R :=
  Q_old - cx*(face_flux_x m n i j k - face_flux_x m n (i-1) j k)
        - cy*(face_flux_y m n i j k - face_flux_y m n i (j-1) k)
        - cz*(face_flux_z m n i j k - face_flux_z m n i j (k-1)).

(** The four component writes [Q(c,0..3) = ...] of one edge state. *)
Definition write4 (q : Array4n) (c : Cell) (v0 v1 v2 v3 : R) : Array4n :=
  apply_writes comp_eqb
    [((c, 0%Z), v0); ((c, 1%Z), v1); ((c, 2%Z), v2); ((c, 3%Z), v3)] q.

(** *** First kernel: velocities and predicted edge states

    The body of the first [ParallelFor] at cell [(i,j,k)]; [_plus] is
    stored one point lower, as the source notes. *)
Definition predict_cell (box_x box_y box_z : Box) (m : Moments)
           (c : Cell) (t : Edges) : Edges :=
  let '(i, j, k) := c in
  {| Vx := upd cell_eqb (Vx t) (i,j,k)
             (Ux m i j k / gamma (Ux m i j k) (Uy m i j k) (Uz m i j k) clight);
     Vy := upd cell_eqb (Vy t) (i,j,k)
             (Uy m i j k / gamma (Ux m i j k) (Uy m i j k) (Uz m i j k) clight);
     Vz := upd cell_eqb (Vz t) (i,j,k)
             (Uz m i j k / gamma (Ux m i j k) (Uy m i j k) (Uz m i j k) clight);
     Q_minus_x :=
       if contains box_x (i,j,k) then
         write4 (Q_minus_x t) (i,j,k)
           (Q_tilde0 m i j k + dQ0x m i j k/2) (Q_tilde1 m i j k + dQ1x m i j k/2)
           (Q_tilde2 m i j k + dQ2x m i j k/2) (Q_tilde3 m i j k + dQ3x m i j k/2)
       else Q_minus_x t;
     Q_plus_x :=
       if contains box_x (i-1,j,k)%Z then
         write4 (Q_plus_x t) (i-1,j,k)%Z
           (Q_tilde0 m i j k - dQ0x m i j k/2) (Q_tilde1 m i j k - dQ1x m i j k/2)
           (Q_tilde2 m i j k - dQ2x m i j k/2) (Q_tilde3 m i j k - dQ3x m i j k/2)
       else Q_plus_x t;
     Q_minus_y :=
       if contains box_y (i,j,k) then
         write4 (Q_minus_y t) (i,j,k)
           (Q_tilde0 m i j k + dQ0y m i j k/2) (Q_tilde1 m i j k + dQ1y m i j k/2)
           (Q_tilde2 m i j k + dQ2y m i j k/2) (Q_tilde3 m i j k + dQ3y m i j k/2)
       else Q_minus_y t;
     Q_plus_y :=
       if contains box_y (i,j-1,k)%Z then
         write4 (Q_plus_y t) (i,j-1,k)%Z
           (Q_tilde0 m i j k - dQ0y m i j k/2) (Q_tilde1 m i j k - dQ1y m i j k/2)
           (Q_tilde2 m i j k - dQ2y m i j k/2) (Q_tilde3 m i j k - dQ3y m i j k/2)
       else Q_plus_y t;
     Q_minus_z :=
       if contains box_z (i,j,k) then
         write4 (Q_minus_z t) (i,j,k)
           (Q_tilde0 m i j k + dQ0z m i j k/2) (Q_tilde1 m i j k + dQ1z m i j k/2)
           (Q_tilde2 m i j k + dQ2z m i j k/2) (Q_tilde3 m i j k + dQ3z m i j k/2)
       else Q_minus_z t;
     Q_plus_z :=
       if contains box_z (i,j,k-1)%Z then
         write4 (Q_plus_z t) (i,j,k-1)%Z
           (Q_tilde0 m i j k - dQ0z m i j k/2) (Q_tilde1 m i j k - dQ1z m i j k/2)
           (Q_tilde2 m i j k - dQ2z m i j k/2) (Q_tilde3 m i j k - dQ3z m i j k/2)
       else Q_plus_z t |}.

(** *** Second kernel: face fluxes and the conservative update *)
Definition update_cell (t : Edges) (c : Cell) (m : Moments) : Moments :=
  let '(i, j, k) := c in
  let F0_minusx := flux (Q_minus_x t (i-1,j,k,0)%Z) (Q_plus_x t (i-1,j,k,0)%Z) (Vx t (i-1,j,k)%Z) (Vx t (i,j,k)) in
  let F0_plusx := flux (Q_minus_x t (i,j,k,0)%Z) (Q_plus_x t (i,j,k,0)%Z) (Vx t (i,j,k)) (Vx t (i+1,j,k)%Z) in
  let F1_minusx := flux (Q_minus_x t (i-1,j,k,1)%Z) (Q_plus_x t (i-1,j,k,1)%Z) (Vx t (i-1,j,k)%Z) (Vx t (i,j,k)) in
  let F1_plusx := flux (Q_minus_x t (i,j,k,1)%Z) (Q_plus_x t (i,j,k,1)%Z) (Vx t (i,j,k)) (Vx t (i+1,j,k)%Z) in
  let F2_minusx := flux (Q_minus_x t (i-1,j,k,2)%Z) (Q_plus_x t (i-1,j,k,2)%Z) (Vx t (i-1,j,k)%Z) (Vx t (i,j,k)) in
  let F2_plusx := flux (Q_minus_x t (i,j,k,2)%Z) (Q_plus_x t (i,j,k,2)%Z) (Vx t (i,j,k)) (Vx t (i+1,j,k)%Z) in
  let F3_minusx := flux (Q_minus_x t (i-1,j,k,3)%Z) (Q_plus_x t (i-1,j,k,3)%Z) (Vx t (i-1,j,k)%Z) (Vx t (i,j,k)) in
  let F3_plusx := flux (Q_minus_x t (i,j,k,3)%Z) (Q_plus_x t (i,j,k,3)%Z) (Vx t (i,j,k)) (Vx t (i+1,j,k)%Z) in
  let F0_minusy := flux (Q_minus_y t (i,j-1,k,0)%Z) (Q_plus_y t (i,j-1,k,0)%Z) (Vy t (i,j-1,k)%Z) (Vy t (i,j,k)) in
  let F0_plusy := flux (Q_minus_y t (i,j,k,0)%Z) (Q_plus_y t (i,j,k,0)%Z) (Vy t (i,j,k)) (Vy t (i,j+1,k)%Z) in
  let F1_minusy := flux (Q_minus_y t (i,j-1,k,1)%Z) (Q_plus_y t (i,j-1,k,1)%Z) (Vy t (i,j-1,k)%Z) (Vy t (i,j,k)) in
  let F1_plusy := flux (Q_minus_y t (i,j,k,1)%Z) (Q_plus_y t (i,j,k,1)%Z) (Vy t (i,j,k)) (Vy t (i,j+1,k)%Z) in
  let F2_minusy := flux (Q_minus_y t (i,j-1,k,2)%Z) (Q_plus_y t (i,j-1,k,2)%Z) (Vy t (i,j-1,k)%Z) (Vy t (i,j,k)) in
  let F2_plusy := flux (Q_minus_y t (i,j,k,2)%Z) (Q_plus_y t (i,j,k,2)%Z) (Vy t (i,j,k)) (Vy t (i,j+1,k)%Z) in
  let F3_minusy := flux (Q_minus_y t (i,j-1,k,3)%Z) (Q_plus_y t (i,j-1,k,3)%Z) (Vy t (i,j-1,k)%Z) (Vy t (i,j,k)) in
  let F3_plusy := flux (Q_minus_y t (i,j,k,3)%Z) (Q_plus_y t (i,j,k,3)%Z) (Vy t (i,j,k)) (Vy t (i,j+1,k)%Z) in
  let F0_minusz := flux (Q_minus_z t (i,j,k-1,0)%Z) (Q_plus_z t (i,j,k-1,0)%Z) (Vz t (i,j,k-1)%Z) (Vz t (i,j,k)) in
  let F0_plusz := flux (Q_minus_z t (i,j,k,0)%Z) (Q_plus_z t (i,j,k,0)%Z) (Vz t (i,j,k)) (Vz t (i,j,k+1)%Z) in
  let F1_minusz := flux (Q_minus_z t (i,j,k-1,1)%Z) (Q_plus_z t (i,j,k-1,1)%Z) (Vz t (i,j,k-1)%Z) (Vz t (i,j,k)) in
  let F1_plusz := flux (Q_minus_z t (i,j,k,1)%Z) (Q_plus_z t (i,j,k,1)%Z) (Vz t (i,j,k)) (Vz t (i,j,k+1)%Z) in
  let F2_minusz := flux (Q_minus_z t (i,j,k-1,2)%Z) (Q_plus_z t (i,j,k-1,2)%Z) (Vz t (i,j,k-1)%Z) (Vz t (i,j,k)) in
  let F2_plusz := flux (Q_minus_z t (i,j,k,2)%Z) (Q_plus_z t (i,j,k,2)%Z) (Vz t (i,j,k)) (Vz t (i,j,k+1)%Z) in
  let F3_minusz := flux (Q_minus_z t (i,j,k-1,3)%Z) (Q_plus_z t (i,j,k-1,3)%Z) (Vz t (i,j,k-1)%Z) (Vz t (i,j,k)) in
  let F3_plusz := flux (Q_minus_z t (i,j,k,3)%Z) (Q_plus_z t (i,j,k,3)%Z) (Vz t (i,j,k)) (Vz t (i,j,k+1)%Z) in
  (* Update Q from tn -> tn + dt *)
  {|
     N_arr := upd cell_eqb (N_arr m) (i,j,k)
       (N_arr m (i,j,k) - cx*(F0_plusx - F0_minusx)
                        - cy*(F0_plusy - F0_minusy)
                        - cz*(F0_plusz - F0_minusz));
     NUx_arr := upd cell_eqb (NUx_arr m) (i,j,k)
       (NUx_arr m (i,j,k) - cx*(F1_plusx - F1_minusx)
                        - cy*(F1_plusy - F1_minusy)
                        - cz*(F1_plusz - F1_minusz));
     NUy_arr := upd cell_eqb (NUy_arr m) (i,j,k)
       (NUy_arr m (i,j,k) - cx*(F2_plusx - F2_minusx)
                        - cy*(F2_plusy - F2_minusy)
                        - cz*(F2_plusz - F2_minusz));
     NUz_arr := upd cell_eqb (NUz_arr m) (i,j,k)
       (NUz_arr m (i,j,k) - cx*(F3_plusx - F3_minusx)
                        - cy*(F3_plusy - F3_minusy)
                        - cz*(F3_plusz - F3_minusz)) |}.

(** *** The two patch loops and the guard-cell fill *)
Section Patches.

(** [N[lev]->boxArray()]: the nodal valid box of every patch, and the
    periodicity of the geometry. *)
Variable ba : list Box.
Variable period : IntVect.

(** First [MFIter] loop.  [tmp] is what the freshly allocated temporaries
    happen to hold. *)
Definition predict_patches (S : Level) (tmp : nat -> Edges) : nat -> Edges :=
  fun p =>
    match nth_error ba p with
    | None => tmp p
    | Some validbox =>
        let box := grow validbox 1 in
        let tile_box := grow validbox 1 in
        let box_x := convert box (mkIntVect 0 1 1) in
        let box_y := convert box (mkIntVect 1 0 1) in
        let box_z := convert box (mkIntVect 1 1 0) in
        ParallelFor tile_box (predict_cell box_x box_y box_z (arrays S p)) (tmp p)
    end.

(** Second [MFIter] loop. *)
Definition update_patches (t : nat -> Edges) (S : Level) : nat -> Moments :=
  fun p =>
    match nth_error ba p with
    | None => arrays S p
    | Some tile_box => ParallelFor tile_box (update_cell (t p)) (arrays S p)
    end.

Definition AdvectivePush_Muscl (S : Level) (tmp : nat -> Edges) : Level :=
  let t := predict_patches S tmp in
  let S' := update_patches t S in
  (* Fill guard cells *)
  {| N := FillBoundary ba period (fun p => N_arr (S' p)) nGrow;
     NU0 := FillBoundary ba period (fun p => NUx_arr (S' p)) nGrow;
     NU1 := FillBoundary ba period (fun p => NUy_arr (S' p)) nGrow;
     NU2 := FillBoundary ba period (fun p => NUz_arr (S' p)) nGrow |}.

End Patches.

(** *** What the first kernel leaves in the temporaries *)

(** The writes of one edge state: cell [c] stores [val c n] at point
    [sh c], when the box of that array holds the point. *)
Definition edge_writes (box : Box) (sh : Cell -> Cell) (val : Cell -> Z -> R)
           (c : Cell) : list (Cell * Z * R) :=
  if contains box (sh c) then
    [((sh c, 0%Z), val c 0%Z); ((sh c, 1%Z), val c 1%Z);
     ((sh c, 2%Z), val c 2%Z); ((sh c, 3%Z), val c 3%Z)]
  else [].

Lemma edge_writes_hit (box : Box) (sh unsh : Cell -> Cell) (val : Cell -> Z -> R)
      (l : list Cell) (q0 : Array4n) (q : Cell) (n : Z) :
  (forall c, unsh (sh c) = c) -> (forall c, sh (unsh c) = c) ->
  In (unsh q) l -> contains box q = true -> (0 <= n <= 3)%Z ->
  apply_writes comp_eqb (flat_map (edge_writes box sh val) l) q0 (q, n)
  = val (unsh q) n.
Proof.
  intros Hus Hsu Hin Hbox Hn. apply (apply_writes_hit comp_eqb comp_eqb_spec).
  - intros v' H. apply in_flat_map in H. destruct H as [c [_ H]].
    unfold edge_writes in H. destruct (contains box (sh c)); [|destruct H].
    simpl in H.
    destruct H as [E|[E|[E|[E|[]]]]]; inversion E; subst; rewrite Hus; reflexivity.
  - exists (val (unsh q) n). apply in_flat_map. exists (unsh q). split; [assumption|].
    unfold edge_writes. rewrite Hsu, Hbox.
    assert (n = 0 \/ n = 1 \/ n = 2 \/ n = 3)%Z as [-> | [-> | [-> | ->]]] by lia;
      simpl; auto.
Qed.

Definition val_minus (dQ : Moments -> Z -> Z -> Z -> Z -> R) (m : Moments)
           (c : Cell) (n : Z) : R :=
  let '(i, j, k) := c in edge_minus dQ m i j k n.

Definition val_plus (dQ : Moments -> Z -> Z -> Z -> Z -> R) (m : Moments)
           (c : Cell) (n : Z) : R :=
  let '(i, j, k) := c in edge_plus dQ m i j k n.

Definition down_x (c : Cell) : Cell := let '(i, j, k) := c in (i-1, j, k)%Z.
Definition down_y (c : Cell) : Cell := let '(i, j, k) := c in (i, j-1, k)%Z.
Definition down_z (c : Cell) : Cell := let '(i, j, k) := c in (i, j, k-1)%Z.
Definition up_x (c : Cell) : Cell := let '(i, j, k) := c in (i+1, j, k)%Z.
Definition up_y (c : Cell) : Cell := let '(i, j, k) := c in (i, j+1, k)%Z.
Definition up_z (c : Cell) : Cell := let '(i, j, k) := c in (i, j, k+1)%Z.

Ltac cell_arith :=
  intros [[? ?] ?]; unfold down_x, down_y, down_z, up_x, up_y, up_z;
  repeat f_equal; lia.

Lemma up_down_x c : up_x (down_x c) = c. Proof. revert c; cell_arith. Qed.
Lemma down_up_x c : down_x (up_x c) = c. Proof. revert c; cell_arith. Qed.
Lemma up_down_y c : up_y (down_y c) = c. Proof. revert c; cell_arith. Qed.
Lemma down_up_y c : down_y (up_y c) = c. Proof. revert c; cell_arith. Qed.
Lemma up_down_z c : up_z (down_z c) = c. Proof. revert c; cell_arith. Qed.
Lemma down_up_z c : down_z (up_z c) = c. Proof. revert c; cell_arith. Qed.

Section PredictFacts.

Variables box_x box_y box_z : Box.
Variable m : Moments.
Variable l : list Cell.
Variable t0 : Edges.

Let T := fold_left (fun t c => predict_cell box_x box_y box_z m c t) l t0.

Ltac by_projection field eqb ws :=
  unfold T;
  rewrite (fold_left_proj field _ (fun q c => apply_writes eqb (ws c) q));
  [ rewrite (fold_writes eqb ws l)
  | intros s [[? ?] ?]; unfold predict_cell, edge_writes, down_x, down_y, down_z;
    cbn [Vx Vy Vz Q_minus_x Q_plus_x Q_minus_y Q_plus_y Q_minus_z Q_plus_z];
    try match goal with |- context [contains ?b ?c] => destruct (contains b c) end;
    reflexivity ].

Lemma predict_Vx i j k : In (i,j,k) l -> Vx T (i,j,k) = V_x m i j k.
Proof.
  intros Hin.
  by_projection Vx cell_eqb (fun c : Cell => [(c, let '(i,j,k) := c in V_x m i j k)]).
  apply (apply_writes_hit cell_eqb cell_eqb_spec).
  - intros v' H. apply in_flat_map in H. destruct H as [c [_ [E|[]]]].
    inversion E; subst. reflexivity.
  - eexists. apply in_flat_map. exists (i,j,k). split; [assumption|now left].
Qed.

Lemma predict_Vy i j k : In (i,j,k) l -> Vy T (i,j,k) = V_y m i j k.
Proof.
  intros Hin.
  by_projection Vy cell_eqb (fun c : Cell => [(c, let '(i,j,k) := c in V_y m i j k)]).
  apply (apply_writes_hit cell_eqb cell_eqb_spec).
  - intros v' H. apply in_flat_map in H. destruct H as [c [_ [E|[]]]].
    inversion E; subst. reflexivity.
  - eexists. apply in_flat_map. exists (i,j,k). split; [assumption|now left].
Qed.

Lemma predict_Vz i j k : In (i,j,k) l -> Vz T (i,j,k) = V_z m i j k.
Proof.
  intros Hin.
  by_projection Vz cell_eqb (fun c : Cell => [(c, let '(i,j,k) := c in V_z m i j k)]).
  apply (apply_writes_hit cell_eqb cell_eqb_spec).
  - intros v' H. apply in_flat_map in H. destruct H as [c [_ [E|[]]]].
    inversion E; subst. reflexivity.
  - eexists. apply in_flat_map. exists (i,j,k). split; [assumption|now left].
Qed.

Lemma predict_Q_minus_x i j k n :
  In (i,j,k) l -> contains box_x (i,j,k) = true -> (0 <= n <= 3)%Z ->
  Q_minus_x T (i,j,k,n) = edge_minus dQx m i j k n.
Proof.
  intros Hin Hbox Hn.
  by_projection Q_minus_x comp_eqb (edge_writes box_x (fun c => c) (val_minus dQx m)).
  apply (edge_writes_hit box_x (fun c => c) (fun c => c) (val_minus dQx m) l _ (i,j,k) n);
    auto.
Qed.

Lemma predict_Q_plus_x i j k n :
  In (i+1,j,k)%Z l -> contains box_x (i,j,k) = true -> (0 <= n <= 3)%Z ->
  Q_plus_x T (i,j,k,n) = edge_plus dQx m (i+1) j k n.
Proof.
  intros Hin Hbox Hn.
  by_projection Q_plus_x comp_eqb (edge_writes box_x down_x (val_plus dQx m)).
  apply (edge_writes_hit box_x down_x up_x (val_plus dQx m) l _ (i,j,k) n);
    auto using up_down_x, down_up_x.
Qed.

Lemma predict_Q_minus_y i j k n :
  In (i,j,k) l -> contains box_y (i,j,k) = true -> (0 <= n <= 3)%Z ->
  Q_minus_y T (i,j,k,n) = edge_minus dQy m i j k n.
Proof.
  intros Hin Hbox Hn.
  by_projection Q_minus_y comp_eqb (edge_writes box_y (fun c => c) (val_minus dQy m)).
  apply (edge_writes_hit box_y (fun c => c) (fun c => c) (val_minus dQy m) l _ (i,j,k) n);
    auto.
Qed.

Lemma predict_Q_plus_y i j k n :
  In (i,j+1,k)%Z l -> contains box_y (i,j,k) = true -> (0 <= n <= 3)%Z ->
  Q_plus_y T (i,j,k,n) = edge_plus dQy m i (j+1) k n.
Proof.
  intros Hin Hbox Hn.
  by_projection Q_plus_y comp_eqb (edge_writes box_y down_y (val_plus dQy m)).
  apply (edge_writes_hit box_y down_y up_y (val_plus dQy m) l _ (i,j,k) n);
    auto using up_down_y, down_up_y.
Qed.

Lemma predict_Q_minus_z i j k n :
  In (i,j,k) l -> contains box_z (i,j,k) = true -> (0 <= n <= 3)%Z ->
  Q_minus_z T (i,j,k,n) = edge_minus dQz m i j k n.
Proof.
  intros Hin Hbox Hn.
  by_projection Q_minus_z comp_eqb (edge_writes box_z (fun c => c) (val_minus dQz m)).
  apply (edge_writes_hit box_z (fun c => c) (fun c => c) (val_minus dQz m) l _ (i,j,k) n);
    auto.
Qed.

Lemma predict_Q_plus_z i j k n :
  In (i,j,k+1)%Z l -> contains box_z (i,j,k) = true -> (0 <= n <= 3)%Z ->
  Q_plus_z T (i,j,k,n) = edge_plus dQz m i j (k+1) n.
Proof.
  intros Hin Hbox Hn.
  by_projection Q_plus_z comp_eqb (edge_writes box_z down_z (val_plus dQz m)).
  apply (edge_writes_hit box_z down_z up_z (val_plus dQz m) l _ (i,j,k) n);
    auto using up_down_z, down_up_z.
Qed.

End PredictFacts.

(** *** What the second kernel leaves in the moments *)

(** Component [n] of the conserved vector, per patch and per level. *)
Definition moment_arr (m : Moments) (n : Z) : Array4 :=
  match n with
  | 0%Z => N_arr m | 1%Z => NUx_arr m | 2%Z => NUy_arr m | _ => NUz_arr m
  end.

Definition moment (S : Level) (n : Z) : MultiFab :=
  match n with
  | 0%Z => N S | 1%Z => NU0 S | 2%Z => NU1 S | _ => NU2 S
  end.

(** The new value the second kernel stores for component [n] at a cell,
    read off the temporaries. *)
Definition cell_update (t : Edges) (n : Z) (c : Cell) (Q : R) : R :=
  let '(i, j, k) := c in
  Q
      - cx*(flux (Q_minus_x t (i,j,k,n)%Z) (Q_plus_x t (i,j,k,n)%Z) (Vx t (i,j,k)) (Vx t (i+1,j,k)%Z)
            - flux (Q_minus_x t (i-1,j,k,n)%Z) (Q_plus_x t (i-1,j,k,n)%Z) (Vx t (i-1,j,k)%Z) (Vx t (i,j,k)))
      - cy*(flux (Q_minus_y t (i,j,k,n)%Z) (Q_plus_y t (i,j,k,n)%Z) (Vy t (i,j,k)) (Vy t (i,j+1,k)%Z)
            - flux (Q_minus_y t (i,j-1,k,n)%Z) (Q_plus_y t (i,j-1,k,n)%Z) (Vy t (i,j-1,k)%Z) (Vy t (i,j,k)))
      - cz*(flux (Q_minus_z t (i,j,k,n)%Z) (Q_plus_z t (i,j,k,n)%Z) (Vz t (i,j,k)) (Vz t (i,j,k+1)%Z)
            - flux (Q_minus_z t (i,j,k-1,n)%Z) (Q_plus_z t (i,j,k-1,n)%Z) (Vz t (i,j,k-1)%Z) (Vz t (i,j,k))).

Lemma update_cell_get (t : Edges) (n : Z) (m : Moments) (c q : Cell) :
  (0 <= n <= 3)%Z ->
  moment_arr (update_cell t c m) n q
  = if cell_eqb q c then cell_update t n c (moment_arr m n c) else moment_arr m n q.
Proof.
  intros Hn. destruct c as [[i j] k].
  assert (n = 0 \/ n = 1 \/ n = 2 \/ n = 3)%Z as [-> | [-> | [-> | ->]]] by lia;
    reflexivity.
Qed.

Lemma update_patch_in (t : Edges) (n : Z) (m : Moments) (b : Box) (c : Cell) :
  (0 <= n <= 3)%Z -> contains b c = true ->
  moment_arr (ParallelFor b (update_cell t) m) n c
  = cell_update t n c (moment_arr m n c).
Proof.
  intros Hn Hc. unfold ParallelFor.
  apply (fold_cellwise_in cell_eqb cell_eqb_spec
           (fun m => moment_arr m n) (fun m c => update_cell t c m)
           (cell_update t n)).
  - intros s c' q. apply update_cell_get. assumption.
  - apply NoDup_cells.
  - apply In_cells. assumption.
Qed.

Lemma update_patch_out (t : Edges) (n : Z) (m : Moments) (b : Box) (c : Cell) :
  (0 <= n <= 3)%Z -> contains b c = false ->
  moment_arr (ParallelFor b (update_cell t) m) n c = moment_arr m n c.
Proof.
  intros Hn Hc. unfold ParallelFor.
  apply (fold_cellwise_out cell_eqb cell_eqb_spec
           (fun m => moment_arr m n) (fun m c => update_cell t c m)
           (cell_update t n)).
  - intros s c' q. apply update_cell_get. assumption.
  - intros H. apply In_cells in H. congruence.
Qed.

Ltac box_arith :=
  repeat match goal with
         | H : contains _ (_, _, _) = true |- _ => apply contains_spec in H
         | |- contains _ (_, _, _) = true => apply contains_spec
         | |- In _ (cells _) => apply In_cells
         end;
  unfold convert, grow in *; cbn [smallEnd bigEnd btype iv0 iv1 iv2] in *;
  repeat match goal with
         | H : btype _ = TheNodeVector |- _ => rewrite H in *
         end;
  unfold TheNodeVector in *; cbn [iv0 iv1 iv2] in *; lia.

(** On a nodal patch, the temporaries the second kernel reads at a valid
    cell are the ones the first kernel computed, so that the stored value
    is the finite-volume formula on the face fluxes. *)
Lemma cell_update_finite_volume (validbox : Box) (m : Moments) (t0 : Edges)
      (n i j k : Z) (Q : R) :
  btype validbox = TheNodeVector ->
  contains validbox (i,j,k) = true -> (0 <= n <= 3)%Z ->
  cell_update
    (ParallelFor (grow validbox 1)
       (predict_cell (convert (grow validbox 1) (mkIntVect 0 1 1))
                     (convert (grow validbox 1) (mkIntVect 1 0 1))
                     (convert (grow validbox 1) (mkIntVect 1 1 0)) m) t0)
    n (i,j,k) Q
  = finite_volume m n i j k Q.
Proof.
  intros Hty Hc Hn. unfold cell_update, ParallelFor.
  rewrite !predict_Vx, !predict_Vy, !predict_Vz by box_arith.
  rewrite !predict_Q_minus_x, !predict_Q_minus_y, !predict_Q_minus_z
    by (assumption || box_arith).
  rewrite !predict_Q_plus_x, !predict_Q_plus_y, !predict_Q_plus_z
    by (assumption || box_arith).
  unfold finite_volume, face_flux_x, face_flux_y, face_flux_z.
  replace (i - 1 + 1)%Z with i by lia.
  replace (j - 1 + 1)%Z with j by lia.
  replace (k - 1 + 1)%Z with k by lia.
  reflexivity.
Qed.

Lemma moment_AdvectivePush_Muscl (ba : list Box) (period : IntVect)
      (S : Level) (tmp : nat -> Edges) (n : Z) :
  (0 <= n <= 3)%Z ->
  moment (AdvectivePush_Muscl ba period S tmp) n
  = FillBoundary ba period
      (fun p => moment_arr (update_patches ba (predict_patches ba S tmp) S p) n)
      nGrow.
Proof.
  intros Hn.
  assert (n = 0 \/ n = 1 \/ n = 2 \/ n = 3)%Z as [-> | [-> | [-> | ->]]] by lia;
    reflexivity.
Qed.

Lemma moment_arrays (S : Level) (p : nat) (n : Z) :
  moment_arr (arrays S p) n = moment S n p.
Proof. destruct n as [|[[?|?|]|[?|?|]|]|]; reflexivity. Qed.

Lemma AdvectivePush_Muscl_valid (ba : list Box) (period : IntVect)
        (S : Level) (tmp : nat -> Edges) (p : nat) (validbox : Box)
        (n i j k : Z) :
  nth_error ba p = Some validbox ->
  btype validbox = TheNodeVector ->
  contains validbox (i,j,k) = true ->
  (0 <= n <= 3)%Z ->
  moment (AdvectivePush_Muscl ba period S tmp) n p (i,j,k)
  = finite_volume (arrays S p) n i j k (moment S n p (i,j,k)).
Proof.
  intros Hp Hty Hc Hn.
  rewrite moment_AdvectivePush_Muscl by assumption.
  rewrite (FillBoundary_valid _ _ _ _ _ _ _ Hp Hc).
  unfold update_patches, predict_patches. rewrite Hp.
  rewrite update_patch_in by assumption.
  rewrite cell_update_finite_volume by assumption.
  rewrite moment_arrays. reflexivity.
Qed.

(** *** Totals over the owned points of a periodic patch *)

(** [h lo + h (lo+1) + ... ] over [n] consecutive integers. *)
Fixpoint sum_from (lo : Z) (n : nat) (h : Z -> R) : R :=
  match n with
  | O => 0
  | Datatypes.S n' => h lo + sum_from (lo + 1) n' h
  end.

(** The sum of a mesh function over the points of a box. *)
Definition total (f : Cell -> R) (b : Box) : R :=
  let span lo hi := Z.to_nat (hi - lo + 1) in
  sum_from (iv2 (smallEnd b)) (span (iv2 (smallEnd b)) (iv2 (bigEnd b))) (fun k =>
    sum_from (iv1 (smallEnd b)) (span (iv1 (smallEnd b)) (iv1 (bigEnd b))) (fun j =>
      sum_from (iv0 (smallEnd b)) (span (iv0 (smallEnd b)) (iv0 (bigEnd b))) (fun i =>
        f (i, j, k)))).

(** On a periodic nodal patch the points of the upper faces repeat those
    of the lower faces; the owner mask keeps the latter, which are as many
    as the cells of the patch. *)
Definition owned (validbox : Box) : Box := convert validbox (mkIntVect 0 0 0).

(** A mesh function is unchanged by the translation [s]. *)
Definition invariant (s : IntVect) (f : Cell -> R) : Prop :=
  forall i j k, f (i + iv0 s, j + iv1 s, k + iv2 s)%Z = f (i, j, k).

(** A mesh function repeats with the period of the domain in each
    direction, as it does once the guard cells are filled. *)
Definition periodic (period : IntVect) (f : Cell -> R) : Prop :=
  invariant (mkIntVect (iv0 period) 0 0) f /\
  invariant (mkIntVect 0 (iv1 period) 0) f /\
  invariant (mkIntVect 0 0 (iv2 period)) f.

Definition periodic_moments (period : IntVect) (m : Moments) : Prop :=
  periodic period (N_arr m) /\ periodic period (NUx_arr m) /\
  periodic period (NUy_arr m) /\ periodic period (NUz_arr m).

Lemma sum_from_ext (lo : Z) (n : nat) (g h : Z -> R) :
  (forall i, (lo <= i < lo + Z.of_nat n)%Z -> g i = h i) ->
  sum_from lo n g = sum_from lo n h.
Proof.
  revert lo. induction n as [|n IH]; intros lo H; simpl; [reflexivity|].
  rewrite H by lia. rewrite IH; [reflexivity|]. intros i Hi. apply H. lia.
Qed.

Lemma sum_from_plus (lo : Z) (n : nat) (g h : Z -> R) :
  sum_from lo n (fun i => g i + h i) = sum_from lo n g + sum_from lo n h.
Proof.
  revert lo. induction n as [|n IH]; intros lo; simpl; [lra|]. rewrite IH. lra.
Qed.

Lemma sum_from_scal (lo : Z) (n : nat) (a : R) (h : Z -> R) :
  sum_from lo n (fun i => a * h i) = a * sum_from lo n h.
Proof.
  revert lo. induction n as [|n IH]; intros lo; simpl; [lra|]. rewrite IH. lra.
Qed.

(** Shifting the summand by one point moves one term from one end of
    the range to the other. *)
Lemma sum_from_shift (lo : Z) (n : nat) (h : Z -> R) :
  sum_from lo n (fun i => h (i - 1)%Z) + h (lo + Z.of_nat n - 1)%Z
  = h (lo - 1)%Z + sum_from lo n h.
Proof.
  revert lo. induction n as [|n IH]; intros lo.
  - simpl. replace (lo + 0 - 1)%Z with (lo - 1)%Z by lia. lra.
  - cbn [sum_from]. specialize (IH (lo + 1)%Z).
    replace (lo + 1 + Z.of_nat n - 1)%Z with (lo + Z.of_nat (Datatypes.S n) - 1)%Z in IH by lia.
    replace (lo + 1 - 1)%Z with lo in IH by lia. lra.
Qed.

Lemma sum_from_shift_periodic (lo : Z) (n : nat) (h : Z -> R) :
  h (lo + Z.of_nat n - 1)%Z = h (lo - 1)%Z ->
  sum_from lo n (fun i => h (i - 1)%Z) = sum_from lo n h.
Proof. intros H. pose proof (sum_from_shift lo n h). lra. Qed.

(** *** Translation invariance of the kernels *)

Section ShiftFacts.

Variable m : Moments.
Variable s : IntVect.
Hypothesis HN : invariant s (N_arr m).
Hypothesis HNUx : invariant s (NUx_arr m).
Hypothesis HNUy : invariant s (NUy_arr m).
Hypothesis HNUz : invariant s (NUz_arr m).

Ltac shift_reads i j k :=
  replace (i + iv0 s - 1)%Z with (i - 1 + iv0 s)%Z by lia;
  replace (i + iv0 s + 1)%Z with (i + 1 + iv0 s)%Z by lia;
  replace (j + iv1 s - 1)%Z with (j - 1 + iv1 s)%Z by lia;
  replace (j + iv1 s + 1)%Z with (j + 1 + iv1 s)%Z by lia;
  replace (k + iv2 s - 1)%Z with (k - 1 + iv2 s)%Z by lia;
  replace (k + iv2 s + 1)%Z with (k + 1 + iv2 s)%Z by lia;
  rewrite ?(HN _ _ _), ?(HNUx _ _ _), ?(HNUy _ _ _), ?(HNUz _ _ _).

Lemma Ux_shift i j k :
  Ux m (i + iv0 s) (j + iv1 s) (k + iv2 s) = Ux m i j k.
Proof. unfold Ux. shift_reads i j k. reflexivity. Qed.

Lemma Uy_shift i j k :
  Uy m (i + iv0 s) (j + iv1 s) (k + iv2 s) = Uy m i j k.
Proof. unfold Uy. shift_reads i j k. reflexivity. Qed.

Lemma Uz_shift i j k :
  Uz m (i + iv0 s) (j + iv1 s) (k + iv2 s) = Uz m i j k.
Proof. unfold Uz. shift_reads i j k. reflexivity. Qed.

Lemma dQx_shift i j k n :
  dQx m (i + iv0 s) (j + iv1 s) (k + iv2 s) n = dQx m i j k n.
Proof.
  unfold dQx, dQ0x, dQ1x, dQ2x, dQ3x. shift_reads i j k. reflexivity.
Qed.

Lemma dQy_shift i j k n :
  dQy m (i + iv0 s) (j + iv1 s) (k + iv2 s) n = dQy m i j k n.
Proof.
  unfold dQy, dQ0y, dQ1y, dQ2y, dQ3y. shift_reads i j k. reflexivity.
Qed.

Lemma dQz_shift i j k n :
  dQz m (i + iv0 s) (j + iv1 s) (k + iv2 s) n = dQz m i j k n.
Proof.
  unfold dQz, dQ0z, dQ1z, dQ2z, dQ3z. shift_reads i j k. reflexivity.
Qed.

Lemma Q_tilde_shift i j k n :
  Q_tilde m (i + iv0 s) (j + iv1 s) (k + iv2 s) n = Q_tilde m i j k n.
Proof.
  pose proof (fun n => dQx_shift i j k n) as Hx.
  pose proof (fun n => dQy_shift i j k n) as Hy.
  pose proof (fun n => dQz_shift i j k n) as Hz.
  pose proof (Hx 0%Z) as Hx0; pose proof (Hx 1%Z) as Hx1;
    pose proof (Hx 2%Z) as Hx2; pose proof (Hx 3%Z) as Hx3.
  pose proof (Hy 0%Z) as Hy0; pose proof (Hy 1%Z) as Hy1;
    pose proof (Hy 2%Z) as Hy2; pose proof (Hy 3%Z) as Hy3.
  pose proof (Hz 0%Z) as Hz0; pose proof (Hz 1%Z) as Hz1;
    pose proof (Hz 2%Z) as Hz2; pose proof (Hz 3%Z) as Hz3.
  cbn [dQx dQy dQz] in *.
  unfold Q_tilde, Q_tilde0, Q_tilde1, Q_tilde2, Q_tilde3,
    AdQ0x, AdQ1x, AdQ2x, AdQ3x, AdQ0y, AdQ1y, AdQ2y, AdQ3y,
    AdQ0z, AdQ1z, AdQ2z, AdQ3z.
  rewrite Hx0, Hx1, Hx2, Hx3, Hy0, Hy1, Hy2, Hy3, Hz0, Hz1, Hz2, Hz3.
  rewrite !Ux_shift, !Uy_shift, !Uz_shift.
  rewrite ?(HN _ _ _), ?(HNUx _ _ _), ?(HNUy _ _ _), ?(HNUz _ _ _).
  reflexivity.
Qed.

Lemma V_x_shift i j k :
  V_x m (i + iv0 s) (j + iv1 s) (k + iv2 s) = V_x m i j k.
Proof. unfold V_x. rewrite !Ux_shift, !Uy_shift, !Uz_shift. reflexivity. Qed.

Lemma V_y_shift i j k :
  V_y m (i + iv0 s) (j + iv1 s) (k + iv2 s) = V_y m i j k.
Proof. unfold V_y. rewrite !Ux_shift, !Uy_shift, !Uz_shift. reflexivity. Qed.

Lemma V_z_shift i j k :
  V_z m (i + iv0 s) (j + iv1 s) (k + iv2 s) = V_z m i j k.
Proof. unfold V_z. rewrite !Ux_shift, !Uy_shift, !Uz_shift. reflexivity. Qed.

Lemma face_flux_x_shift n i j k :
  face_flux_x m n (i + iv0 s) (j + iv1 s) (k + iv2 s) = face_flux_x m n i j k.
Proof.
  unfold face_flux_x, edge_minus, edge_plus.
  replace (i + iv0 s + 1)%Z with (i + 1 + iv0 s)%Z by lia.
  rewrite !Q_tilde_shift, !dQx_shift, !V_x_shift. reflexivity.
Qed.

Lemma face_flux_y_shift n i j k :
  face_flux_y m n (i + iv0 s) (j + iv1 s) (k + iv2 s) = face_flux_y m n i j k.
Proof.
  unfold face_flux_y, edge_minus, edge_plus.
  replace (j + iv1 s + 1)%Z with (j + 1 + iv1 s)%Z by lia.
  rewrite !Q_tilde_shift, !dQy_shift, !V_y_shift. reflexivity.
Qed.

Lemma face_flux_z_shift n i j k :
  face_flux_z m n (i + iv0 s) (j + iv1 s) (k + iv2 s) = face_flux_z m n i j k.
Proof.
  unfold face_flux_z, edge_minus, edge_plus.
  replace (k + iv2 s + 1)%Z with (k + 1 + iv2 s)%Z by lia.
  rewrite !Q_tilde_shift, !dQz_shift, !V_z_shift. reflexivity.
Qed.

End ShiftFacts.

Lemma total_ext (f g : Cell -> R) (b : Box) :
  (forall i j k, contains b (i,j,k) = true -> f (i,j,k) = g (i,j,k)) ->
  total f b = total g b.
Proof.
  intros H. unfold total.
  apply sum_from_ext; intros k Hk. apply sum_from_ext; intros j Hj.
  apply sum_from_ext; intros i Hi. apply H. apply contains_spec. lia.
Qed.

Lemma total_plus (f g : Cell -> R) (b : Box) :
  total (fun c => f c + g c) b = total f b + total g b.
Proof.
  unfold total.
  rewrite <- sum_from_plus. apply sum_from_ext; intros k _.
  rewrite <- sum_from_plus. apply sum_from_ext; intros j _.
  rewrite <- sum_from_plus. reflexivity.
Qed.

Lemma total_scal (a : R) (f : Cell -> R) (b : Box) :
  total (fun c => a * f c) b = a * total f b.
Proof.
  unfold total.
  rewrite <- sum_from_scal. apply sum_from_ext; intros k _.
  rewrite <- sum_from_scal. apply sum_from_ext; intros j _.
  rewrite <- sum_from_scal. reflexivity.
Qed.

Lemma total_shift_x (F : Z -> Z -> Z -> R) (b : Box) (px : Z) :
  (px = iv0 (bigEnd b) - iv0 (smallEnd b) + 1)%Z ->
  (forall i j k, F (i + px)%Z j k = F i j k) ->
  total (fun c => let '(i, j, k) := c in F (i - 1)%Z j k) b
  = total (fun c => let '(i, j, k) := c in F i j k) b.
Proof.
  intros Hpx Hper. unfold total.
  apply sum_from_ext; intros k _. apply sum_from_ext; intros j _.
  destruct (Z_le_gt_dec 0 px) as [Hle|Hgt].
  - apply (sum_from_shift_periodic _ _ (fun i => F i j k)).
    rewrite <- (Hper (iv0 (smallEnd b) - 1)%Z). f_equal. lia.
  - replace (Z.to_nat (iv0 (bigEnd b) - iv0 (smallEnd b) + 1)) with O by lia.
    reflexivity.
Qed.

Lemma total_shift_y (F : Z -> Z -> Z -> R) (b : Box) (py : Z) :
  (py = iv1 (bigEnd b) - iv1 (smallEnd b) + 1)%Z ->
  (forall i j k, F i (j + py)%Z k = F i j k) ->
  total (fun c => let '(i, j, k) := c in F i (j - 1)%Z k) b
  = total (fun c => let '(i, j, k) := c in F i j k) b.
Proof.
  intros Hpy Hper. unfold total.
  apply sum_from_ext; intros k _.
  destruct (Z_le_gt_dec 0 py) as [Hle|Hgt].
  - apply (sum_from_shift_periodic _ _
             (fun j => sum_from _ _ (fun i => F i j k))).
    apply sum_from_ext; intros i _.
    rewrite <- (Hper i (iv1 (smallEnd b) - 1)%Z). f_equal. lia.
  - replace (Z.to_nat (iv1 (bigEnd b) - iv1 (smallEnd b) + 1)) with O by lia.
    reflexivity.
Qed.

Lemma total_shift_z (F : Z -> Z -> Z -> R) (b : Box) (pz : Z) :
  (pz = iv2 (bigEnd b) - iv2 (smallEnd b) + 1)%Z ->
  (forall i j k, F i j (k + pz)%Z = F i j k) ->
  total (fun c => let '(i, j, k) := c in F i j (k - 1)%Z) b
  = total (fun c => let '(i, j, k) := c in F i j k) b.
Proof.
  intros Hpz Hper. unfold total.
  destruct (Z_le_gt_dec 0 pz) as [Hle|Hgt].
  - apply (sum_from_shift_periodic _ _
             (fun k => sum_from _ _ (fun j => sum_from _ _ (fun i => F i j k)))).
    apply sum_from_ext; intros j _. apply sum_from_ext; intros i _.
    rewrite <- (Hper i j (iv2 (smallEnd b) - 1)%Z). f_equal. lia.
  - replace (Z.to_nat (iv2 (bigEnd b) - iv2 (smallEnd b) + 1)) with O by lia.
    reflexivity.
Qed.

(** A single nodal patch covering a domain of [ncell] cells per direction
    from the corner [lo]. *)
Definition domain_box (lo ncell : IntVect) : Box :=
  {| smallEnd := lo;
     bigEnd := mkIntVect (iv0 lo + iv0 ncell) (iv1 lo + iv1 ncell) (iv2 lo + iv2 ncell);
     btype := TheNodeVector |}.

Lemma invariant_x (period : IntVect) (f : Cell -> R) :
  periodic period f -> forall i j k, f (i + iv0 period, j, k)%Z = f (i, j, k).
Proof.
  intros [H _] i j k. specialize (H i j k). cbn [iv0 iv1 iv2] in H.
  rewrite !Z.add_0_r in H. exact H.
Qed.

Lemma periodic_face_flux (period : IntVect) (m : Moments) (n i j k : Z) :
  periodic_moments period m ->
  face_flux_x m n (i + iv0 period) j k = face_flux_x m n i j k /\
  face_flux_y m n i (j + iv1 period) k = face_flux_y m n i j k /\
  face_flux_z m n i j (k + iv2 period) = face_flux_z m n i j k.
Proof.
  intros [[H0x [H0y H0z]] [[H1x [H1y H1z]] [[H2x [H2y H2z]] [H3x [H3y H3z]]]]].
  split; [|split].
  - pose proof (face_flux_x_shift m _ H0x H1x H2x H3x n i j k) as H.
    cbn [iv0 iv1 iv2] in H. rewrite !Z.add_0_r in H. exact H.
  - pose proof (face_flux_y_shift m _ H0y H1y H2y H3y n i j k) as H.
    cbn [iv0 iv1 iv2] in H. rewrite !Z.add_0_r in H. exact H.
  - pose proof (face_flux_z_shift m _ H0z H1z H2z H3z n i j k) as H.
    cbn [iv0 iv1 iv2] in H. rewrite !Z.add_0_r in H. exact H.
Qed.

(** The fluxes through the faces of the owned cells cancel in pairs, and
    around the period: every conserved moment keeps its total. *)
Lemma total_finite_volume (b : Box) (period : IntVect) (m : Moments)
      (n : Z) (Q : Cell -> R) :
  periodic_moments period m ->
  iv0 period = (iv0 (bigEnd b) - iv0 (smallEnd b) + 1)%Z ->
  iv1 period = (iv1 (bigEnd b) - iv1 (smallEnd b) + 1)%Z ->
  iv2 period = (iv2 (bigEnd b) - iv2 (smallEnd b) + 1)%Z ->
  total (fun c => let '(i, j, k) := c in finite_volume m n i j k (Q c)) b
  = total Q b.
Proof.
  intros Hper Hx Hy Hz.
  pose (Fx := fun c : Cell => let '(i, j, k) := c in face_flux_x m n i j k).
  pose (Fx' := fun c : Cell => let '(i, j, k) := c in face_flux_x m n (i-1) j k).
  pose (Fy := fun c : Cell => let '(i, j, k) := c in face_flux_y m n i j k).
  pose (Fy' := fun c : Cell => let '(i, j, k) := c in face_flux_y m n i (j-1) k).
  pose (Fz := fun c : Cell => let '(i, j, k) := c in face_flux_z m n i j k).
  pose (Fz' := fun c : Cell => let '(i, j, k) := c in face_flux_z m n i j (k-1)).
  rewrite (total_ext _
    (fun c => Q c + (-cx) * Fx c + cx * Fx' c + (-cy) * Fy c + cy * Fy' c
              + (-cz) * Fz c + cz * Fz' c)).
  2:{ intros i j k _. unfold finite_volume, Fx, Fx', Fy, Fy', Fz, Fz'. ring. }
  rewrite !total_plus, !total_scal.
  assert (Ex : total Fx' b = total Fx b).
  { apply (total_shift_x (face_flux_x m n) b (iv0 period) Hx).
    intros i j k. apply (periodic_face_flux period m n i j k Hper). }
  assert (Ey : total Fy' b = total Fy b).
  { apply (total_shift_y (face_flux_y m n) b (iv1 period) Hy).
    intros i j k. apply (periodic_face_flux period m n i j k Hper). }
  assert (Ez : total Fz' b = total Fz b).
  { apply (total_shift_z (face_flux_z m n) b (iv2 period) Hz).
    intros i j k. apply (periodic_face_flux period m n i j k Hper). }
  rewrite Ex, Ey, Ez. ring.
Qed.

(** The case of one patch.  On a periodic domain covered by one nodal
    patch, for every periodic fluid state, one call of
    [AdvectivePush_Muscl] leaves the total density, summed over the owned
    points, unchanged: each face flux is subtracted from one cell and
    added to its neighbour. *)
Theorem AdvectivePush_Muscl_conserves_mass (lo ncell : IntVect) (S : Level)
        (tmp : nat -> Edges) :
  periodic_moments ncell (arrays S 0%nat) ->
  total (N (AdvectivePush_Muscl [domain_box lo ncell] ncell S tmp) 0%nat)
        (owned (domain_box lo ncell))
  = total (N S 0%nat) (owned (domain_box lo ncell)).
Proof.
  intros Hper.
  rewrite (total_ext _
    (fun c => let '(i, j, k) := c in
              finite_volume (arrays S 0%nat) 0 i j k (N S 0%nat c))).
  - apply (total_finite_volume _ ncell); try assumption;
      unfold owned, domain_box, convert, TheNodeVector;
      cbn [smallEnd bigEnd btype iv0 iv1 iv2]; lia.
  - intros i j k Hc.
    apply (AdvectivePush_Muscl_valid [domain_box lo ncell] ncell S tmp 0%nat
             (domain_box lo ncell) 0%Z i j k); try reflexivity; try lia.
    unfold owned in Hc. apply contains_spec in Hc. apply contains_spec.
    unfold domain_box, convert, TheNodeVector in *.
    cbn [smallEnd bigEnd btype iv0 iv1 iv2] in *. lia.
Qed.

(** C3.  At every valid cell of every (nodal) patch, one call of
    [AdvectivePush_Muscl] replaces each of the four conserved moments
    [N], [NUx], [NUy], [NUz] by the explicit finite-volume formula
    [Q_old - sum_axis (dt/dx_axis) (F_plus_axis - F_minus_axis)] applied once
    to the old state, where each face flux is [flux] of the two predicted
    edge states straddling the face. *)
Theorem AdvectivePush_Muscl_finite_volume (ba : list Box) (period : IntVect)
        (S : Level) (tmp : nat -> Edges) (p : nat) (validbox : Box)
        (n i j k : Z) :
  nth_error ba p = Some validbox ->
  btype validbox = TheNodeVector ->
  contains validbox (i,j,k) = true ->
  (0 <= n <= 3)%Z ->
  moment (AdvectivePush_Muscl ba period S tmp) n p (i,j,k)
  = finite_volume (arrays S p) n i j k (moment S n p (i,j,k)).
Proof. exact (AdvectivePush_Muscl_valid ba period S tmp p validbox n i j k). Qed.

(** *** A uniform state *)

Lemma constant_invariant (s : IntVect) (f : Cell -> R) :
  constant f -> invariant s f.
Proof. intros H i j k. apply H. Qed.

Lemma finite_volume_uniform (m : Moments) (n i j k : Z) (Q : R) :
  constant (N_arr m) -> constant (NUx_arr m) ->
  constant (NUy_arr m) -> constant (NUz_arr m) ->
  finite_volume m n i j k Q = Q.
Proof.
  intros H0 H1 H2 H3. unfold finite_volume.
  pose proof (face_flux_x_shift m (mkIntVect (-1) 0 0)
                (constant_invariant _ _ H0) (constant_invariant _ _ H1)
                (constant_invariant _ _ H2) (constant_invariant _ _ H3) n i j k) as Hx.
  pose proof (face_flux_y_shift m (mkIntVect 0 (-1) 0)
                (constant_invariant _ _ H0) (constant_invariant _ _ H1)
                (constant_invariant _ _ H2) (constant_invariant _ _ H3) n i j k) as Hy.
  pose proof (face_flux_z_shift m (mkIntVect 0 0 (-1))
                (constant_invariant _ _ H0) (constant_invariant _ _ H1)
                (constant_invariant _ _ H2) (constant_invariant _ _ H3) n i j k) as Hz.
  cbn [iv0 iv1 iv2] in Hx, Hy, Hz. rewrite !Z.add_0_r in Hx, Hy, Hz.
  replace (i + -1)%Z with (i - 1)%Z in Hx by lia.
  replace (j + -1)%Z with (j - 1)%Z in Hy by lia.
  replace (k + -1)%Z with (k - 1)%Z in Hz by lia.
  rewrite Hx, Hy, Hz. ring.
Qed.

Lemma uniform_constant (S : Level) (n0 u0 v0 w0 : R) (p : nat) :
  uniform_level S n0 u0 v0 w0 ->
  constant (N_arr (arrays S p)) /\ constant (NUx_arr (arrays S p)) /\
  constant (NUy_arr (arrays S p)) /\ constant (NUz_arr (arrays S p)).
Proof.
  intros H. unfold constant. cbn [arrays N_arr NUx_arr NUy_arr NUz_arr].
  repeat split; intros c d;
    destruct (H p c) as [? [? [? ?]]]; destruct (H p d) as [? [? [? ?]]]; congruence.
Qed.

Lemma update_patches_uniform (ba : list Box) (S : Level) (tmp : nat -> Edges)
      (n0 u0 v0 w0 : R) (n : Z) (p : nat) (c : Cell) :
  Forall (fun b => btype b = TheNodeVector) ba ->
  uniform_level S n0 u0 v0 w0 ->
  (0 <= n <= 3)%Z ->
  moment_arr (update_patches ba (predict_patches ba S tmp) S p) n c
  = moment_arr (arrays S p) n c.
Proof.
  intros Hnodal HS Hn. unfold update_patches, predict_patches.
  destruct (nth_error ba p) as [validbox|] eqn:Hp; [|reflexivity].
  assert (Hty : btype validbox = TheNodeVector).
  { rewrite Forall_forall in Hnodal. apply Hnodal.
    apply (nth_error_In _ _ Hp). }
  destruct (contains validbox c) eqn:Hc.
  - rewrite update_patch_in by assumption. destruct c as [[i j] k].
    rewrite cell_update_finite_volume by assumption.
    destruct (uniform_constant S n0 u0 v0 w0 p HS) as [H0 [H1 [H2 H3]]].
    apply finite_volume_uniform; assumption.
  - apply update_patch_out; assumption.
Qed.

(** The advection step maps a uniform state to itself. *)
Lemma AdvectivePush_Muscl_uniform (ba : list Box) (period : IntVect) (S : Level)
      (tmp : nat -> Edges) (n0 u0 v0 w0 : R) :
  Forall (fun b => btype b = TheNodeVector) ba ->
  uniform_level S n0 u0 v0 w0 ->
  uniform_level (AdvectivePush_Muscl ba period S tmp) n0 u0 v0 w0.
Proof.
  intros Hnodal HS p c. unfold AdvectivePush_Muscl. cbn [N NU0 NU1 NU2].
  repeat split; apply FillBoundary_const; intros p' c'.
  - pose proof (update_patches_uniform ba S tmp n0 u0 v0 w0 0%Z p' c' Hnodal HS
                  ltac:(lia)) as H.
    cbn [moment_arr arrays N_arr NUx_arr NUy_arr NUz_arr] in H. rewrite H.
    destruct (HS p' c') as [? [? [? ?]]]; assumption.
  - pose proof (update_patches_uniform ba S tmp n0 u0 v0 w0 1%Z p' c' Hnodal HS
                  ltac:(lia)) as H.
    cbn [moment_arr arrays N_arr NUx_arr NUy_arr NUz_arr] in H. rewrite H.
    destruct (HS p' c') as [? [? [? ?]]]; assumption.
  - pose proof (update_patches_uniform ba S tmp n0 u0 v0 w0 2%Z p' c' Hnodal HS
                  ltac:(lia)) as H.
    cbn [moment_arr arrays N_arr NUx_arr NUy_arr NUz_arr] in H. rewrite H.
    destruct (HS p' c') as [? [? [? ?]]]; assumption.
  - pose proof (update_patches_uniform ba S tmp n0 u0 v0 w0 3%Z p' c' Hnodal HS
                  ltac:(lia)) as H.
    cbn [moment_arr arrays N_arr NUx_arr NUy_arr NUz_arr] in H. rewrite H.
    destruct (HS p' c') as [? [? [? ?]]]; assumption.
Qed.

End Advection.

(** ** Momentum source from the fields *)

(** A mesh field of the simulation: its data and its index type. *)
Record Field : Type := mkField { data : MultiFab; ixType : IntVect }.

(** No coarsening: [{1, 1, 1}]. *)
Definition coarsening_ratio : IntVect := mkIntVect 1 1 1.

(** The index type of the fluid fields: [AllocateLevelMFs] converts the
    box array to the node vector. *)
Definition Nodal_type : IntVect := TheNodeVector.

Section Push.

(** Charge, mass and time step. *)
Variables q mass dt : R.

(** [ablastr::coarsen::sample::Interp (arr_src, sf, sc, cr, i, j, k, 0)] and
    the Higuera-Cary pusher of Particles/Pusher; neither header is among the
    sources.  The pusher updates its first three arguments in place: here
    it returns them. *)
Variable Interp : Array4 -> IntVect -> IntVect -> IntVect -> Z -> Z -> Z -> R.
Variable UpdateMomentumHigueraCary :
  R -> R -> R -> R -> R -> R -> R -> R -> R -> R -> R -> R -> R * R * R.

Section PushPatch.

Variables Ex_arr Ey_arr Ez_arr Bx_arr By_arr Bz_arr : Array4.
Variables Ex_type Ey_type Ez_type Bx_type By_type Bz_type : IntVect.

(** The momentum the pusher returns at cell [(i,j,k)] for the bulk
    momentum [(Ux, Uy, Uz)]. *)
Definition pushed (i j k : Z) (tmp_Ux tmp_Uy tmp_Uz : R) : R * R * R :=
  (* Interpolate fields from tmp to Nodal points *)
  let Ex_Nodal := Interp Ex_arr Ex_type Nodal_type coarsening_ratio i j k in
  let Ey_Nodal := Interp Ey_arr Ey_type Nodal_type coarsening_ratio i j k in
  let Ez_Nodal := Interp Ez_arr Ez_type Nodal_type coarsening_ratio i j k in
  let Bx_Nodal := Interp Bx_arr Bx_type Nodal_type coarsening_ratio i j k in
  let By_Nodal := Interp By_arr By_type Nodal_type coarsening_ratio i j k in
  let Bz_Nodal := Interp Bz_arr Bz_type Nodal_type coarsening_ratio i j k in
  (* Push the fluid momentum *)
  UpdateMomentumHigueraCary tmp_Ux tmp_Uy tmp_Uz
    Ex_Nodal Ey_Nodal Ez_Nodal
    Bx_Nodal By_Nodal Bz_Nodal q mass dt.

(** The body of the push kernel at cell [(i,j,k)]. *)
Definition push_cell (c : Cell) (m : Moments) : Moments :=
  let '(i, j, k) := c in
  (* Isolate U from NU *)
  let tmp_Ux := (NUx_arr m (i,j,k) / N_arr m (i,j,k)) in
  let tmp_Uy := (NUy_arr m (i,j,k) / N_arr m (i,j,k)) in
  let tmp_Uz := (NUz_arr m (i,j,k) / N_arr m (i,j,k)) in
  let U := pushed i j k tmp_Ux tmp_Uy tmp_Uz in
  (* Calculate NU *)
  {| N_arr := N_arr m;
     NUx_arr := upd cell_eqb (NUx_arr m) (i,j,k) (N_arr m (i,j,k) * fst (fst U));
     NUy_arr := upd cell_eqb (NUy_arr m) (i,j,k) (N_arr m (i,j,k) * snd (fst U));
     NUz_arr := upd cell_eqb (NUz_arr m) (i,j,k) (N_arr m (i,j,k) * snd U) |}.

End PushPatch.

Definition GatherAndPush (ba : list Box) (period : IntVect) (S : Level)
           (Ex Ey Ez Bx By Bz : Field) : Level :=
  (* H&C push the momentum *)
  let S' := fun p =>
    match nth_error ba p with
    | None => arrays S p
    | Some tile_box =>
        ParallelFor tile_box
          (push_cell (data Ex p) (data Ey p) (data Ez p)
                     (data Bx p) (data By p) (data Bz p)
                     (ixType Ex) (ixType Ey) (ixType Ez)
                     (ixType Bx) (ixType By) (ixType Bz))
          (arrays S p)
    end in
  (* Fill guard cells *)
  {| N := fun p => N_arr (S' p);
     NU0 := FillBoundary ba period (fun p => NUx_arr (S' p)) nGrow;
     NU1 := FillBoundary ba period (fun p => NUy_arr (S' p)) nGrow;
     NU2 := FillBoundary ba period (fun p => NUz_arr (S' p)) nGrow |}.

(** *** What the push leaves in the moments *)

Section PushFacts.

Variables Ex_arr Ey_arr Ez_arr Bx_arr By_arr Bz_arr : Array4.
Variables Ex_type Ey_type Ez_type Bx_type By_type Bz_type : IntVect.

Let body := fun (m : Moments) (c : Cell) =>
  push_cell Ex_arr Ey_arr Ez_arr Bx_arr By_arr Bz_arr
            Ex_type Ey_type Ez_type Bx_type By_type Bz_type c m.

(** A cell of the state, as the kernel reads it. *)
Definition at_cell (m : Moments) (c : Cell) : R * R * R * R :=
  (N_arr m c, NUx_arr m c, NUy_arr m c, NUz_arr m c).

(** The same cell after the kernel ran on it. *)
Definition pushed_cell (c : Cell) (v : R * R * R * R) : R * R * R * R :=
  let '(i, j, k) := c in
  let n := fst (fst (fst v)) in
  let U := pushed Ex_arr Ey_arr Ez_arr Bx_arr By_arr Bz_arr
                  Ex_type Ey_type Ez_type Bx_type By_type Bz_type i j k
                  (snd (fst (fst v)) / n) (snd (fst v) / n) (snd v / n) in
  (n, n * fst (fst U), n * snd (fst U), n * snd U).

Lemma push_cell_get (m : Moments) (c q' : Cell) :
  at_cell (body m c) q'
  = if cell_eqb q' c then pushed_cell c (at_cell m c) else at_cell m q'.
Proof.
  destruct c as [[i j] k]. unfold body, at_cell, push_cell, pushed_cell, upd.
  cbn [N_arr NUx_arr NUy_arr NUz_arr fst snd].
  destruct (cell_eqb_spec q' (i,j,k)) as [->|]; reflexivity.
Qed.

Lemma push_patch_N (l : list Cell) (m : Moments) :
  N_arr (fold_left body l m) = N_arr m.
Proof.
  revert m. induction l as [|c l IH]; intros m; simpl; [reflexivity|].
  rewrite IH. destruct c as [[i j] k]. reflexivity.
Qed.

Lemma push_patch_in (b : Box) (m : Moments) (c : Cell) :
  contains b c = true ->
  at_cell (ParallelFor b
             (push_cell Ex_arr Ey_arr Ez_arr Bx_arr By_arr Bz_arr
                        Ex_type Ey_type Ez_type Bx_type By_type Bz_type) m) c
  = pushed_cell c (at_cell m c).
Proof.
  intros Hc. unfold ParallelFor.
  apply (fold_cellwise_in cell_eqb cell_eqb_spec at_cell body pushed_cell).
  - apply push_cell_get.
  - apply NoDup_cells.
  - apply In_cells. assumption.
Qed.

Lemma push_patch_out (b : Box) (m : Moments) (c : Cell) :
  contains b c = false ->
  at_cell (ParallelFor b
             (push_cell Ex_arr Ey_arr Ez_arr Bx_arr By_arr Bz_arr
                        Ex_type Ey_type Ez_type Bx_type By_type Bz_type) m) c
  = at_cell m c.
Proof.
  intros Hc. unfold ParallelFor.
  apply (fold_cellwise_out cell_eqb cell_eqb_spec at_cell body pushed_cell).
  - apply push_cell_get.
  - intros H. apply In_cells in H. congruence.
Qed.

End PushFacts.

(** The bulk momentum [NU/N] of a patch at a cell. *)
Definition bulk_momentum (S : Level) (p : nat) (c : Cell) : R * R * R :=
  (NU0 S p c / N S p c, NU1 S p c / N S p c, NU2 S p c / N S p c).

(** C2.  [GatherAndPush] leaves the density [N] exactly as it was, at every
    point of every patch, whatever the fields, charge, mass and time step:
    only the momentum densities change.  At a valid cell with non-zero
    density the bulk momentum recovered from the new [NU] and that same
    density is the momentum the pusher returned. *)
Theorem GatherAndPush_preserves_N (ba : list Box) (period : IntVect) (S : Level)
        (Ex Ey Ez Bx By Bz : Field) :
  let S' := GatherAndPush ba period S Ex Ey Ez Bx By Bz in
  (forall p c, N S' p c = N S p c) /\
  (forall p tile_box i j k,
      nth_error ba p = Some tile_box ->
      contains tile_box (i,j,k) = true ->
      N S p (i,j,k) <> 0 ->
      bulk_momentum S' p (i,j,k)
      = pushed (data Ex p) (data Ey p) (data Ez p) (data Bx p) (data By p) (data Bz p)
               (ixType Ex) (ixType Ey) (ixType Ez) (ixType Bx) (ixType By) (ixType Bz)
               i j k
               (NU0 S p (i,j,k) / N S p (i,j,k))
               (NU1 S p (i,j,k) / N S p (i,j,k))
               (NU2 S p (i,j,k) / N S p (i,j,k))).
Proof.
  intros S'.
  assert (HN : forall p c, N S' p c = N S p c).
  { intros p c. unfold S', GatherAndPush. cbn [N].
    destruct (nth_error ba p); [|reflexivity].
    unfold ParallelFor. rewrite push_patch_N. reflexivity. }
  split; [exact HN|].
  intros p tile_box i j k Hp Hc Hne.
  unfold bulk_momentum. rewrite HN.
  unfold S', GatherAndPush. cbn [NU0 NU1 NU2].
  rewrite !(FillBoundary_valid _ _ _ _ _ _ _ Hp Hc). cbv beta. rewrite Hp.
  pose proof (push_patch_in (data Ex p) (data Ey p) (data Ez p)
                (data Bx p) (data By p) (data Bz p)
                (ixType Ex) (ixType Ey) (ixType Ez)
                (ixType Bx) (ixType By) (ixType Bz)
                tile_box (arrays S p) (i,j,k) Hc) as H.
  unfold at_cell, pushed_cell in H. cbn [arrays N_arr NUx_arr NUy_arr NUz_arr fst snd] in H.
  injection H as H0 H1 H2 H3. rewrite H1, H2, H3.
  set (U := pushed _ _ _ _ _ _ _ _ _ _ _ _ _ _ _ _ _ _).
  destruct U as [[ux uy] uz]. cbn [fst snd].
  f_equal; [f_equal|]; field; assumption.
Qed.

(** *** A fluid at rest in zero fields *)

(** A field that vanishes everywhere, on whatever index type. *)
Definition zero_field (ty : IntVect) : Field :=
  {| data := fun _ _ => 0; ixType := ty |}.

(** Modelled from the spec: [Interp] of ablastr/coarsen/sample.H is not
    among the sources.  The specification describes the interpolation
    adapter as a fixed interpolation/averaging rule; such a rule resamples
    the zero array to zero. *)
Definition Interp_preserves_zero : Prop :=
  forall sf sc cr i j k, Interp (fun _ => 0) sf sc cr i j k = 0.

(** Modelled from the spec: [UpdateMomentumHigueraCary] of
    Particles/Pusher is not among the sources.  By the zero-field
    invariance the specification states for the pusher ([E = B = 0] leaves
    [U] unchanged), a momentum at rest stays at rest. *)
Definition pusher_fixes_rest : Prop :=
  UpdateMomentumHigueraCary 0 0 0 0 0 0 0 0 0 q mass dt = (0, 0, 0).

Lemma GatherAndPush_rest (ba : list Box) (period : IntVect) (S : Level)
      (n0 : R) (tEx tEy tEz tBx tBy tBz : IntVect) :
  Interp_preserves_zero -> pusher_fixes_rest ->
  uniform_level S n0 0 0 0 ->
  uniform_level
    (GatherAndPush ba period S (zero_field tEx) (zero_field tEy) (zero_field tEz)
                   (zero_field tBx) (zero_field tBy) (zero_field tBz))
    n0 0 0 0.
Proof.
  intros HI HU HS.
  set (Ez0 := fun (_ : Cell) => 0).
  assert (Hcell : forall p b c,
             at_cell (ParallelFor b
                        (push_cell Ez0 Ez0 Ez0 Ez0 Ez0 Ez0 tEx tEy tEz tBx tBy tBz)
                        (arrays S p)) c
             = (n0, 0, 0, 0)).
  { intros p b c.
    assert (Hat : at_cell (arrays S p) c = (n0, 0, 0, 0)).
    { unfold at_cell. cbn [arrays N_arr NUx_arr NUy_arr NUz_arr].
      destruct (HS p c) as [-> [-> [-> ->]]]. reflexivity. }
    destruct (contains b c) eqn:Hc.
    - rewrite push_patch_in by assumption. rewrite Hat.
      destruct c as [[i j] k]. unfold pushed_cell, pushed. cbn [fst snd].
      unfold Ez0. rewrite !HI.
      replace (0 / n0) with 0 by (unfold Rdiv; ring).
      rewrite HU. cbn [fst snd]. repeat f_equal; ring.
    - rewrite push_patch_out by assumption. exact Hat. }
  intros p c. unfold GatherAndPush, zero_field. cbn [N NU0 NU1 NU2 data ixType].
  fold Ez0.
  assert (Hall : forall p c,
             at_cell (match nth_error ba p with
                      | Some tile_box =>
                          ParallelFor tile_box
                            (push_cell Ez0 Ez0 Ez0 Ez0 Ez0 Ez0 tEx tEy tEz tBx tBy tBz)
                            (arrays S p)
                      | None => arrays S p
                      end) c = (n0, 0, 0, 0)).
  { intros p' c'. destruct (nth_error ba p'); [apply Hcell|].
    unfold at_cell. cbn [arrays N_arr NUx_arr NUy_arr NUz_arr].
    destruct (HS p' c') as [-> [-> [-> ->]]]. reflexivity. }
  repeat split.
  - pose proof (Hall p c) as H. unfold at_cell in H. injection H as H _ _ _. exact H.
  - apply FillBoundary_const. intros p' c'.
    pose proof (Hall p' c') as H. unfold at_cell in H. injection H as _ H _ _. exact H.
  - apply FillBoundary_const. intros p' c'.
    pose proof (Hall p' c') as H. unfold at_cell in H. injection H as _ _ H _. exact H.
  - apply FillBoundary_const. intros p' c'.
    pose proof (Hall p' c') as H. unfold at_cell in H. injection H as _ _ _ H. exact H.
Qed.

End Push.

(** ** Deposition *)

(** The temporary nodal currents of one patch. *)
Record NodalJ : Type := mkNodalJ {
  tmp_jx_fluid_arr : Array4; tmp_jy_fluid_arr : Array4; tmp_jz_fluid_arr : Array4 }.

(** The current arrays of one patch. *)
Record Currents : Type := mkCurrents {
  jx_arr : Array4; jy_arr : Array4; jz_arr : Array4 }.

Section Deposit.

Variables q clight : R.
Variable Interp : Array4 -> IntVect -> IntVect -> IntVect -> Z -> Z -> Z -> R.

(** [amrex::OwnerMask (field, period)]: for a box array, an index type and
    a periodicity, the points of each patch that the patch owns. *)
Variable OwnerMask : list Box -> IntVect -> IntVect -> nat -> Cell -> bool.

Definition inv_clight_sq := 1 / clight / clight.

(** Deposit Rho: the body of the kernel. *)
Definition deposit_rho_cell (owner_mask_rho_arr : Cell -> bool) (N_arr : Array4)
           (c : Cell) (rho_arr : Array4) : Array4 :=
  if owner_mask_rho_arr c then upd cell_eqb rho_arr c (rho_arr c + q * N_arr c)
  else rho_arr.

(** [DepositCharge].  The assertion aborts the run when [rho] is not at
    the same location as [N]. *)
Definition DepositCharge (ba : list Box) (period : IntVect) (S : Level)
           (rho : Field) : option Field :=
  let owner_mask_rho := OwnerMask ba (ixType rho) period in
  if nodeCentered (ixType rho) then
    Some {| data := fun p =>
              match nth_error ba p with
              | None => data rho p
              | Some tile_box =>
                  ParallelFor tile_box (deposit_rho_cell (owner_mask_rho p) (N S p))
                              (data rho p)
              end;
            ixType := ixType rho |}
  else None.

(** Calculate J from fluid quantities: the body of the first kernel of
    [DepositCurrent]. *)
Definition deposit_gamma (m : Moments) (c : Cell) : R :=
  sqrt (N_arr m c * N_arr m c
        + (NUx_arr m c * NUx_arr m c + NUy_arr m c * NUy_arr m c
           + NUz_arr m c * NUz_arr m c) * inv_clight_sq) / N_arr m c.

Definition nodal_current_cell (m : Moments) (c : Cell) (t : NodalJ) : NodalJ :=
  let gamma := deposit_gamma m c in
  {| tmp_jx_fluid_arr := upd cell_eqb (tmp_jx_fluid_arr t) c (q * (NUx_arr m c / gamma));
     tmp_jy_fluid_arr := upd cell_eqb (tmp_jy_fluid_arr t) c (q * (NUy_arr m c / gamma));
     tmp_jz_fluid_arr := upd cell_eqb (tmp_jz_fluid_arr t) c (q * (NUz_arr m c / gamma)) |}.

(** First loop of [DepositCurrent]: j at the nodes.  [tmp] is what the
    freshly allocated temporaries happen to hold. *)
Definition nodal_current (ba : list Box) (S : Level) (tmp : nat -> NodalJ)
  : nat -> NodalJ :=
  fun p =>
    match nth_error ba p with
    | None => tmp p
    | Some tile_box => ParallelFor tile_box (nodal_current_cell (arrays S p)) (tmp p)
    end.

(** Second loop: interpolate the fluid current and deposit it, masking
    double counting; one kernel per component, each over its own box. *)
Definition deposit_current_patch (tile_box_x tile_box_y tile_box_z : Box)
           (j_nodal_type jx_type jy_type jz_type : IntVect)
           (owner_mask_x_arr owner_mask_y_arr owner_mask_z_arr : Cell -> bool)
           (t : NodalJ) (J : Currents) : Currents :=
  {|
        jx_arr :=
          ParallelFor tile_box_x (fun c jx_arr =>
            let '(i, j, k) := c in
            let jx_tmp := Interp (tmp_jx_fluid_arr t) j_nodal_type jx_type
                                  coarsening_ratio i j k in
            if owner_mask_x_arr c then upd cell_eqb jx_arr c (jx_arr c + jx_tmp)
            else jx_arr) (jx_arr J);
        jy_arr :=
          ParallelFor tile_box_y (fun c jy_arr =>
            let '(i, j, k) := c in
            let jy_tmp := Interp (tmp_jy_fluid_arr t) j_nodal_type jy_type
                                  coarsening_ratio i j k in
            if owner_mask_y_arr c then upd cell_eqb jy_arr c (jy_arr c + jy_tmp)
            else jy_arr) (jy_arr J);
        jz_arr :=
          ParallelFor tile_box_z (fun c jz_arr =>
            let '(i, j, k) := c in
            let jz_tmp := Interp (tmp_jz_fluid_arr t) j_nodal_type jz_type
                                  coarsening_ratio i j k in
            if owner_mask_z_arr c then upd cell_eqb jz_arr c (jz_arr c + jz_tmp)
            else jz_arr) (jz_arr J) |}.

Definition DepositCurrent (ba : list Box) (period : IntVect) (S : Level)
           (tmp : nat -> NodalJ) (jx jy jz : Field) : Field * Field * Field :=
  let j_nodal_type := Nodal_type in
  let jx_type := ixType jx in
  let jy_type := ixType jy in
  let jz_type := ixType jz in
  (* We now need to create a mask to fix the double counting. *)
  let owner_mask_x := OwnerMask ba (ixType jx) period in
  let owner_mask_y := OwnerMask ba (ixType jy) period in
  let owner_mask_z := OwnerMask ba (ixType jz) period in
  (* Calculate j at the nodes *)
  let t := nodal_current ba S tmp in
  (* Interpolate j from the nodes to the simulation mesh *)
  let J := fun p =>
    let J0 := {| jx_arr := data jx p; jy_arr := data jy p; jz_arr := data jz p |} in
    match nth_error ba p with
    | None => J0
    | Some validbox =>
        deposit_current_patch
          (convert validbox jx_type) (convert validbox jy_type) (convert validbox jz_type)
          j_nodal_type jx_type jy_type jz_type
          (owner_mask_x p) (owner_mask_y p) (owner_mask_z p) (t p) J0
    end in
  ({| data := fun p => jx_arr (J p); ixType := ixType jx |},
   {| data := fun p => jy_arr (J p); ixType := ixType jy |},
   {| data := fun p => jz_arr (J p); ixType := ixType jz |}).

(** *** What the deposition kernels leave on the mesh *)

Lemma ParallelFor_ext {T : Type} (b : Box) (f g : Cell -> T -> T) (s : T) :
  (forall c s, f c s = g c s) -> ParallelFor b f s = ParallelFor b g s.
Proof.
  intros H. unfold ParallelFor. revert s.
  induction (cells b) as [|c l IH]; intros s; simpl; [reflexivity|].
  rewrite H. apply IH.
Qed.

(** A kernel [if mask(c) then a(c) += v(c)] over a box adds [v] once at
    the points of the box the mask selects, and nothing anywhere else. *)
Lemma masked_add (mask : Cell -> bool) (v : Cell -> R) (b : Box) (a : Array4)
      (c : Cell) :
  ParallelFor b (fun c a => if mask c then upd cell_eqb a c (a c + v c) else a) a c
  = if contains b c && mask c then a c + v c else a c.
Proof.
  pose (h := fun (c : Cell) (x : R) => if mask c then x + v c else x).
  assert (Hstep : forall (s : Array4) (c q' : Cell),
             (if mask c then upd cell_eqb s c (s c + v c) else s) q'
             = if cell_eqb q' c then h c (s c) else s q').
  { intros s c0 q'. unfold h, upd. destruct (mask c0).
    - reflexivity.
    - destruct (cell_eqb_spec q' c0) as [->|]; reflexivity. }
  unfold ParallelFor. destruct (contains b c) eqn:Hc; simpl.
  - rewrite (fold_cellwise_in cell_eqb cell_eqb_spec (fun (a : Array4) c => a c)
               (fun a c => if mask c then upd cell_eqb a c (a c + v c) else a) h Hstep).
    + reflexivity.
    + apply NoDup_cells.
    + apply In_cells. assumption.
  - apply (fold_cellwise_out cell_eqb cell_eqb_spec (fun (a : Array4) c => a c)
             (fun a c => if mask c then upd cell_eqb a c (a c + v c) else a) h Hstep).
    intros H. apply In_cells in H. congruence.
Qed.

Lemma nodal_current_in (b : Box) (m : Moments) (t : NodalJ) (c : Cell) :
  contains b c = true ->
  let t' := ParallelFor b (nodal_current_cell m) t in
  tmp_jx_fluid_arr t' c = q * (NUx_arr m c / deposit_gamma m c) /\
  tmp_jy_fluid_arr t' c = q * (NUy_arr m c / deposit_gamma m c) /\
  tmp_jz_fluid_arr t' c = q * (NUz_arr m c / deposit_gamma m c).
Proof.
  intros Hc t'.
  pose (get := fun (t : NodalJ) (c : Cell) =>
                 (tmp_jx_fluid_arr t c, tmp_jy_fluid_arr t c, tmp_jz_fluid_arr t c)).
  pose (h := fun (c : Cell) (_ : R * R * R) =>
               (q * (NUx_arr m c / deposit_gamma m c),
                q * (NUy_arr m c / deposit_gamma m c),
                q * (NUz_arr m c / deposit_gamma m c))).
  assert (H : get t' c = h c (get t c)).
  { unfold t', ParallelFor.
    apply (fold_cellwise_in cell_eqb cell_eqb_spec get
             (fun t c => nodal_current_cell m c t) h).
    - intros s c0 q'. unfold get, h, nodal_current_cell, upd.
      cbn [tmp_jx_fluid_arr tmp_jy_fluid_arr tmp_jz_fluid_arr].
      destruct (cell_eqb_spec q' c0) as [->|]; reflexivity.
    - apply NoDup_cells.
    - apply In_cells. assumption. }
  unfold get, h in H. injection H as Hx Hy Hz. auto.
Qed.

(** The relativistic factor of the deposition, in the words of the
    specification: [sqrt (N^2 + |NU|^2 / c^2) / N]. *)
Definition gamma_eff (Nv NUxv NUyv NUzv : R) : R :=
  sqrt (Nv^2 + (NUxv^2 + NUyv^2 + NUzv^2) / clight^2) / Nv.

Lemma inv_clight_sq_eq : inv_clight_sq = / (clight * clight).
Proof. unfold inv_clight_sq, Rdiv. rewrite Rinv_mult. ring. Qed.

Lemma deposit_gamma_eff (m : Moments) (c : Cell) :
  deposit_gamma m c = gamma_eff (N_arr m c) (NUx_arr m c) (NUy_arr m c) (NUz_arr m c).
Proof.
  unfold deposit_gamma, gamma_eff. rewrite inv_clight_sq_eq.
  f_equal. f_equal. unfold Rdiv. replace (clight ^ 2) with (clight * clight) by ring.
  ring.
Qed.

Lemma DepositCharge_data (ba : list Box) (period : IntVect) (S : Level)
      (rho : Field) :
  nodeCentered (ixType rho) = true ->
  exists rho',
    DepositCharge ba period S rho = Some rho' /\
    forall p tile_box c,
      nth_error ba p = Some tile_box ->
      data rho' p c
      = if contains tile_box c && OwnerMask ba (ixType rho) period p c
        then data rho p c + q * N S p c
        else data rho p c.
Proof.
  intros Hnodal. unfold DepositCharge. rewrite Hnodal.
  eexists. split; [reflexivity|].
  intros p tile_box c Hp. cbn [data]. rewrite Hp.
  unfold deposit_rho_cell.
  apply (masked_add (OwnerMask ba (ixType rho) period p) (fun c => q * N S p c)).
Qed.

(** C7.  When [rho] is node-centred, [DepositCharge] returns, and at every
    point of every patch the new [rho] is the old one plus [q*N] where the
    point lies in the patch's valid box and the ownership mask is true;
    where the mask is false (or outside the valid box) [rho] is unchanged. *)
Theorem DepositCharge_accumulates (ba : list Box) (period : IntVect) (S : Level)
        (rho : Field) :
  nodeCentered (ixType rho) = true ->
  exists rho',
    DepositCharge ba period S rho = Some rho' /\
    forall p tile_box c,
      nth_error ba p = Some tile_box ->
      data rho' p c
      = if contains tile_box c && OwnerMask ba (ixType rho) period p c
        then data rho p c + q * N S p c
        else data rho p c.
Proof. exact (DepositCharge_data ba period S rho). Qed.

Lemma deposit_component (mask : Cell -> bool) (src : Array4) (sf sc : IntVect)
      (b : Box) (a : Array4) (i j k : Z) :
  ParallelFor b (fun c a =>
                   let '(i, j, k) := c in
                   let j_tmp := Interp src sf sc coarsening_ratio i j k in
                   if mask c then upd cell_eqb a c (a c + j_tmp) else a) a (i,j,k)
  = if contains b (i,j,k) && mask (i,j,k)
    then a (i,j,k) + Interp src sf sc coarsening_ratio i j k
    else a (i,j,k).
Proof.
  rewrite (ParallelFor_ext b _
             (fun c a => if mask c
                         then upd cell_eqb a c
                                (a c + (let '(i, j, k) := c in
                                        Interp src sf sc coarsening_ratio i j k))
                         else a)).
  - apply (masked_add mask
             (fun c => let '(i, j, k) := c in Interp src sf sc coarsening_ratio i j k)).
  - intros [[i' j'] k'] s. reflexivity.
Qed.

(** C4.  On every patch, [DepositCurrent] first stores at each valid node
    the current [q*NU/gamma_eff], [gamma_eff = sqrt (N^2 + |NU|^2/c^2) / N];
    then, at every point, each of [jx], [jy], [jz] is the old value plus
    the nodal current resampled by [Interp] to that component, where the
    point lies in the component's box and the component's ownership mask
    is true, and is the old value everywhere else. *)
Theorem DepositCurrent_masked_accumulate (ba : list Box) (period : IntVect)
        (S : Level) (tmp : nat -> NodalJ) (jx jy jz : Field)
        (p : nat) (validbox : Box) :
  nth_error ba p = Some validbox ->
  let t := nodal_current ba S tmp p in
  let J := DepositCurrent ba period S tmp jx jy jz in
  (forall c, contains validbox c = true ->
     let g := gamma_eff (N S p c) (NU0 S p c) (NU1 S p c) (NU2 S p c) in
     tmp_jx_fluid_arr t c = q * NU0 S p c / g /\
     tmp_jy_fluid_arr t c = q * NU1 S p c / g /\
     tmp_jz_fluid_arr t c = q * NU2 S p c / g) /\
  (forall i j k,
     data (fst (fst J)) p (i,j,k)
     = if contains (convert validbox (ixType jx)) (i,j,k)
          && OwnerMask ba (ixType jx) period p (i,j,k)
       then data jx p (i,j,k)
            + Interp (tmp_jx_fluid_arr t) Nodal_type (ixType jx) coarsening_ratio i j k
       else data jx p (i,j,k)) /\
  (forall i j k,
     data (snd (fst J)) p (i,j,k)
     = if contains (convert validbox (ixType jy)) (i,j,k)
          && OwnerMask ba (ixType jy) period p (i,j,k)
       then data jy p (i,j,k)
            + Interp (tmp_jy_fluid_arr t) Nodal_type (ixType jy) coarsening_ratio i j k
       else data jy p (i,j,k)) /\
  (forall i j k,
     data (snd J) p (i,j,k)
     = if contains (convert validbox (ixType jz)) (i,j,k)
          && OwnerMask ba (ixType jz) period p (i,j,k)
       then data jz p (i,j,k)
            + Interp (tmp_jz_fluid_arr t) Nodal_type (ixType jz) coarsening_ratio i j k
       else data jz p (i,j,k)).
Proof.
  intros Hp t J. split; [|split; [|split]].
  - intros c Hc g. unfold t, nodal_current. rewrite Hp.
    destruct (nodal_current_in validbox (arrays S p) (tmp p) c Hc) as [Hx [Hy Hz]].
    rewrite Hx, Hy, Hz, deposit_gamma_eff. cbn [arrays N_arr NUx_arr NUy_arr NUz_arr].
    fold g. unfold Rdiv. repeat split; ring.
  - intros i j k. unfold J, DepositCurrent. cbn [fst snd data]. rewrite Hp.
    unfold deposit_current_patch. cbn [jx_arr jy_arr jz_arr].
    apply deposit_component.
  - intros i j k. unfold J, DepositCurrent. cbn [fst snd data]. rewrite Hp.
    unfold deposit_current_patch. cbn [jx_arr jy_arr jz_arr].
    apply deposit_component.
  - intros i j k. unfold J, DepositCurrent. cbn [fst snd data]. rewrite Hp.
    unfold deposit_current_patch. cbn [jx_arr jy_arr jz_arr].
    apply deposit_component.
Qed.

Lemma deposit_gamma_kinematic (m : Moments) (i j k : Z) :
  0 < N_arr m (i,j,k) ->
  deposit_gamma m (i,j,k) = gamma (Ux m i j k) (Uy m i j k) (Uz m i j k) clight.
Proof.
  intros Hpos. unfold deposit_gamma, gamma, Ux, Uy, Uz, Ux_sq, Uy_sq, Uz_sq, c_sq.
  rewrite inv_clight_sq_eq.
  set (n := N_arr m (i,j,k)) in *. set (a := NUx_arr m (i,j,k)).
  set (b := NUy_arr m (i,j,k)). set (c := NUz_arr m (i,j,k)).
  unfold Rdiv. set (w := / (clight * clight)).
  replace (n * n + (a * a + b * b + c * c) * w)
    with ((n * n) * (1 + (a * / n * (a * / n) + b * / n * (b * / n)
                           + c * / n * (c * / n)) * w))
    by (field; lra).
  rewrite sqrt_mult_alt by nra. rewrite sqrt_square by lra.
  field. lra.
Qed.

(** C9.  At a node with positive density the factor [gamma] computed in
    [DepositCurrent] equals the kinematic Lorentz factor
    [sqrt (1 + |U|^2/c^2)], [U = NU/N], of the advection kernel, so that the
    nodal current [q*NU/gamma] is [q*N*V] with the advection velocity
    [V = U/gamma]. *)
Theorem deposit_gamma_is_kinematic (m : Moments) (i j k : Z) :
  0 < N_arr m (i,j,k) ->
  deposit_gamma m (i,j,k) = gamma (Ux m i j k) (Uy m i j k) (Uz m i j k) clight /\
  gamma_eff (N_arr m (i,j,k)) (NUx_arr m (i,j,k)) (NUy_arr m (i,j,k)) (NUz_arr m (i,j,k))
  = sqrt (1 + ((Ux m i j k)^2 + (Uy m i j k)^2 + (Uz m i j k)^2) / clight^2) /\
  q * (NUx_arr m (i,j,k) / deposit_gamma m (i,j,k))
  = q * N_arr m (i,j,k) * V_x clight m i j k /\
  q * (NUy_arr m (i,j,k) / deposit_gamma m (i,j,k))
  = q * N_arr m (i,j,k) * V_y clight m i j k /\
  q * (NUz_arr m (i,j,k) / deposit_gamma m (i,j,k))
  = q * N_arr m (i,j,k) * V_z clight m i j k.
Proof.
  intros Hpos. pose proof (deposit_gamma_kinematic m i j k Hpos) as Hg.
  split; [exact Hg|]. split.
  - rewrite <- deposit_gamma_eff, Hg. unfold gamma, Ux_sq, Uy_sq, Uz_sq, c_sq.
    f_equal. f_equal. f_equal; ring.
  - rewrite Hg. unfold V_x, V_y, V_z.
    set (g := gamma _ _ _ _). unfold Ux, Uy, Uz, Rdiv. set (ig := / g).
    repeat split; field; lra.
Qed.

(** *** Patches that overlap *)











End Deposit.

(** ** One step of the fluid *)

Section Evolve.

Variables dt dx0 dx1 dx2 clight q mass : R.
Variable ave : R -> R -> R.
Variable flux : R -> R -> R -> R -> R.
Variable Interp : Array4 -> IntVect -> IntVect -> IntVect -> Z -> Z -> Z -> R.
Variable UpdateMomentumHigueraCary :
  R -> R -> R -> R -> R -> R -> R -> R -> R -> R -> R -> R -> R * R * R.
Variable OwnerMask : list Box -> IntVect -> IntVect -> nat -> Cell -> bool.

(** [Evolve]: the Lorentz term, the advective term, then the deposition of
    J unless it is skipped.  The two [tmp] arguments are the contents of
    the temporaries at allocation. *)
Definition Evolve (ba : list Box) (period : IntVect) (S : Level)
           (tmp_Q : nat -> Edges) (tmp_j : nat -> NodalJ)
           (Ex Ey Ez Bx By Bz : Field) (jx jy jz : Field)
           (skip_deposition : bool) : Level * (Field * Field * Field) :=
  (* Step the Lorentz Term *)
  let S1 := GatherAndPush q mass dt Interp UpdateMomentumHigueraCary
                          ba period S Ex Ey Ez Bx By Bz in
  (* Step the Advective term *)
  let S2 := AdvectivePush_Muscl dt dx0 dx1 dx2 clight ave flux ba period S1 tmp_Q in
  (* Deposit J to the simulation mesh *)
  if negb skip_deposition then
    (S2, DepositCurrent q clight Interp OwnerMask ba period S2 tmp_j jx jy jz)
  else (S2, (jx, jy, jz)).

(** The uniform state at rest: [N = 1], [NU = (0,0,0)] at every point. *)
Definition at_rest : Level :=
  {| N := fun _ _ => 1; NU0 := fun _ _ => 0; NU1 := fun _ _ => 0; NU2 := fun _ _ => 0 |}.

(** C8.  On any layout of nodal patches, with any periodicity, time step
    and speed of light, starting from [N = 1], [NU = 0] everywhere with
    [E = B = 0], one push followed by one advection step leaves [N = 1] and
    [NU = 0] at every point of every patch: the pusher keeps [U = 0], and
    the face fluxes of a uniform state cancel. *)
Theorem Evolve_at_rest (ba : list Box) (period : IntVect)
        (tmp_Q : nat -> Edges) (tmp_j : nat -> NodalJ)
        (tEx tEy tEz tBx tBy tBz : IntVect) (jx jy jz : Field)
        (skip_deposition : bool) :
  Forall (fun b => btype b = TheNodeVector) ba ->
  Interp_preserves_zero Interp ->
  pusher_fixes_rest q mass dt UpdateMomentumHigueraCary ->
  let S' := fst (Evolve ba period at_rest tmp_Q tmp_j
                        (zero_field tEx) (zero_field tEy) (zero_field tEz)
                        (zero_field tBx) (zero_field tBy) (zero_field tBz)
                        jx jy jz skip_deposition) in
  forall p c,
    N S' p c = 1 /\ NU0 S' p c = 0 /\ NU1 S' p c = 0 /\ NU2 S' p c = 0.
Proof.
  intros Hnodal HI HU S'.
  assert (H : uniform_level S' 1 0 0 0).
  { unfold S', Evolve. destruct (negb skip_deposition); cbn [fst];
      apply AdvectivePush_Muscl_uniform; try assumption;
      apply GatherAndPush_rest; try assumption;
      intros p c; cbn [at_rest N NU0 NU1 NU2]; auto. }
  exact H.
Qed.

End Evolve.

(** ** A concrete configuration

    A small periodic box, a striped state, and simple instances of the
    helper functions, on which the statements above are exercised. *)

(** Interpolation between equal index types: the value at the point. *)
Definition sample_nodal (a : Array4) (sf sc cr : IntVect) (i j k : Z) : R :=
  a (i, j, k).

(** A pusher that only applies the electric kick [q*dt/m * E]. *)
Definition electric_kick (ux uy uz Ex Ey Ez Bx By Bz q m dt : R) : R * R * R :=
  (ux + q * dt / m * Ex, uy + q * dt / m * Ey, uz + q * dt / m * Ez).

(** The central two-point flux. *)
Definition central_flux (Q_minus Q_plus V_left V_right : R) : R :=
  (V_left * Q_minus + V_right * Q_plus) / 2.

(** The first patch of the box array owns every point. *)
Definition first_owns (ba : list Box) (ty period : IntVect) (p : nat) (c : Cell)
  : bool := Nat.eqb p 0.

Definition two_cells : IntVect := mkIntVect 2 2 2.
Definition origin : IntVect := mkIntVect 0 0 0.

(** Density and momentum density alternating from point to point, with
    period two in each direction. *)
Definition stripes : Level :=
  {| N := fun _ c => let '(i, j, k) := c in IZR (2 + i mod 2);
     NU0 := fun _ c => let '(i, j, k) := c in IZR (j mod 2);
     NU1 := fun _ c => let '(i, j, k) := c in IZR (k mod 2);
     NU2 := fun _ c => let '(i, j, k) := c in IZR (i mod 2) |}.

Definition zero_edges : nat -> Edges :=
  fun _ => {| Vx := fun _ => 0; Vy := fun _ => 0; Vz := fun _ => 0;
              Q_minus_x := fun _ => 0; Q_plus_x := fun _ => 0;
              Q_minus_y := fun _ => 0; Q_plus_y := fun _ => 0;
              Q_minus_z := fun _ => 0; Q_plus_z := fun _ => 0 |}.

Definition zero_nodal : nat -> NodalJ :=
  fun _ => {| tmp_jx_fluid_arr := fun _ => 0; tmp_jy_fluid_arr := fun _ => 0;
              tmp_jz_fluid_arr := fun _ => 0 |}.

Lemma mod2_period (x : Z) : ((x + 2) mod 2 = x mod 2)%Z.
Proof. replace (x + 2)%Z with (x + 1 * 2)%Z by lia. apply Z_mod_plus_full. Qed.

Lemma stripes_periodic : periodic_moments two_cells (arrays stripes 0%nat).
Proof.
  unfold periodic_moments, periodic, invariant, two_cells.
  cbn [arrays stripes N NU0 NU1 NU2 N_arr NUx_arr NUy_arr NUz_arr iv0 iv1 iv2].
  repeat split; intros i j k; rewrite ?Z.add_0_r, ?mod2_period; reflexivity.
Qed.

Lemma AdvectivePush_Muscl_conserves_mass_witness :
  periodic_moments two_cells (arrays stripes 0%nat) /\
  total (N (AdvectivePush_Muscl 1 1 1 1 1 MusclHancockUtils.ave central_flux
              [domain_box origin two_cells] two_cells stripes zero_edges) 0%nat)
        (owned (domain_box origin two_cells))
  = total (N stripes 0%nat) (owned (domain_box origin two_cells)).
Proof.
  split; [exact stripes_periodic|].
  apply (AdvectivePush_Muscl_conserves_mass 1 1 1 1 1 MusclHancockUtils.ave
           central_flux origin two_cells stripes zero_edges stripes_periodic).
Defined.

Lemma AdvectivePush_Muscl_finite_volume_witness :
  moment (AdvectivePush_Muscl 1 1 1 1 1 MusclHancockUtils.ave central_flux
            [domain_box origin two_cells] two_cells stripes zero_edges)
         1 0%nat (1, 2, 0)%Z
  = finite_volume 1 1 1 1 1 MusclHancockUtils.ave central_flux
      (arrays stripes 0%nat) 1 1 2 0 (moment stripes 1 0%nat (1, 2, 0)%Z).
Proof.
  apply (AdvectivePush_Muscl_finite_volume 1 1 1 1 1 MusclHancockUtils.ave
           central_flux [domain_box origin two_cells] two_cells stripes zero_edges
           0%nat (domain_box origin two_cells) 1 1 2 0).
  - reflexivity.
  - reflexivity.
  - reflexivity.
  - lia.
Defined.

Lemma GatherAndPush_preserves_N_witness :
  N stripes 0%nat (1, 1, 1)%Z <> 0 /\
  bulk_momentum
    (GatherAndPush 1 1 1 sample_nodal electric_kick
       [domain_box origin two_cells] two_cells stripes
       (zero_field TheNodeVector) (zero_field TheNodeVector) (zero_field TheNodeVector)
       (zero_field TheNodeVector) (zero_field TheNodeVector) (zero_field TheNodeVector))
    0%nat (1, 1, 1)%Z
  = electric_kick (1 / 3) (1 / 3) (1 / 3) 0 0 0 0 0 0 1 1 1.
Proof.
  assert (H : N stripes 0%nat (1, 1, 1)%Z <> 0).
  { cbn [stripes N]. change (2 + 1 mod 2)%Z with 3%Z. lra. }
  split; [exact H|].
  exact (proj2 (GatherAndPush_preserves_N 1 1 1 sample_nodal electric_kick
                  [domain_box origin two_cells] two_cells stripes
                  (zero_field TheNodeVector) (zero_field TheNodeVector)
                  (zero_field TheNodeVector) (zero_field TheNodeVector)
                  (zero_field TheNodeVector) (zero_field TheNodeVector))
               0%nat (domain_box origin two_cells) 1%Z 1%Z 1%Z
               eq_refl eq_refl H).
Defined.

Definition nodal_field (v : R) : Field :=
  {| data := fun _ _ => v; ixType := TheNodeVector |}.

(** A field on the Yee location of [jx]: cell-centred in x. *)
Definition yee_x_field (v : R) : Field :=
  {| data := fun _ _ => v; ixType := mkIntVect 0 1 1 |}.

Lemma DepositCharge_accumulates_witness :
  nodeCentered (ixType (nodal_field 5)) = true /\
  exists rho',
    DepositCharge 1 first_owns [domain_box origin two_cells] two_cells stripes
                  (nodal_field 5) = Some rho' /\
    data rho' 0%nat (1, 1, 1)%Z = 5 + 1 * N stripes 0%nat (1, 1, 1)%Z.
Proof.
  split; [reflexivity|].
  destruct (DepositCharge_accumulates 1 first_owns [domain_box origin two_cells]
              two_cells stripes (nodal_field 5) eq_refl) as [rho' [E D]].
  exists rho'. split; [exact E|].
  exact (D 0%nat (domain_box origin two_cells) (1, 1, 1)%Z eq_refl).
Defined.

Lemma DepositCurrent_masked_accumulate_witness :
  data (fst (fst (DepositCurrent 1 1 sample_nodal first_owns
                    [domain_box origin two_cells] two_cells stripes zero_nodal
                    (yee_x_field 1) (nodal_field 2) (nodal_field 3))))
       0%nat (1, 1, 1)%Z
  = 1 + sample_nodal
          (tmp_jx_fluid_arr
             (nodal_current 1 1 [domain_box origin two_cells] stripes zero_nodal 0%nat))
          Nodal_type (mkIntVect 0 1 1) coarsening_ratio 1 1 1.
Proof.
  exact (proj1 (proj2 (DepositCurrent_masked_accumulate 1 1 sample_nodal first_owns
                         [domain_box origin two_cells] two_cells stripes zero_nodal
                         (yee_x_field 1) (nodal_field 2) (nodal_field 3)
                         0%nat (domain_box origin two_cells) eq_refl))
               1%Z 1%Z 1%Z).
Defined.

Lemma deposit_gamma_is_kinematic_witness :
  0 < N_arr (arrays stripes 0%nat) (1, 1, 1)%Z /\
  deposit_gamma 1 (arrays stripes 0%nat) (1, 1, 1)%Z
  = gamma (Ux (arrays stripes 0%nat) 1 1 1) (Uy (arrays stripes 0%nat) 1 1 1)
          (Uz (arrays stripes 0%nat) 1 1 1) 1.
Proof.
  assert (H : 0 < N_arr (arrays stripes 0%nat) (1, 1, 1)%Z).
  { cbn [arrays stripes N N_arr]. change (2 + 1 mod 2)%Z with 3%Z. lra. }
  split; [exact H|].
  exact (proj1 (deposit_gamma_is_kinematic 1 1 (arrays stripes 0%nat) 1 1 1 H)).
Defined.

Lemma Evolve_at_rest_witness :
  let S' := fst (Evolve 1 1 1 1 1 1 1 MusclHancockUtils.ave central_flux
                        sample_nodal electric_kick first_owns
                        [domain_box origin two_cells] two_cells at_rest
                        zero_edges zero_nodal
                        (zero_field TheNodeVector) (zero_field TheNodeVector)
                        (zero_field TheNodeVector) (zero_field TheNodeVector)
                        (zero_field TheNodeVector) (zero_field TheNodeVector)
                        (yee_x_field 0) (nodal_field 0) (nodal_field 0) false) in
  N S' 0%nat (1, 1, 1)%Z = 1 /\ NU0 S' 0%nat (1, 1, 1)%Z = 0 /\
  NU1 S' 0%nat (1, 1, 1)%Z = 0 /\ NU2 S' 0%nat (1, 1, 1)%Z = 0.
Proof.
  apply (Evolve_at_rest 1 1 1 1 1 1 1 MusclHancockUtils.ave central_flux
           sample_nodal electric_kick first_owns
           [domain_box origin two_cells] two_cells zero_edges zero_nodal).
  - repeat constructor.
  - intros sf sc cr i j k. reflexivity.
  - unfold pusher_fixes_rest, electric_kick. repeat f_equal; field.
Defined.




(* ------------------------------------------------------------------ *)
(** * Further properties of the fluid container *)
(* ------------------------------------------------------------------ *)

(** ** Further properties of the advection step *)

Section AdvectionMore.

Variables dt dx0 dx1 dx2 clight : R.
Variable ave : R -> R -> R.
Variable flux : R -> R -> R -> R -> R.

(** X1.  On a periodic domain covered by one nodal patch, for every
    periodic state, one call of [AdvectivePush_Muscl] leaves the total of
    each momentum density [NUx], [NUy], [NUz] over the owned points
    unchanged, as it does the total density. *)
Theorem AdvectivePush_Muscl_conserves_momentum (lo ncell : IntVect) (S : Level)
        (tmp : nat -> Edges) (n : Z) :
  periodic_moments ncell (arrays S 0%nat) ->
  (1 <= n <= 3)%Z ->
  total (moment (AdvectivePush_Muscl dt dx0 dx1 dx2 clight ave flux
                   [domain_box lo ncell] ncell S tmp) n 0%nat)
        (owned (domain_box lo ncell))
  = total (moment S n 0%nat) (owned (domain_box lo ncell)).
Proof.
  intros Hper Hn.
  rewrite (total_ext _
    (fun c => let '(i, j, k) := c in
              finite_volume dt dx0 dx1 dx2 clight ave flux
                            (arrays S 0%nat) n i j k (moment S n 0%nat c))).
  - apply (total_finite_volume dt dx0 dx1 dx2 clight ave flux _ ncell);
      try assumption;
      unfold owned, domain_box, convert, TheNodeVector;
      cbn [smallEnd bigEnd btype iv0 iv1 iv2]; lia.
  - intros i j k Hc.
    apply (AdvectivePush_Muscl_valid dt dx0 dx1 dx2 clight ave flux
             [domain_box lo ncell] ncell S tmp 0%nat
             (domain_box lo ncell) n i j k); try reflexivity; try lia.
    unfold owned in Hc. apply contains_spec in Hc. apply contains_spec.
    unfold domain_box, convert, TheNodeVector in *.
    cbn [smallEnd bigEnd btype iv0 iv1 iv2] in *. lia.
Qed.

Lemma first_some_ext {A B : Type} (f g : A -> option B) (l : list A) :
  (forall x, f x = g x) -> first_some f l = first_some g l.
Proof.
  intros H. induction l as [|x l IH]; simpl; [reflexivity|].
  rewrite H, IH. reflexivity.
Qed.

Lemma FillBoundary_ext (ba : list Box) (period : IntVect) (mf mf' : MultiFab)
      (ng : Z) :
  (forall p c, mf p c = mf' p c) ->
  forall p c, FillBoundary ba period mf ng p c = FillBoundary ba period mf' ng p c.
Proof.
  intros H p c. unfold FillBoundary.
  assert (E : valid_source ba period mf c = valid_source ba period mf' c).
  { unfold valid_source. apply first_some_ext. intros q'.
    destruct (nth_error ba q'); [|reflexivity].
    apply first_some_ext. intros c'. rewrite H. reflexivity. }
  rewrite E, H. reflexivity.
Qed.

(** X2.  On nodal patches the result of [AdvectivePush_Muscl] does not
    depend on what the freshly allocated temporaries hold: every velocity
    and edge state the second kernel reads was written by the first, so
    no uninitialised value reaches the moments, at any point of any
    patch. *)
Theorem AdvectivePush_Muscl_ignores_temporaries (ba : list Box)
        (period : IntVect) (S : Level) (tmp tmp' : nat -> Edges)
        (n : Z) (p : nat) (c : Cell) :
  Forall (fun b => btype b = TheNodeVector) ba ->
  (0 <= n <= 3)%Z ->
  moment (AdvectivePush_Muscl dt dx0 dx1 dx2 clight ave flux ba period S tmp) n p c
  = moment (AdvectivePush_Muscl dt dx0 dx1 dx2 clight ave flux ba period S tmp') n p c.
Proof.
  intros Hnodal Hn. rewrite !moment_AdvectivePush_Muscl by assumption.
  apply FillBoundary_ext. clear p c. intros p c.
  unfold update_patches, predict_patches.
  destruct (nth_error ba p) as [validbox|] eqn:Hp; [|reflexivity].
  assert (Hty : btype validbox = TheNodeVector).
  { rewrite Forall_forall in Hnodal. apply Hnodal. apply (nth_error_In _ _ Hp). }
  destruct (contains validbox c) eqn:Hc.
  - rewrite !update_patch_in by assumption. destruct c as [[i j] k].
    rewrite !cell_update_finite_volume by assumption. reflexivity.
  - rewrite !update_patch_out by assumption. reflexivity.
Qed.

(** X3.  Every uniform state, at rest or in uniform motion, is a fixed
    point of the advection step on nodal patches: the same density and
    momentum density are found at every point of every patch afterwards. *)
Theorem AdvectivePush_Muscl_keeps_uniform (ba : list Box) (period : IntVect)
        (S : Level) (tmp : nat -> Edges) (n0 u0 v0 w0 : R) :
  Forall (fun b => btype b = TheNodeVector) ba ->
  uniform_level S n0 u0 v0 w0 ->
  uniform_level (AdvectivePush_Muscl dt dx0 dx1 dx2 clight ave flux ba period S tmp)
                n0 u0 v0 w0.
Proof.
  exact (AdvectivePush_Muscl_uniform dt dx0 dx1 dx2 clight ave flux
           ba period S tmp n0 u0 v0 w0).
Qed.

End AdvectionMore.

(** X4.  With a zero time step the advection leaves every moment at
    every valid cell of a nodal patch as it was. *)
Theorem AdvectivePush_Muscl_zero_dt (dx0 dx1 dx2 clight : R) (ave : R -> R -> R)
        (flux : R -> R -> R -> R -> R) (ba : list Box) (period : IntVect)
        (S : Level) (tmp : nat -> Edges) (p : nat) (validbox : Box)
        (n : Z) (c : Cell) :
  nth_error ba p = Some validbox ->
  btype validbox = TheNodeVector ->
  contains validbox c = true ->
  (0 <= n <= 3)%Z ->
  moment (AdvectivePush_Muscl 0 dx0 dx1 dx2 clight ave flux ba period S tmp) n p c
  = moment S n p c.
Proof.
  intros Hp Hty Hc Hn. destruct c as [[i j] k].
  rewrite (AdvectivePush_Muscl_valid 0 dx0 dx1 dx2 clight ave flux ba period S tmp
             p validbox n i j k Hp Hty Hc Hn).
  unfold finite_volume, cx, cy, cz, Rdiv. ring.
Qed.

(** ** Consistency of the flux Jacobians *)

Lemma gamma_sq (Ux Uy Uz c : R) :
  c <> 0 ->
  c*c * (gamma Ux Uy Uz c * gamma Ux Uy Uz c) = c*c + Ux*Ux + Uy*Uy + Uz*Uz.
Proof.
  intros Hc. unfold gamma, Ux_sq, Uy_sq, Uz_sq, c_sq.
  rewrite sqrt_sqrt.
  - field. exact Hc.
  - assert (H : 0 < c*c) by nra.
    assert (0 <= (Ux*Ux + Uy*Uy + Uz*Uz)/(c*c)).
    { apply Rmult_le_pos; [nra|]. left. apply Rinv_0_lt_compat. exact H. }
    lra.
Qed.

Lemma gamma_pos (Ux Uy Uz c : R) : c <> 0 -> 0 < gamma Ux Uy Uz c.
Proof.
  intros Hc. pose proof (gamma_sq Ux Uy Uz c Hc) as H.
  assert (H0 : 0 <= gamma Ux Uy Uz c) by (unfold gamma; apply sqrt_pos).
  assert (0 < c*c) by nra.
  destruct H0 as [H0|H0]; [exact H0|]. rewrite <- H0 in H. nra.
Qed.

Ltac euler Hc :=
  unfold A00x, A01x, A02x, A03x, A10x, A11x, A12x, A13x,
         A20x, A21x, A22x, A23x, A30x, A31x, A32x, A33x,
         A00y, A01y, A02y, A03y, A10y, A11y, A12y, A13y,
         A20y, A21y, A22y, A23y, A30y, A31y, A32y, A33y,
         A00z, A01z, A02z, A03z, A10z, A11z, A12z, A13z,
         A20z, A21z, A22z, A23z, A30z, A31z, A32z, A33z,
         a, gamma_cubed, Ux_cubed, Uy_cubed, Uz_cubed, Ux_sq, Uy_sq, Uz_sq, c_sq;
  match goal with
  | |- context [gamma ?x ?y ?z ?c] =>
      let Hg := fresh "Hg" in
      let Hp := fresh "Hp" in
      let g := fresh "g" in
      pose proof (gamma_sq x y z c Hc) as Hg;
      pose proof (gamma_pos x y z c Hc) as Hp;
      set (g := gamma x y z c) in *;
      assert (0 < c*c + x*x + y*y + z*z) by nra;
      assert (Ha : c*c*(g*g*g) = (c*c + x*x + y*y + z*z)*g) by (rewrite <- Hg; ring);
      assert (Hg3 : g*g*g = (c*c + x*x + y*y + z*z)*g/(c*c))
        by (rewrite <- Hg; field; exact Hc);
      rewrite ?Ha, ?Hg3; clearbody g; field; repeat split; lra
  end.

(** The flux Jacobian of one axis, applied to a vector. *)
Definition apply_row (A0 A1 A2 A3 : R -> R -> R -> R -> R)
           (Ux Uy Uz clight : R) (q0 q1 q2 q3 : R) : R :=
  A0 Ux Uy Uz clight * q0 + A1 Ux Uy Uz clight * q1
  + A2 Ux Uy Uz clight * q2 + A3 Ux Uy Uz clight * q3.

(** X5.  The forty-eight entries are consistent with the flux they
    linearise.  The flux of the conserved vector [Q = (N, NUx, NUy, NUz)]
    along an axis is [Q] times the velocity [U/gamma] on that axis, which is
    homogeneous of degree one in [Q]; accordingly each Jacobian, applied to
    [Q] itself (here per unit density, [(1, Ux, Uy, Uz)]), returns that
    flux, for every momentum and every non-zero speed of light. *)
Theorem Jacobian_times_state_is_flux (Ux Uy Uz clight : R) :
  clight <> 0 ->
  let V d := d / gamma Ux Uy Uz clight in
  (apply_row A00x A01x A02x A03x Ux Uy Uz clight 1 Ux Uy Uz = 1 * V Ux /\
   apply_row A10x A11x A12x A13x Ux Uy Uz clight 1 Ux Uy Uz = Ux * V Ux /\
   apply_row A20x A21x A22x A23x Ux Uy Uz clight 1 Ux Uy Uz = Uy * V Ux /\
   apply_row A30x A31x A32x A33x Ux Uy Uz clight 1 Ux Uy Uz = Uz * V Ux) /\
  (apply_row A00y A01y A02y A03y Ux Uy Uz clight 1 Ux Uy Uz = 1 * V Uy /\
   apply_row A10y A11y A12y A13y Ux Uy Uz clight 1 Ux Uy Uz = Ux * V Uy /\
   apply_row A20y A21y A22y A23y Ux Uy Uz clight 1 Ux Uy Uz = Uy * V Uy /\
   apply_row A30y A31y A32y A33y Ux Uy Uz clight 1 Ux Uy Uz = Uz * V Uy) /\
  (apply_row A00z A01z A02z A03z Ux Uy Uz clight 1 Ux Uy Uz = 1 * V Uz /\
   apply_row A10z A11z A12z A13z Ux Uy Uz clight 1 Ux Uy Uz = Ux * V Uz /\
   apply_row A20z A21z A22z A23z Ux Uy Uz clight 1 Ux Uy Uz = Uy * V Uz /\
   apply_row A30z A31z A32z A33z Ux Uy Uz clight 1 Ux Uy Uz = Uz * V Uz).
Proof.
  intros Hc V. unfold V, apply_row.
  repeat split; euler Hc.
Qed.

Lemma Jacobian_times_state_is_flux_witness :
  1 <> 0 /\
  apply_row A10x A11x A12x A13x 2 3 4 1 1 2 3 4 = 2 * (2 / gamma 2 3 4 1).
Proof.
  assert (H : 1 <> 0) by lra. split; [exact H|].
  exact (proj1 (proj2 (proj1 (Jacobian_times_state_is_flux 2 3 4 1 H)))).
Defined.

(** ** The stencil of the advection step *)

Section Stencil.

Variables dt dx0 dx1 dx2 clight : R.
Variable ave : R -> R -> R.
Variable flux : R -> R -> R -> R -> R.

(** Two patch states hold the same four moments at a point. *)
Definition agree (m m' : Moments) (c : Cell) : Prop :=
  N_arr m c = N_arr m' c /\ NUx_arr m c = NUx_arr m' c /\
  NUy_arr m c = NUy_arr m' c /\ NUz_arr m c = NUz_arr m' c.

(** They do so at every point no further than [r] from [(i,j,k)] along
    each direction. *)
Definition agree_near (r : Z) (m m' : Moments) (i j k : Z) : Prop :=
  forall a b c,
    (i - r <= a <= i + r)%Z -> (j - r <= b <= j + r)%Z -> (k - r <= c <= k + r)%Z ->
    agree m m' (a, b, c).

Variables m m' : Moments.

Ltac reads H a b c :=
  let E := fresh "E" in
  assert (E : agree m m' (a, b, c)) by (apply H; lia);
  destruct E as [? [? [? ?]]].

Lemma U_agree i j k :
  agree m m' (i, j, k) ->
  Ux m i j k = Ux m' i j k /\ Uy m i j k = Uy m' i j k /\ Uz m i j k = Uz m' i j k.
Proof. intros [H0 [H1 [H2 H3]]]. unfold Ux, Uy, Uz. rewrite H0, H1, H2, H3. auto. Qed.

Lemma dQ_agree i j k n :
  agree_near 1 m m' i j k ->
  dQx ave m i j k n = dQx ave m' i j k n /\
  dQy ave m i j k n = dQy ave m' i j k n /\
  dQz ave m i j k n = dQz ave m' i j k n.
Proof.
  intros H.
  reads H i j k. reads H (i-1)%Z j k. reads H (i+1)%Z j k.
  reads H i (j-1)%Z k. reads H i (j+1)%Z k.
  reads H i j (k-1)%Z. reads H i j (k+1)%Z.
  unfold dQx, dQy, dQz, dQ0x, dQ1x, dQ2x, dQ3x, dQ0y, dQ1y, dQ2y, dQ3y,
    dQ0z, dQ1z, dQ2z, dQ3z.
  repeat split; destruct n as [|[[?|?|]|[?|?|]|]|]; congruence.
Qed.

Lemma Q_tilde_agree i j k n :
  agree_near 1 m m' i j k ->
  Q_tilde dt dx0 dx1 dx2 clight ave m i j k n
  = Q_tilde dt dx0 dx1 dx2 clight ave m' i j k n.
Proof.
  intros H.
  pose proof (fun n => proj1 (dQ_agree i j k n H)) as Hx.
  pose proof (fun n => proj1 (proj2 (dQ_agree i j k n H))) as Hy.
  pose proof (fun n => proj2 (proj2 (dQ_agree i j k n H))) as Hz.
  pose proof (Hx 0%Z) as Hx0; pose proof (Hx 1%Z) as Hx1;
    pose proof (Hx 2%Z) as Hx2; pose proof (Hx 3%Z) as Hx3.
  pose proof (Hy 0%Z) as Hy0; pose proof (Hy 1%Z) as Hy1;
    pose proof (Hy 2%Z) as Hy2; pose proof (Hy 3%Z) as Hy3.
  pose proof (Hz 0%Z) as Hz0; pose proof (Hz 1%Z) as Hz1;
    pose proof (Hz 2%Z) as Hz2; pose proof (Hz 3%Z) as Hz3.
  cbn [dQx dQy dQz] in *.
  assert (E : agree m m' (i, j, k)) by (apply H; lia).
  destruct (U_agree i j k E) as [Eu [Ev Ew]].
  destruct E as [E0 [E1 [E2 E3]]].
  unfold Q_tilde, Q_tilde0, Q_tilde1, Q_tilde2, Q_tilde3,
    AdQ0x, AdQ1x, AdQ2x, AdQ3x, AdQ0y, AdQ1y, AdQ2y, AdQ3y,
    AdQ0z, AdQ1z, AdQ2z, AdQ3z.
  rewrite Hx0, Hx1, Hx2, Hx3, Hy0, Hy1, Hy2, Hy3, Hz0, Hz1, Hz2, Hz3.
  rewrite Eu, Ev, Ew, E0, E1, E2, E3. reflexivity.
Qed.

Lemma V_agree i j k :
  agree m m' (i, j, k) ->
  V_x clight m i j k = V_x clight m' i j k /\
  V_y clight m i j k = V_y clight m' i j k /\
  V_z clight m i j k = V_z clight m' i j k.
Proof.
  intros E. destruct (U_agree i j k E) as [Eu [Ev Ew]].
  unfold V_x, V_y, V_z. rewrite Eu, Ev, Ew. auto.
Qed.

Lemma agree_near_inside (r : Z) i j k a b c :
  agree_near (r + 1) m m' i j k ->
  (i - 1 <= a <= i + 1)%Z -> (j - 1 <= b <= j + 1)%Z -> (k - 1 <= c <= k + 1)%Z ->
  (0 <= r)%Z ->
  agree_near r m m' a b c.
Proof. intros H Ha Hb Hc Hr a' b' c' Ha' Hb' Hc'. apply H; lia. Qed.

Lemma face_flux_agree n i j k :
  agree_near 1 m m' i j k ->
  (agree_near 1 m m' (i+1) j k ->
   face_flux_x dt dx0 dx1 dx2 clight ave flux m n i j k
   = face_flux_x dt dx0 dx1 dx2 clight ave flux m' n i j k) /\
  (agree_near 1 m m' i (j+1) k ->
   face_flux_y dt dx0 dx1 dx2 clight ave flux m n i j k
   = face_flux_y dt dx0 dx1 dx2 clight ave flux m' n i j k) /\
  (agree_near 1 m m' i j (k+1) ->
   face_flux_z dt dx0 dx1 dx2 clight ave flux m n i j k
   = face_flux_z dt dx0 dx1 dx2 clight ave flux m' n i j k).
Proof.
  intros H.
  assert (E : agree m m' (i, j, k)) by (apply H; lia).
  destruct (V_agree i j k E) as [Vx0 [Vy0 Vz0]].
  destruct (dQ_agree i j k n H) as [Dx [Dy Dz]].
  pose proof (Q_tilde_agree i j k n H) as Q0.
  unfold face_flux_x, face_flux_y, face_flux_z, edge_minus, edge_plus.
  rewrite Vx0, Vy0, Vz0, Dx, Dy, Dz, Q0.
  split; [|split]; intros H'.
  - assert (E' : agree m m' ((i+1)%Z, j, k)) by (apply H'; lia).
    destruct (V_agree _ _ _ E') as [-> _].
    destruct (dQ_agree _ _ _ n H') as [-> _].
    rewrite (Q_tilde_agree _ _ _ n H'). reflexivity.
  - assert (E' : agree m m' (i, (j+1)%Z, k)) by (apply H'; lia).
    destruct (V_agree _ _ _ E') as [_ [-> _]].
    destruct (dQ_agree _ _ _ n H') as [_ [-> _]].
    rewrite (Q_tilde_agree _ _ _ n H'). reflexivity.
  - assert (E' : agree m m' (i, j, (k+1)%Z)) by (apply H'; lia).
    destruct (V_agree _ _ _ E') as [_ [_ ->]].
    destruct (dQ_agree _ _ _ n H') as [_ [_ ->]].
    rewrite (Q_tilde_agree _ _ _ n H'). reflexivity.
Qed.

(** The finite-volume formula at a cell reads the state no further than
    two points away. *)
Lemma finite_volume_agree n i j k Q :
  agree_near 2 m m' i j k ->
  finite_volume dt dx0 dx1 dx2 clight ave flux m n i j k Q
  = finite_volume dt dx0 dx1 dx2 clight ave flux m' n i j k Q.
Proof.
  intros H.
  assert (Hin : forall a b c,
             (i - 1 <= a <= i + 1)%Z -> (j - 1 <= b <= j + 1)%Z ->
             (k - 1 <= c <= k + 1)%Z -> agree_near 1 m m' a b c).
  { intros a b c Ha Hb Hc. apply (agree_near_inside 1 i j k); try assumption; lia. }
  unfold finite_volume.
  destruct (face_flux_agree n i j k (Hin i j k ltac:(lia) ltac:(lia) ltac:(lia)))
    as [Fx [Fy Fz]].
  rewrite Fx by (apply Hin; lia). rewrite Fy by (apply Hin; lia).
  rewrite Fz by (apply Hin; lia).
  destruct (face_flux_agree n (i-1) j k (Hin (i-1)%Z j k ltac:(lia) ltac:(lia) ltac:(lia)))
    as [Fx' _].
  destruct (face_flux_agree n i (j-1) k (Hin i (j-1)%Z k ltac:(lia) ltac:(lia) ltac:(lia)))
    as [_ [Fy' _]].
  destruct (face_flux_agree n i j (k-1) (Hin i j (k-1)%Z ltac:(lia) ltac:(lia) ltac:(lia)))
    as [_ [_ Fz']].
  rewrite Fx' by (replace (i - 1 + 1)%Z with i by lia; apply Hin; lia).
  rewrite Fy' by (replace (j - 1 + 1)%Z with j by lia; apply Hin; lia).
  rewrite Fz' by (replace (k - 1 + 1)%Z with k by lia; apply Hin; lia).
  reflexivity.
Qed.

End Stencil.

(** X6.  The two guard layers the level is allocated with are all the
    advection step reads: the new value of every moment at a valid cell
    of a nodal patch is the same for any two states that hold the same
    moments on the patch's valid box grown by [nGrow = 2], whatever they
    hold further out and whatever the temporaries held. *)
Theorem AdvectivePush_Muscl_reads_two_guards (dt dx0 dx1 dx2 clight : R)
        (ave : R -> R -> R) (flux : R -> R -> R -> R -> R)
        (ba : list Box) (period : IntVect) (S S' : Level)
        (tmp tmp' : nat -> Edges) (p : nat) (validbox : Box) (n i j k : Z) :
  nth_error ba p = Some validbox ->
  btype validbox = TheNodeVector ->
  contains validbox (i,j,k) = true ->
  (0 <= n <= 3)%Z ->
  (forall c, contains (grow validbox nGrow) c = true ->
             agree (arrays S p) (arrays S' p) c) ->
  moment (AdvectivePush_Muscl dt dx0 dx1 dx2 clight ave flux ba period S tmp)
         n p (i,j,k)
  = moment (AdvectivePush_Muscl dt dx0 dx1 dx2 clight ave flux ba period S' tmp')
           n p (i,j,k).
Proof.
  intros Hp Hty Hc Hn Hag.
  rewrite !(AdvectivePush_Muscl_valid dt dx0 dx1 dx2 clight ave flux ba period _ _
              p validbox n i j k Hp Hty Hc Hn).
  assert (Hnear : agree_near 2 (arrays S p) (arrays S' p) i j k).
  { intros a b c Ha Hb Hc'. apply Hag. apply contains_spec in Hc.
    apply contains_spec. unfold grow, nGrow.
    cbn [smallEnd bigEnd iv0 iv1 iv2]. lia. }
  rewrite (finite_volume_agree dt dx0 dx1 dx2 clight ave flux _ _ n i j k _ Hnear).
  f_equal. rewrite <- !moment_arrays.
  assert (E : agree (arrays S p) (arrays S' p) (i, j, k)) by (apply Hnear; lia).
  destruct E as [E0 [E1 [E2 E3]]].
  assert (n = 0 \/ n = 1 \/ n = 2 \/ n = 3)%Z as [-> | [-> | [-> | ->]]] by lia;
    assumption.
Qed.

(** ** Further properties of the charge deposition *)

(** On every patch, in or out of the box array, what [DepositCharge]
    returns. *)
Lemma DepositCharge_all (q : R)
      (OwnerMask : list Box -> IntVect -> IntVect -> nat -> Cell -> bool)
      (ba : list Box) (period : IntVect) (S : Level) (rho rho' : Field) :
  DepositCharge q OwnerMask ba period S rho = Some rho' ->
  nodeCentered (ixType rho) = true /\
  ixType rho' = ixType rho /\
  forall p c,
    data rho' p c
    = match nth_error ba p with
      | Some tile_box =>
          if contains tile_box c && OwnerMask ba (ixType rho) period p c
          then data rho p c + q * N S p c
          else data rho p c
      | None => data rho p c
      end.
Proof.
  unfold DepositCharge. destruct (nodeCentered (ixType rho)); [|discriminate].
  intros H. injection H as <-. split; [reflexivity|]. split; [reflexivity|].
  intros p c. cbn [data]. destruct (nth_error ba p) as [tile_box|]; [|reflexivity].
  unfold deposit_rho_cell.
  apply (masked_add (OwnerMask ba (ixType rho) period p) (fun c => q * N S p c)).
Qed.

(** X8.  The charge a patch deposits is its owned density times the
    charge: summed over the valid box of a patch, [rho] grows by [q]
    times the sum of [N] over the points of the box the ownership mask
    selects. *)
Theorem DepositCharge_total (q : R)
        (OwnerMask : list Box -> IntVect -> IntVect -> nat -> Cell -> bool)
        (ba : list Box) (period : IntVect) (S : Level) (rho rho' : Field)
        (p : nat) (tile_box : Box) :
  DepositCharge q OwnerMask ba period S rho = Some rho' ->
  nth_error ba p = Some tile_box ->
  total (data rho' p) tile_box
  = total (data rho p) tile_box
    + q * total (fun c => if OwnerMask ba (ixType rho) period p c
                          then N S p c else 0) tile_box.
Proof.
  intros H Hp. destruct (DepositCharge_all _ _ _ _ _ _ _ H) as [_ [_ D]].
  rewrite <- total_scal, <- total_plus. apply total_ext. intros i j k Hc.
  rewrite D, Hp, Hc. cbn [andb].
  destruct (OwnerMask ba (ixType rho) period p (i, j, k)); ring.
Qed.


(** ** Further properties of the current deposition *)



(** ** Reading the switches of a species *)

Import String.StringSyntax.
Delimit Scope string_scope with string.

(** The three switches [ReadParameters] reads into a container. *)
Record Switches : Set := mkSwitches {
  do_not_deposit : bool; do_not_gather : bool; do_not_push : bool }.

Section Parameters.

(** [ParmParse pp (prefix); pp.query (name, ref)]: what [ref] holds after
    the query, from what it held before; for whatever the input file
    holds. *)
Variable query : String.string -> String.string -> bool -> bool.

(** [ReadParameters].  The function-local [static bool initialized] is
    one variable for all containers of the run: it is passed in, and
    returned with the switches of the container. *)
Definition ReadParameters (species_name : String.string) (initialized : bool)
           (c : Switches) : bool * Switches :=
  if negb initialized then
    let pp_species_name := query species_name in
    (true,
     {| do_not_deposit := pp_species_name "do_not_deposit"%string (do_not_deposit c);
        do_not_gather := pp_species_name "do_not_gather"%string (do_not_gather c);
        do_not_push := pp_species_name "do_not_push"%string (do_not_push c) |})
  else (initialized, c).

(** X11.  The switches are read for one species only.  Once
    [ReadParameters] has run for any container, the call made for every
    later container, of whatever species, queries nothing and leaves the
    switches of that container as they were, whatever the input holds
    for it. *)
Theorem ReadParameters_reads_one_species (name1 name2 : String.string)
        (initialized : bool) (c1 c2 : Switches) :
  ReadParameters name2 (fst (ReadParameters name1 initialized c1)) c2 = (true, c2).
Proof. destruct initialized; reflexivity. Qed.

End Parameters.

(** ** The initial state *)

(** [amrex::XDim3]. *)
Module XDim3.
Record t : Set := mk { x : R; y : R; z : R }.
End XDim3.

Section Init.

(** The lower corner of the domain, the cell sizes and the speed of
    light. *)
Variables problo0 problo1 problo2 dx0 dx1 dx2 clight : R.

(** [inj_rho->getDensity] and [inj_mom->getBulkMomentum], whatever the
    injectors of the species are. *)
Variable getDensity : R -> R -> R -> R.
Variable getBulkMomentum : R -> R -> R -> XDim3.t.

(** The position of node [(i,j,k)]. *)
Definition position (c : Cell) : R * R * R :=
  let '(i, j, k) := c in
  (problo0 + IZR i * dx0, problo1 + IZR j * dx1, problo2 + IZR k * dx2).

(** The body of the kernel of [InitData] at cell [(i,j,k)]. *)
Definition init_cell (c : Cell) (m : Moments) : Moments :=
  let '(i, j, k) := c in
  let x := problo0 + IZR i * dx0 in
  let y := problo1 + IZR j * dx1 in
  let z := problo2 + IZR k * dx2 in
  let n := getDensity x y z in
  let u := getBulkMomentum x y z in
  {| N_arr := upd cell_eqb (N_arr m) (i,j,k) n;
     NUx_arr := upd cell_eqb (NUx_arr m) (i,j,k) (n * XDim3.x u * clight);
     NUy_arr := upd cell_eqb (NUy_arr m) (i,j,k) (n * XDim3.y u * clight);
     NUz_arr := upd cell_eqb (NUz_arr m) (i,j,k) (n * XDim3.z u * clight) |}.

Definition InitData (ba : list Box) (period : IntVect) (S : Level) : Level :=
  (* Loop through cells and initialize their value *)
  let S' := fun p =>
    match nth_error ba p with
    | None => arrays S p
    | Some tile_box => ParallelFor tile_box init_cell (arrays S p)
    end in
  (* Fill guard cells *)
  {| N := FillBoundary ba period (fun p => N_arr (S' p)) nGrow;
     NU0 := FillBoundary ba period (fun p => NUx_arr (S' p)) nGrow;
     NU1 := FillBoundary ba period (fun p => NUy_arr (S' p)) nGrow;
     NU2 := FillBoundary ba period (fun p => NUz_arr (S' p)) nGrow |}.

(** The density and the normalised momentum of the injectors at a node. *)
Definition injected_density (c : Cell) : R :=
  let '(x, y, z) := position c in getDensity x y z.

Definition injected_momentum (c : Cell) : XDim3.t :=
  let '(x, y, z) := position c in getBulkMomentum x y z.

Lemma init_cell_get (m : Moments) (c q' : Cell) :
  at_cell (init_cell c m) q'
  = if cell_eqb q' c
    then (injected_density c,
          injected_density c * XDim3.x (injected_momentum c) * clight,
          injected_density c * XDim3.y (injected_momentum c) * clight,
          injected_density c * XDim3.z (injected_momentum c) * clight)
    else at_cell m q'.
Proof.
  destruct c as [[i j] k].
  unfold at_cell, init_cell, injected_density, injected_momentum, position, upd.
  cbn [N_arr NUx_arr NUy_arr NUz_arr].
  destruct (cell_eqb_spec q' (i,j,k)) as [->|]; reflexivity.
Qed.

Lemma InitData_at_cell (ba : list Box) (period : IntVect) (S : Level)
      (p : nat) (tile_box : Box) (c : Cell) :
  nth_error ba p = Some tile_box ->
  contains tile_box c = true ->
  at_cell (arrays (InitData ba period S) p) c
  = (injected_density c,
     injected_density c * XDim3.x (injected_momentum c) * clight,
     injected_density c * XDim3.y (injected_momentum c) * clight,
     injected_density c * XDim3.z (injected_momentum c) * clight).
Proof.
  intros Hp Hc. unfold at_cell, InitData.
  cbn [arrays N NU0 NU1 NU2 N_arr NUx_arr NUy_arr NUz_arr].
  rewrite !(FillBoundary_valid _ _ _ _ _ _ _ Hp Hc). cbv beta. rewrite Hp.
  pose (h := fun (c : Cell) (_ : R * R * R * R) =>
               (injected_density c,
                injected_density c * XDim3.x (injected_momentum c) * clight,
                injected_density c * XDim3.y (injected_momentum c) * clight,
                injected_density c * XDim3.z (injected_momentum c) * clight)).
  change (at_cell (ParallelFor tile_box init_cell (arrays S p)) c
          = h c (at_cell (arrays S p) c)).
  unfold ParallelFor.
  apply (fold_cellwise_in cell_eqb cell_eqb_spec at_cell
           (fun m c => init_cell c m) h).
  - intros s c0 q'. apply init_cell_get.
  - apply NoDup_cells.
  - apply In_cells. assumption.
Qed.

Lemma InitData_valid (ba : list Box) (period : IntVect) (S : Level)
      (p : nat) (tile_box : Box) (c : Cell) :
  nth_error ba p = Some tile_box ->
  contains tile_box c = true ->
  N (InitData ba period S) p c = injected_density c /\
  NU0 (InitData ba period S) p c
  = injected_density c * XDim3.x (injected_momentum c) * clight /\
  NU1 (InitData ba period S) p c
  = injected_density c * XDim3.y (injected_momentum c) * clight /\
  NU2 (InitData ba period S) p c
  = injected_density c * XDim3.z (injected_momentum c) * clight.
Proof.
  intros Hp Hc. pose proof (InitData_at_cell ba period S p tile_box c Hp Hc) as H.
  unfold at_cell in H. injection H as H0 H1 H2 H3.
  repeat split; assumption.
Qed.

(** X12.  Whatever the level held before, after [InitData] every valid
    node of every patch holds the density of the injector at the
    position [problo + index * dx] of the node, and that density times
    the normalised momentum of the injector times the speed of light. *)
Theorem InitData_sets_moments (ba : list Box) (period : IntVect) (S : Level)
        (p : nat) (tile_box : Box) (i j k : Z) :
  nth_error ba p = Some tile_box ->
  contains tile_box (i,j,k) = true ->
  let S' := InitData ba period S in
  let xx := problo0 + IZR i * dx0 in
  let yy := problo1 + IZR j * dx1 in
  let zz := problo2 + IZR k * dx2 in
  N S' p (i,j,k) = getDensity xx yy zz /\
  NU0 S' p (i,j,k) = getDensity xx yy zz * XDim3.x (getBulkMomentum xx yy zz) * clight /\
  NU1 S' p (i,j,k) = getDensity xx yy zz * XDim3.y (getBulkMomentum xx yy zz) * clight /\
  NU2 S' p (i,j,k) = getDensity xx yy zz * XDim3.z (getBulkMomentum xx yy zz) * clight.
Proof.
  intros Hp Hc S' xx yy zz.
  exact (InitData_valid ba period S p tile_box (i,j,k) Hp Hc).
Qed.


End Init.

(** ** The further properties on the concrete configuration *)

(** Temporaries holding ones instead of zeros. *)
Definition unit_edges : nat -> Edges :=
  fun _ => {| Vx := fun _ => 1; Vy := fun _ => 1; Vz := fun _ => 1;
              Q_minus_x := fun _ => 1; Q_plus_x := fun _ => 1;
              Q_minus_y := fun _ => 1; Q_plus_y := fun _ => 1;
              Q_minus_z := fun _ => 1; Q_plus_z := fun _ => 1 |}.


(** A uniform state drifting along x. *)
Definition drifting : Level :=
  {| N := fun _ _ => 2; NU0 := fun _ _ => 1; NU1 := fun _ _ => 0; NU2 := fun _ _ => 0 |}.

Lemma AdvectivePush_Muscl_conserves_momentum_witness :
  periodic_moments two_cells (arrays stripes 0%nat) /\
  (1 <= 1 <= 3)%Z /\
  total (moment (AdvectivePush_Muscl 1 1 1 1 1 MusclHancockUtils.ave central_flux
                   [domain_box origin two_cells] two_cells stripes zero_edges)
                1 0%nat)
        (owned (domain_box origin two_cells))
  = total (moment stripes 1 0%nat) (owned (domain_box origin two_cells)).
Proof.
  assert (H : (1 <= 1 <= 3)%Z) by lia.
  split; [exact stripes_periodic|]. split; [exact H|].
  exact (AdvectivePush_Muscl_conserves_momentum 1 1 1 1 1 MusclHancockUtils.ave
           central_flux origin two_cells stripes zero_edges 1 stripes_periodic H).
Defined.

Lemma AdvectivePush_Muscl_ignores_temporaries_witness :
  Forall (fun b => btype b = TheNodeVector) [domain_box origin two_cells] /\
  (0 <= 2 <= 3)%Z /\
  moment (AdvectivePush_Muscl 1 1 1 1 1 MusclHancockUtils.ave central_flux
            [domain_box origin two_cells] two_cells stripes zero_edges)
         2 0%nat (1, 2, 0)%Z
  = moment (AdvectivePush_Muscl 1 1 1 1 1 MusclHancockUtils.ave central_flux
              [domain_box origin two_cells] two_cells stripes unit_edges)
           2 0%nat (1, 2, 0)%Z.
Proof.
  assert (Hnodal : Forall (fun b => btype b = TheNodeVector)
                          [domain_box origin two_cells]) by (repeat constructor).
  assert (H : (0 <= 2 <= 3)%Z) by lia.
  split; [exact Hnodal|]. split; [exact H|].
  exact (AdvectivePush_Muscl_ignores_temporaries 1 1 1 1 1 MusclHancockUtils.ave
           central_flux [domain_box origin two_cells] two_cells stripes
           zero_edges unit_edges 2 0%nat (1, 2, 0)%Z Hnodal H).
Defined.

Lemma AdvectivePush_Muscl_zero_dt_witness :
  moment (AdvectivePush_Muscl 0 1 1 1 1 MusclHancockUtils.ave central_flux
            [domain_box origin two_cells] two_cells stripes zero_edges)
         1 0%nat (1, 2, 0)%Z
  = moment stripes 1 0%nat (1, 2, 0)%Z.
Proof.
  apply (AdvectivePush_Muscl_zero_dt 1 1 1 1 MusclHancockUtils.ave central_flux
           [domain_box origin two_cells] two_cells stripes zero_edges
           0%nat (domain_box origin two_cells) 1 (1, 2, 0)%Z).
  - reflexivity.
  - reflexivity.
  - reflexivity.
  - lia.
Defined.

Lemma AdvectivePush_Muscl_keeps_uniform_witness :
  uniform_level drifting 2 1 0 0 /\
  uniform_level (AdvectivePush_Muscl 1 1 1 1 1 MusclHancockUtils.ave central_flux
                   [domain_box origin two_cells] two_cells drifting zero_edges)
                2 1 0 0.
Proof.
  assert (H : uniform_level drifting 2 1 0 0).
  { intros p c. cbn [drifting N NU0 NU1 NU2]. auto. }
  split; [exact H|].
  apply (AdvectivePush_Muscl_keeps_uniform 1 1 1 1 1 MusclHancockUtils.ave
           central_flux [domain_box origin two_cells] two_cells drifting zero_edges
           2 1 0 0).
  - repeat constructor.
  - exact H.
Defined.

(** The striped state, emptied beyond ten points from the origin. *)
Definition stripes_near : Level :=
  let near (c : Cell) : bool :=
    let '(i, j, k) := c in
    (Z.abs i <=? 10)%Z && (Z.abs j <=? 10)%Z && (Z.abs k <=? 10)%Z in
  {| N := fun p c => if near c then N stripes p c else 0;
     NU0 := fun p c => if near c then NU0 stripes p c else 0;
     NU1 := fun p c => if near c then NU1 stripes p c else 0;
     NU2 := fun p c => if near c then NU2 stripes p c else 0 |}.

Lemma stripes_near_agree (c : Cell) :
  contains (grow (domain_box origin two_cells) nGrow) c = true ->
  agree (arrays stripes 0%nat) (arrays stripes_near 0%nat) c.
Proof.
  destruct c as [[i j] k]. intros H. apply contains_spec in H.
  unfold grow, domain_box, origin, two_cells, nGrow in H.
  cbn [smallEnd bigEnd iv0 iv1 iv2] in H.
  unfold agree, stripes_near.
  cbn [arrays N NU0 NU1 NU2 N_arr NUx_arr NUy_arr NUz_arr].
  replace ((Z.abs i <=? 10)%Z && (Z.abs j <=? 10)%Z && (Z.abs k <=? 10)%Z) with true.
  - auto.
  - symmetry. rewrite !andb_true_iff. repeat split; apply Z.leb_le; lia.
Qed.

Lemma AdvectivePush_Muscl_reads_two_guards_witness :
  moment (AdvectivePush_Muscl 1 1 1 1 1 MusclHancockUtils.ave central_flux
            [domain_box origin two_cells] two_cells stripes zero_edges)
         1 0%nat (1, 2, 0)%Z
  = moment (AdvectivePush_Muscl 1 1 1 1 1 MusclHancockUtils.ave central_flux
              [domain_box origin two_cells] two_cells stripes_near unit_edges)
           1 0%nat (1, 2, 0)%Z.
Proof.
  apply (AdvectivePush_Muscl_reads_two_guards 1 1 1 1 1 MusclHancockUtils.ave
           central_flux [domain_box origin two_cells] two_cells stripes stripes_near
           zero_edges unit_edges 0%nat (domain_box origin two_cells) 1 1 2 0).
  - reflexivity.
  - reflexivity.
  - reflexivity.
  - lia.
  - exact stripes_near_agree.
Defined.

Lemma DepositCharge_total_witness :
  exists rho',
    DepositCharge 1 first_owns [domain_box origin two_cells] two_cells stripes
                  (nodal_field 5) = Some rho' /\
    total (data rho' 0%nat) (domain_box origin two_cells)
    = total (data (nodal_field 5) 0%nat) (domain_box origin two_cells)
      + 1 * total (fun c => if first_owns [domain_box origin two_cells]
                                          (ixType (nodal_field 5)) two_cells 0%nat c
                            then N stripes 0%nat c else 0)
                  (domain_box origin two_cells).
Proof.
  eexists. split; [reflexivity|].
  apply (DepositCharge_total 1 first_owns [domain_box origin two_cells] two_cells
           stripes (nodal_field 5) _ 0%nat (domain_box origin two_cells)).
  - reflexivity.
  - reflexivity.
Defined.



(** A density growing along x and a momentum turning with the position. *)
Definition ramp_density (x y z : R) : R := 1 + x.
Definition turning_momentum (x y z : R) : XDim3.t := XDim3.mk y z x.

Lemma InitData_sets_moments_witness :
  let S' := InitData 0 0 0 1 1 1 1 ramp_density turning_momentum
                     [domain_box origin two_cells] two_cells at_rest in
  let xx := 0 + IZR 1 * 1 in
  let yy := 0 + IZR 2 * 1 in
  let zz := 0 + IZR 0 * 1 in
  N S' 0%nat (1, 2, 0)%Z = ramp_density xx yy zz /\
  NU0 S' 0%nat (1, 2, 0)%Z
  = ramp_density xx yy zz * XDim3.x (turning_momentum xx yy zz) * 1 /\
  NU1 S' 0%nat (1, 2, 0)%Z
  = ramp_density xx yy zz * XDim3.y (turning_momentum xx yy zz) * 1 /\
  NU2 S' 0%nat (1, 2, 0)%Z
  = ramp_density xx yy zz * XDim3.z (turning_momentum xx yy zz) * 1.
Proof.
  apply (InitData_sets_moments 0 0 0 1 1 1 1 ramp_density turning_momentum
           [domain_box origin two_cells] two_cells at_rest
           0%nat (domain_box origin two_cells) 1 2 0).
  - reflexivity.
  - reflexivity.
Defined.


(** ** Mass conservation on a decomposed periodic domain *)

(** The sum of a list of reals. *)
Definition sum_list (l : list R) : R := fold_right Rplus 0 l.

(** The points a layout owns: in every patch, the points of the valid box
    that the mask of the patch selects. *)
Definition owned_points (ba : list Box) (mask : nat -> Cell -> bool)
  : list (nat * Cell) :=
  flat_map (fun p =>
              match nth_error ba p with
              | Some b => map (pair p) (filter (mask p) (cells b))
              | None => []
              end) (seq 0 (length ba)).

(** The total of a field over the owned points of its patches. *)
Definition owned_total (ba : list Box) (mask : nat -> Cell -> bool)
           (mf : MultiFab) : R :=
  sum_list (map (fun pc => mf (fst pc) (snd pc)) (owned_points ba mask)).

(** The image of a point inside the periodic domain that starts at [lo]
    and repeats every [ncell] points. *)
Definition wrap (lo ncell : IntVect) (c : Cell) : Cell :=
  let '(i, j, k) := c in
  (iv0 lo + (i - iv0 lo) mod iv0 ncell,
   iv1 lo + (j - iv1 lo) mod iv1 ncell,
   iv2 lo + (k - iv2 lo) mod iv2 ncell)%Z.

(** The mask selects every point of the periodic domain exactly once: the
    owned points of the patches, taken modulo the period, are the cells of
    the domain. *)
Definition owns_domain (lo ncell : IntVect) (ba : list Box)
           (mask : nat -> Cell -> bool) : Prop :=
  Permutation (map (fun pc => wrap lo ncell (snd pc)) (owned_points ba mask))
              (cells (owned (domain_box lo ncell))).

(** The patches hold, on their valid box and their guard layers, the
    values of the one mesh function [G], as the guard-cell exchange at the
    end of every step leaves them. *)
Definition guards_filled (ba : list Box) (S : Level) (G : Moments) : Prop :=
  forall p b c,
    nth_error ba p = Some b -> contains (grow b nGrow) c = true ->
    agree (arrays S p) G c.

Lemma sum_list_app (l l' : list R) :
  sum_list (l ++ l') = sum_list l + sum_list l'.
Proof. induction l as [|x l IH]; simpl; [lra|]. rewrite IH. lra. Qed.

Lemma sum_list_Permutation {A : Type} (f : A -> R) (l l' : list A) :
  Permutation l l' -> sum_list (map f l) = sum_list (map f l').
Proof. intros H. induction H; simpl; lra. Qed.

Lemma sum_list_ext {A : Type} (f g : A -> R) (l : list A) :
  (forall x, In x l -> f x = g x) -> sum_list (map f l) = sum_list (map g l).
Proof. intros H. rewrite (map_ext_in f g l H). reflexivity. Qed.

Lemma sum_list_zrange (h : Z -> R) (lo hi : Z) :
  sum_list (map h (zrange lo hi)) = sum_from lo (Z.to_nat (hi - lo + 1)) h.
Proof.
  unfold zrange.
  assert (G : forall n s,
             sum_list (map h (map (fun n => (lo + Z.of_nat n)%Z) (seq s n)))
             = sum_from (lo + Z.of_nat s) n h).
  { induction n as [|n IH]; intros s; [reflexivity|].
    cbn [seq map sum_list fold_right sum_from]. fold (sum_list).
    change (fold_right Rplus 0) with sum_list.
    rewrite IH. do 2 f_equal. lia. }
  rewrite G. f_equal. simpl. lia.
Qed.

Lemma sum_list_flat_map {A B : Type} (f : B -> R) (g : A -> list B) (l : list A) :
  sum_list (map f (flat_map g l)) = sum_list (map (fun x => sum_list (map f (g x))) l).
Proof.
  induction l as [|x l IH]; [reflexivity|].
  cbn [flat_map map]. rewrite map_app, sum_list_app, IH. reflexivity.
Qed.

(** The sum over the points of a box, as a list and as a loop nest. *)
Lemma sum_list_cells (f : Cell -> R) (b : Box) :
  sum_list (map f (cells b)) = total f b.
Proof.
  unfold cells, total.
  rewrite sum_list_flat_map, <- sum_list_zrange. apply sum_list_ext. intros k _.
  rewrite sum_list_flat_map, <- sum_list_zrange. apply sum_list_ext. intros j _.
  rewrite map_map, <- sum_list_zrange. reflexivity.
Qed.

Lemma owned_points_In (ba : list Box) (mask : nat -> Cell -> bool)
      (p : nat) (c : Cell) :
  In (p, c) (owned_points ba mask) ->
  exists b, nth_error ba p = Some b /\ contains b c = true.
Proof.
  unfold owned_points. intros H. apply in_flat_map in H.
  destruct H as [p' [_ H]].
  destruct (nth_error ba p') as [b|] eqn:Hp; [|contradiction].
  apply in_map_iff in H. destruct H as [c' [E H]]. injection E as -> ->.
  apply filter_In in H. destruct H as [H _]. apply In_cells in H.
  exists b. auto.
Qed.

(** A function that repeats with a period takes the same value at a point
    and at its image inside the domain. *)
Lemma shift_multiple (h : Z -> R) (n : Z) :
  (forall i, h (i + n)%Z = h i) -> forall t i, h (i + n * t)%Z = h i.
Proof.
  intros H.
  assert (Hpos : forall (t : nat) i, h (i + n * Z.of_nat t)%Z = h i).
  { induction t as [|t IH]; intros i.
    - f_equal. lia.
    - replace (i + n * Z.of_nat (Datatypes.S t))%Z with (i + n * Z.of_nat t + n)%Z by lia.
      rewrite H. apply IH. }
  intros t i. destruct (Z_le_gt_dec 0 t) as [Ht|Ht].
  - rewrite <- (Z2Nat.id t Ht). apply Hpos.
  - rewrite <- (Hpos (Z.to_nat (- t)) (i + n * t)%Z). f_equal. lia.
Qed.

Lemma mod_shift (x n : Z) : exists t, (x mod n = x + n * t)%Z.
Proof.
  destruct (Z.eq_dec n 0) as [->|Hn].
  - exists 0%Z. rewrite Z.mod_0_r. lia.
  - exists (- (x / n))%Z. rewrite (Z.mod_eq x n Hn). lia.
Qed.

Lemma periodic_multiple (ncell : IntVect) (f : Cell -> R) (i j k t0 t1 t2 : Z) :
  periodic ncell f ->
  f (i + iv0 ncell * t0, j + iv1 ncell * t1, k + iv2 ncell * t2)%Z = f (i, j, k).
Proof.
  intros [Hx [Hy Hz]]. unfold invariant in *. cbn [iv0 iv1 iv2] in *.
  rewrite (shift_multiple
             (fun a => f (a, (j + iv1 ncell * t1)%Z, (k + iv2 ncell * t2)%Z))
             (iv0 ncell)).
  2:{ intros a. pose proof (Hx a (j + iv1 ncell * t1)%Z (k + iv2 ncell * t2)%Z) as E.
      rewrite !Z.add_0_r in E. exact E. }
  rewrite (shift_multiple (fun a => f (i, a, (k + iv2 ncell * t2)%Z)) (iv1 ncell)).
  2:{ intros a. pose proof (Hy i a (k + iv2 ncell * t2)%Z) as E.
      rewrite !Z.add_0_r in E. exact E. }
  rewrite (shift_multiple (fun a => f (i, j, a)) (iv2 ncell)).
  2:{ intros a. pose proof (Hz i j a) as E. rewrite !Z.add_0_r in E. exact E. }
  reflexivity.
Qed.

Lemma periodic_wrap (lo ncell : IntVect) (f : Cell -> R) (c : Cell) :
  periodic ncell f -> f (wrap lo ncell c) = f c.
Proof.
  intros Hper. destruct c as [[i j] k]. unfold wrap.
  destruct (mod_shift (i - iv0 lo) (iv0 ncell)) as [t0 ->].
  destruct (mod_shift (j - iv1 lo) (iv1 ncell)) as [t1 ->].
  destruct (mod_shift (k - iv2 lo) (iv2 ncell)) as [t2 ->].
  replace (iv0 lo + (i - iv0 lo + iv0 ncell * t0))%Z with (i + iv0 ncell * t0)%Z by lia.
  replace (iv1 lo + (j - iv1 lo + iv1 ncell * t1))%Z with (j + iv1 ncell * t1)%Z by lia.
  replace (iv2 lo + (k - iv2 lo + iv2 ncell * t2))%Z with (k + iv2 ncell * t2)%Z by lia.
  apply periodic_multiple. exact Hper.
Qed.

Lemma shifts1_multiple (p s : Z) : In s (shifts1 p) -> exists t, (s = p * t)%Z.
Proof.
  unfold shifts1. intros [<- | [<- | [<- | []]]];
    [exists 0%Z | exists 1%Z | exists (-1)%Z]; lia.
Qed.

(** A periodic function takes the same value at a point and at each of
    the images the guard-cell exchange looks at. *)
Lemma periodic_images (ncell : IntVect) (f : Cell -> R) (c c' : Cell) :
  periodic ncell f -> In c' (images ncell c) -> f c' = f c.
Proof.
  intros Hper. destruct c as [[i j] k]. unfold images. intros H.
  apply in_flat_map in H. destruct H as [sk [Hk H]].
  apply in_flat_map in H. destruct H as [sj [Hj H]].
  apply in_map_iff in H. destruct H as [si [<- Hi]].
  destruct (shifts1_multiple _ _ Hi) as [t0 ->].
  destruct (shifts1_multiple _ _ Hj) as [t1 ->].
  destruct (shifts1_multiple _ _ Hk) as [t2 ->].
  apply periodic_multiple. exact Hper.
Qed.

Lemma first_some_None {A B : Type} (f : A -> option B) (l : list A) :
  first_some f l = None -> forall x, In x l -> f x = None.
Proof.
  induction l as [|x l IH]; simpl; [contradiction|].
  destruct (f x) as [y|] eqn:E; [discriminate|].
  intros H x' [<- | Hin]; [exact E|]. apply IH; assumption.
Qed.

(** Over the owned points of a layout that owns the domain, a periodic
    function sums to its total over the cells of the domain. *)
Lemma owned_total_periodic (lo ncell : IntVect) (ba : list Box)
      (mask : nat -> Cell -> bool) (f : Cell -> R) :
  owns_domain lo ncell ba mask -> periodic ncell f ->
  sum_list (map (fun pc => f (snd pc)) (owned_points ba mask))
  = total f (owned (domain_box lo ncell)).
Proof.
  intros Hown Hper.
  rewrite <- sum_list_cells.
  rewrite <- (sum_list_Permutation f _ _ Hown). rewrite map_map.
  apply sum_list_ext. intros pc _. symmetry. apply periodic_wrap. exact Hper.
Qed.

Section Decomposed.

Variables dt dx0 dx1 dx2 clight : R.
Variable ave : R -> R -> R.
Variable flux : R -> R -> R -> R -> R.

(** The finite-volume formula is unchanged by a translation that leaves
    the state unchanged. *)
Lemma finite_volume_shift (m : Moments) (s : IntVect) (n i j k : Z) (Q : R) :
  invariant s (N_arr m) -> invariant s (NUx_arr m) ->
  invariant s (NUy_arr m) -> invariant s (NUz_arr m) ->
  finite_volume dt dx0 dx1 dx2 clight ave flux m n
                (i + iv0 s) (j + iv1 s) (k + iv2 s) Q
  = finite_volume dt dx0 dx1 dx2 clight ave flux m n i j k Q.
Proof.
  intros H0 H1 H2 H3. unfold finite_volume.
  replace (i + iv0 s - 1)%Z with (i - 1 + iv0 s)%Z by lia.
  replace (j + iv1 s - 1)%Z with (j - 1 + iv1 s)%Z by lia.
  replace (k + iv2 s - 1)%Z with (k - 1 + iv2 s)%Z by lia.
  rewrite !(face_flux_x_shift dt dx0 dx1 dx2 clight ave flux m s H0 H1 H2 H3).
  rewrite !(face_flux_y_shift dt dx0 dx1 dx2 clight ave flux m s H0 H1 H2 H3).
  rewrite !(face_flux_z_shift dt dx0 dx1 dx2 clight ave flux m s H0 H1 H2 H3).
  reflexivity.
Qed.

(** The moments the finite-volume formula gives from the mesh function
    [G], at every point. *)
Definition advected_moment (G : Moments) (n : Z) (c : Cell) : R :=
  let '(i, j, k) := c in
  finite_volume dt dx0 dx1 dx2 clight ave flux G n i j k (moment_arr G n (i, j, k)).

Definition advected (G : Moments) : Moments :=
  {| N_arr := advected_moment G 0; NUx_arr := advected_moment G 1;
     NUy_arr := advected_moment G 2; NUz_arr := advected_moment G 3 |}.

Lemma moment_arr_periodic (ncell : IntVect) (G : Moments) (n : Z) :
  periodic_moments ncell G -> periodic ncell (moment_arr G n).
Proof.
  intros [H0 [H1 [H2 H3]]]. destruct n as [|[[?|?|]|[?|?|]|]|]; assumption.
Qed.

Lemma advected_moment_periodic (ncell : IntVect) (G : Moments) (n : Z) :
  periodic_moments ncell G -> periodic ncell (advected_moment G n).
Proof.
  intros Hper. destruct (moment_arr_periodic ncell G n Hper) as [Hnx [Hny Hnz]].
  destruct Hper as
    [[H0x [H0y H0z]] [[H1x [H1y H1z]] [[H2x [H2y H2z]] [H3x [H3y H3z]]]]].
  unfold periodic, advected_moment.
  split; [|split]; intros i j k.
  - rewrite (finite_volume_shift G _ n i j k _ H0x H1x H2x H3x). f_equal. apply Hnx.
  - rewrite (finite_volume_shift G _ n i j k _ H0y H1y H2y H3y). f_equal. apply Hny.
  - rewrite (finite_volume_shift G _ n i j k _ H0z H1z H2z H3z). f_equal. apply Hnz.
Qed.

Lemma advected_periodic (ncell : IntVect) (G : Moments) :
  periodic_moments ncell G -> periodic_moments ncell (advected G).
Proof.
  intros H. unfold periodic_moments, advected. cbn [N_arr NUx_arr NUy_arr NUz_arr].
  repeat split; apply advected_moment_periodic; exact H.
Qed.

Lemma agree_moment (m m' : Moments) (n : Z) (c : Cell) :
  agree m m' c -> moment_arr m n c = moment_arr m' n c.
Proof.
  intros [H0 [H1 [H2 H3]]]. destruct n as [|[[?|?|]|[?|?|]|]|]; assumption.
Qed.

(** At the valid cells of a nodal patch whose guards are filled, the old
    moments are those of the mesh function and the new ones are the
    finite-volume formula on the mesh function. *)
Lemma AdvectivePush_Muscl_on_mesh (ba : list Box) (period : IntVect) (S : Level)
      (tmp : nat -> Edges) (G : Moments) (p : nat) (b : Box) (n : Z) (c : Cell) :
  Forall (fun b => btype b = TheNodeVector) ba ->
  guards_filled ba S G ->
  nth_error ba p = Some b -> contains b c = true -> (0 <= n <= 3)%Z ->
  moment (AdvectivePush_Muscl dt dx0 dx1 dx2 clight ave flux ba period S tmp) n p c
  = advected_moment G n c /\
  moment S n p c = moment_arr G n c.
Proof.
  intros Hnodal HG Hp Hc Hn. destruct c as [[i j] k].
  assert (Hty : btype b = TheNodeVector).
  { rewrite Forall_forall in Hnodal. apply Hnodal. apply (nth_error_In _ _ Hp). }
  assert (Hnear : agree_near 2 (arrays S p) G i j k).
  { intros a' b' c' Ha Hb Hc'. apply (HG p b); [exact Hp|].
    apply contains_spec in Hc. apply contains_spec. unfold grow, nGrow.
    cbn [smallEnd bigEnd iv0 iv1 iv2]. lia. }
  assert (E : moment S n p (i, j, k) = moment_arr G n (i, j, k)).
  { rewrite <- moment_arrays. apply agree_moment. apply Hnear; lia. }
  split; [|exact E].
  rewrite (AdvectivePush_Muscl_valid dt dx0 dx1 dx2 clight ave flux ba period S tmp
             p b n i j k Hp Hty Hc Hn).
  rewrite (finite_volume_agree dt dx0 dx1 dx2 clight ave flux _ _ n i j k _ Hnear).
  unfold advected_moment. rewrite E. reflexivity.
Qed.

(** Every guard point of every patch has a periodic image among the
    valid points of some patch. *)
Definition guards_covered (period : IntVect) (ba : list Box) : Prop :=
  forall p b c,
    nth_error ba p = Some b -> contains (grow b nGrow) c = true ->
    exists q b' c',
      nth_error ba q = Some b' /\ In c' (images period c) /\ contains b' c' = true.

(** The guard-cell exchange that ends the step fills the guards again:
    after the call the patches hold the advected mesh function, which is
    periodic in its turn, so that the step can be taken again. *)
Lemma AdvectivePush_Muscl_fills_guards (ncell : IntVect) (ba : list Box)
      (S : Level) (tmp : nat -> Edges) (G : Moments) :
  Forall (fun b => btype b = TheNodeVector) ba ->
  periodic_moments ncell G ->
  guards_filled ba S G ->
  guards_covered ncell ba ->
  guards_filled ba
    (AdvectivePush_Muscl dt dx0 dx1 dx2 clight ave flux ba ncell S tmp)
    (advected G).
Proof.
  intros Hnodal Hper HG Hcov.
  set (S' := AdvectivePush_Muscl dt dx0 dx1 dx2 clight ave flux ba ncell S tmp).
  assert (Hn : forall n p b c,
             (0 <= n <= 3)%Z -> nth_error ba p = Some b ->
             contains (grow b nGrow) c = true ->
             moment S' n p c = advected_moment G n c).
  { intros n p b c Hn Hp Hc.
    destruct (contains b c) eqn:Hv.
    { apply (AdvectivePush_Muscl_on_mesh ba ncell S tmp G p b n c); assumption. }
    assert (Hmf : forall q b' c',
               nth_error ba q = Some b' -> contains b' c' = true ->
               moment_arr (update_patches dt dx0 dx1 dx2 flux ba
                             (predict_patches dt dx0 dx1 dx2 clight ave ba S tmp) S q)
                          n c'
               = advected_moment G n c').
    { intros q b' c' Hq Hc'.
      destruct (AdvectivePush_Muscl_on_mesh ba ncell S tmp G q b' n c'
                  Hnodal HG Hq Hc' Hn) as [E _].
      rewrite moment_AdvectivePush_Muscl in E by assumption.
      rewrite (FillBoundary_valid _ _ _ _ _ _ _ Hq Hc') in E. exact E. }
    unfold S'. rewrite moment_AdvectivePush_Muscl by assumption.
    unfold FillBoundary. rewrite Hp, Hv, Hc.
    destruct (valid_source _ _ _ c) as [v|] eqn:E.
    - unfold valid_source in E. apply first_some_In in E. destruct E as [q [_ E]].
      destruct (nth_error ba q) as [b'|] eqn:Hq; [|discriminate].
      apply first_some_In in E. destruct E as [c' [Hin E]].
      destruct (contains b' c') eqn:Hc'; [|discriminate].
      injection E as <-. rewrite (Hmf q b' c' Hq Hc').
      apply (periodic_images ncell); [|exact Hin].
      apply advected_moment_periodic. exact Hper.
    - exfalso. destruct (Hcov p b c Hp Hc) as [q [b' [c' [Hq [Hin Hc']]]]].
      unfold valid_source in E.
      assert (Hseq : In q (seq 0 (length ba))).
      { apply in_seq. split; [lia|]. simpl. apply nth_error_Some. congruence. }
      pose proof (first_some_None _ _ E q Hseq) as Eq. cbv beta in Eq.
      rewrite Hq in Eq.
      pose proof (first_some_None _ _ Eq c' Hin) as Ec. cbv beta in Ec.
      rewrite Hc' in Ec. discriminate. }
  intros p b c Hp Hc. unfold agree, advected.
  cbn [arrays N_arr NUx_arr NUy_arr NUz_arr].
  repeat split.
  - apply (Hn 0%Z p b c); [lia|assumption..].
  - apply (Hn 1%Z p b c); [lia|assumption..].
  - apply (Hn 2%Z p b c); [lia|assumption..].
  - apply (Hn 3%Z p b c); [lia|assumption..].
Qed.

(** C1.  On a periodic domain of [ncell] cells per direction decomposed
    into any number of nodal patches, for every periodic mesh function [G]
    of the four moments that the patches hold on their valid boxes and
    guard layers, and every mask that selects each point of the domain
    exactly once among the valid points of the patches, one call of
    [AdvectivePush_Muscl] leaves the total density, summed over the owned
    points of all patches, unchanged: each face flux is subtracted from
    one cell and added to its neighbour, across patch boundaries and
    around the period alike. *)
Theorem AdvectivePush_Muscl_conserves_total_mass (lo ncell : IntVect)
        (ba : list Box) (mask : nat -> Cell -> bool) (S : Level)
        (tmp : nat -> Edges) (G : Moments) :
  Forall (fun b => btype b = TheNodeVector) ba ->
  owns_domain lo ncell ba mask ->
  periodic_moments ncell G ->
  guards_filled ba S G ->
  owned_total ba mask
    (N (AdvectivePush_Muscl dt dx0 dx1 dx2 clight ave flux ba ncell S tmp))
  = owned_total ba mask (N S).
Proof.
  intros Hnodal Hown Hper HG. unfold owned_total.
  rewrite (sum_list_ext _ (fun pc => advected_moment G 0 (snd pc))).
  2:{ intros [p c] Hin. destruct (owned_points_In _ _ _ _ Hin) as [b [Hp Hc]].
      apply (AdvectivePush_Muscl_on_mesh ba ncell S tmp G p b 0 c);
        try assumption; lia. }
  rewrite (sum_list_ext (fun pc => N S (fst pc) (snd pc))
                        (fun pc => N_arr G (snd pc))).
  2:{ intros [p c] Hin. destruct (owned_points_In _ _ _ _ Hin) as [b [Hp Hc]].
      apply (AdvectivePush_Muscl_on_mesh ba ncell S tmp G p b 0 c);
        try assumption; lia. }
  rewrite (owned_total_periodic lo ncell ba mask _ Hown
             (advected_moment_periodic ncell G 0 Hper)).
  rewrite (owned_total_periodic lo ncell ba mask _ Hown (proj1 Hper)).
  apply (total_finite_volume dt dx0 dx1 dx2 clight ave flux _ ncell G 0 (N_arr G) Hper);
    unfold owned, domain_box, convert, TheNodeVector;
    cbn [smallEnd bigEnd btype iv0 iv1 iv2]; lia.
Qed.

End Decomposed.

(** Two patches splitting the domain of two cells per direction along z,
    sharing the nodes of the plane [k = 1]; each owns its lower slab. *)
Definition lower_slab : Box := domain_box origin (mkIntVect 2 2 1).
Definition upper_slab : Box := domain_box (mkIntVect 0 0 1) (mkIntVect 2 2 1).

Definition slab_owner (p : nat) (c : Cell) : bool :=
  let '(i, j, k) := c in
  ((k =? Z.of_nat p) && (i <? 2) && (j <? 2))%Z.

Lemma slabs_own_domain :
  owns_domain origin two_cells [lower_slab; upper_slab] slab_owner.
Proof. unfold owns_domain. vm_compute. apply Permutation_refl. Qed.

Lemma stripes_guards_filled :
  guards_filled [lower_slab; upper_slab] stripes (arrays stripes 0%nat).
Proof. intros p b c _ _. repeat split. Qed.

(** One of the three shifts the exchange looks at brings a point within
    two points of the range [0, 2] back into it. *)
Lemma shift_into_range (x : Z) :
  (-2 <= x <= 4)%Z -> exists s, In s (shifts1 2) /\ (0 <= x + s <= 2)%Z.
Proof.
  intros H. unfold shifts1.
  destruct (Z_lt_le_dec x 0); [exists 2%Z; simpl; split; [auto|lia]|].
  destruct (Z_lt_le_dec 2 x); [exists (-2)%Z; simpl; split; [auto|lia]|].
  exists 0%Z. simpl. split; [auto|lia].
Qed.

Lemma slabs_guards_covered : guards_covered two_cells [lower_slab; upper_slab].
Proof.
  intros p b [[i j] k] Hp Hc.
  assert (Hr : (-2 <= i <= 4 /\ -2 <= j <= 4 /\ -2 <= k <= 4)%Z).
  { destruct p as [|[|p]]; cbn [nth_error] in Hp;
      [injection Hp as <- | injection Hp as <- | destruct p; discriminate];
      apply contains_spec in Hc;
      unfold grow, lower_slab, upper_slab, domain_box, origin, nGrow in Hc;
      cbn [smallEnd bigEnd iv0 iv1 iv2] in Hc; lia. }
  destruct Hr as [Hi [Hj Hk]].
  destruct (shift_into_range i Hi) as [si [Hsi Bi]].
  destruct (shift_into_range j Hj) as [sj [Hsj Bj]].
  destruct (shift_into_range k Hk) as [sk [Hsk Bk]].
  assert (Hin : In (i + si, j + sj, k + sk)%Z (images two_cells (i, j, k))).
  { unfold images, two_cells. cbn [iv0 iv1 iv2].
    apply in_flat_map. exists sk. split; [exact Hsk|].
    apply in_flat_map. exists sj. split; [exact Hsj|].
    apply in_map_iff. exists si. split; [reflexivity|exact Hsi]. }
  destruct (Z_le_gt_dec (k + sk) 1).
  - exists 0%nat, lower_slab, (i + si, j + sj, k + sk)%Z.
    split; [reflexivity|]. split; [exact Hin|].
    apply contains_spec. unfold lower_slab, domain_box, origin.
    cbn [smallEnd bigEnd iv0 iv1 iv2]. lia.
  - exists 1%nat, upper_slab, (i + si, j + sj, k + sk)%Z.
    split; [reflexivity|]. split; [exact Hin|].
    apply contains_spec. unfold upper_slab, domain_box.
    cbn [smallEnd bigEnd iv0 iv1 iv2]. lia.
Qed.

Lemma AdvectivePush_Muscl_conserves_total_mass_witness :
  Forall (fun b => btype b = TheNodeVector) [lower_slab; upper_slab] /\
  owns_domain origin two_cells [lower_slab; upper_slab] slab_owner /\
  periodic_moments two_cells (arrays stripes 0%nat) /\
  guards_filled [lower_slab; upper_slab] stripes (arrays stripes 0%nat) /\
  owned_total [lower_slab; upper_slab] slab_owner
    (N (AdvectivePush_Muscl 1 1 1 1 1 MusclHancockUtils.ave central_flux
          [lower_slab; upper_slab] two_cells stripes zero_edges))
  = owned_total [lower_slab; upper_slab] slab_owner (N stripes).
Proof.
  assert (Hnodal : Forall (fun b => btype b = TheNodeVector) [lower_slab; upper_slab])
    by (repeat constructor).
  split; [exact Hnodal|]. split; [exact slabs_own_domain|].
  split; [exact stripes_periodic|]. split; [exact stripes_guards_filled|].
  exact (AdvectivePush_Muscl_conserves_total_mass 1 1 1 1 1 MusclHancockUtils.ave
           central_flux origin two_cells [lower_slab; upper_slab] slab_owner stripes
           zero_edges (arrays stripes 0%nat) Hnodal slabs_own_domain stripes_periodic
           stripes_guards_filled).
Defined.

End Fluid.

(* ================================================================== *)
(** * Sorting an index array by key: the [HeapSort] functor *)
(* ================================================================== *)

Module HeapSort.

Local Open Scope Z_scope.

(** ** Machine integers and arrays *)

(** The range of the 32-bit [int]. *)
Definition INT_MIN : Z := - 2 ^ 31.
Definition INT_MAX : Z := 2 ^ 31 - 1.

(** The value of an [int] expression; signed overflow is undefined
    behaviour and yields no value. *)
Definition int (z : Z) : option Z :=
  if (INT_MIN <=? z) && (z <=? INT_MAX) then Some z else None.

Definition bind {A B : Type} (x : option A) (f : A -> option B) : option B :=
  match x with
  | Some a => f a
  | None => None
  end.

Notation "x <- e ;; k" := (bind e (fun x => k))
  (at level 61, e at next level, right associativity).

(** The element [i] of a list, when there is one. *)
Definition get (a : list Z) (i : Z) : Z := nth (Z.to_nat i) a 0.

Fixpoint set_nth (a : list Z) (i : nat) (v : Z) : list Z :=
  match a, i with
  | [], _ => []
  | _ :: t, O => v :: t
  | h :: t, S i' => h :: set_nth t i' v
  end.

(** [a[i]] as an rvalue and [a[i] = v]; an access outside the array
    yields no value. *)
Definition load (a : list Z) (i : Z) : option Z :=
  if (0 <=? i) && (i <? Z.of_nat (length a)) then Some (get a i) else None.

Definition store (a : list Z) (i v : Z) : option (list Z) :=
  if (0 <=? i) && (i <? Z.of_nat (length a)) then Some (set_nth a (Z.to_nat i) v)
  else None.

(** [swap (arr[x], arr[y])]: [temp = b; b = a; a = temp] on the two
    references. *)
Definition swap (arr : list Z) (x y : Z) : option (list Z) :=
  temp <- load arr y ;;
  a <- load arr x ;;
  arr1 <- store arr y a ;;
  store arr1 x temp.

(** ** The two inner loops *)

(** [while (j > 0 && bin_array[index_array[j+start]]
                    > bin_array[index_array[(j-1)/2+start]])]:
    move the child up the heap while it is bigger than its parent. *)
Fixpoint sift_up (fuel : nat) (bin_array : list Z) (start : Z)
         (index_array : list Z) (j : Z) : option (list Z) :=
  match fuel with
  | O => None
  | S fuel' =>
      if 0 <? j then
        js <- int (j + start) ;;
        child <- load index_array js ;;
        child_bin <- load bin_array child ;;
        jm1 <- int (j - 1) ;;
        ps <- int (Z.quot jm1 2 + start) ;;
        parent <- load index_array ps ;;
        parent_bin <- load bin_array parent ;;
        if parent_bin <? child_bin then
          index_array' <- swap index_array js ps ;;
          sift_up fuel' bin_array start index_array' (Z.quot jm1 2)
        else Some index_array
      else Some index_array
  end.

(** [while (j < i)]: remake the max heap below position [i]. *)
Fixpoint sift_down (fuel : nat) (bin_array : list Z) (start i : Z)
         (index_array : list Z) (j : Z) : option (list Z) :=
  match fuel with
  | O => None
  | S fuel' =>
      if j <? i then
        twoj <- int (2 * j) ;;
        index <- int (twoj + 1) ;;
        (* if left child is smaller than right child, point index to right child *)
        index1 <- int (index + 1) ;;
        index <-
          (if index1 <? i then
             ls <- int (index + start) ;;
             l <- load index_array ls ;;
             l_bin <- load bin_array l ;;
             rs <- int (index1 + start) ;;
             r <- load index_array rs ;;
             r_bin <- load bin_array r ;;
             if l_bin <? r_bin then Some index1 else Some index
           else Some index) ;;
        (* if parent is smaller than child, swap parent with child *)
        index_array' <-
          (if index <? i then
             js <- int (j + start) ;;
             p <- load index_array js ;;
             p_bin <- load bin_array p ;;
             cs <- int (index + start) ;;
             c <- load index_array cs ;;
             c_bin <- load bin_array c ;;
             if p_bin <? c_bin then swap index_array js cs else Some index_array
           else Some index_array) ;;
        sift_down fuel' bin_array start i index_array' index
      else Some index_array
  end.

(** ** The two outer loops *)

(** [for (int i = ...; i < n; i++)]: sort [index_array] into a max heap. *)
Fixpoint build_heap (count : nat) (bin_array : list Z) (start n : Z)
         (index_array : list Z) (i : Z) : option (list Z) :=
  match count with
  | O => None
  | S count' =>
      if i <? n then
        index_array' <- sift_up (S (Z.to_nat i)) bin_array start index_array i ;;
        i' <- int (i + 1) ;;
        build_heap count' bin_array start n index_array' i'
      else Some index_array
  end.

(** [for (int i = ...; i > 0; i--)]: move the largest value to the end
    and remake the heap in front of it. *)
Fixpoint extract (count : nat) (bin_array : list Z) (start : Z)
         (index_array : list Z) (i : Z) : option (list Z) :=
  match count with
  | O => None
  | S count' =>
      if 0 <? i then
        ie <- int (i + start) ;;
        index_array1 <- swap index_array start ie ;;
        index_array2 <- sift_down (S (Z.to_nat i)) bin_array start i index_array1 0 ;;
        i' <- int (i - 1) ;;
        extract count' bin_array start index_array2 i'
      else Some index_array
  end.

(** [HeapSort::operator() (index_array, bin_array, start, n)]: the new
    contents of [index_array].  The loop counters are bounded by [n], so
    the count handed to each loop never runs out. *)
Definition operator_call (index_array bin_array : list Z) (start n : Z)
  : option (list Z) :=
  index_array1 <- build_heap (S (Z.to_nat n)) bin_array start n index_array 1 ;;
  nm1 <- int (n - 1) ;;
  extract (S (Z.to_nat n)) bin_array start index_array1 nm1.

Example sort_example :
  operator_call [9; 4; 0; 3; 1; 2; 7] [30; 10; 20; 10; 5] 1 5
  = Some [9; 4; 3; 1; 2; 0; 7].
Proof. vm_compute. reflexivity. Qed.

Example sort_out_of_bounds :
  operator_call [9; 4; 0; 3; 1; 2; 7] [30; 10; 20; 10; 5] 1 7 = None.
Proof. vm_compute. reflexivity. Qed.

(** ** Lists as arrays *)

Lemma length_set_nth (a : list Z) (i : nat) (v : Z) :
  length (set_nth a i v) = length a.
Proof.
  revert i. induction a as [|h t IH]; intros [|i]; simpl; auto.
Qed.

Lemma nth_set_nth (a : list Z) (i j : nat) (v : Z) :
  (i < length a)%nat ->
  nth j (set_nth a i v) 0 = if Nat.eqb j i then v else nth j a 0.
Proof.
  revert i j. induction a as [|h t IH]; intros [|i] [|j] H; simpl in *;
    try lia; try reflexivity.
  apply IH. lia.
Qed.

Definition occ (x : Z) (v : Z) : nat := if Z.eq_dec v x then 1%nat else 0%nat.

(** An assignment removes one occurrence of the old value and adds one
    of the new. *)
Lemma count_occ_set_nth (a : list Z) (i : nat) (v x : Z) :
  (i < length a)%nat ->
  (count_occ Z.eq_dec (set_nth a i v) x + occ x (nth i a 0%Z)
   = count_occ Z.eq_dec a x + occ x v)%nat.
Proof.
  unfold occ. revert i. induction a as [|h t IH]; intros [|i] H; simpl in *; try lia.
  - destruct (Z.eq_dec v x), (Z.eq_dec h x); lia.
  - specialize (IH i ltac:(lia)). destruct (Z.eq_dec h x); lia.
Qed.

(** The array with the elements at [x] and [y] exchanged. *)
Definition exch (a : list Z) (x y : Z) : list Z :=
  set_nth (set_nth a (Z.to_nat y) (get a x)) (Z.to_nat x) (get a y).

Lemma swap_exch (a : list Z) (x y : Z) :
  0 <= x < Z.of_nat (length a) -> 0 <= y < Z.of_nat (length a) ->
  swap a x y = Some (exch a x y).
Proof.
  intros Hx Hy. unfold swap, load, store, bind.
  assert (Bx : (0 <=? x) && (x <? Z.of_nat (length a)) = true)
    by (apply andb_true_intro; split; [apply Z.leb_le|apply Z.ltb_lt]; lia).
  assert (By : (0 <=? y) && (y <? Z.of_nat (length a)) = true)
    by (apply andb_true_intro; split; [apply Z.leb_le|apply Z.ltb_lt]; lia).
  rewrite By, Bx. cbv beta iota. rewrite length_set_nth, Bx. reflexivity.
Qed.

Lemma length_exch (a : list Z) (x y : Z) : length (exch a x y) = length a.
Proof. unfold exch. rewrite !length_set_nth. reflexivity. Qed.

Lemma get_exch (a : list Z) (x y z : Z) :
  0 <= x < Z.of_nat (length a) -> 0 <= y < Z.of_nat (length a) -> 0 <= z ->
  get (exch a x y) z
  = if z =? x then get a y else if z =? y then get a x else get a z.
Proof.
  intros Hx Hy Hz. unfold exch, get.
  rewrite nth_set_nth by (rewrite length_set_nth; lia).
  rewrite nth_set_nth by lia.
  destruct (Z.eqb_spec z x) as [->|Hzx].
  - rewrite Nat.eqb_refl. reflexivity.
  - replace (Nat.eqb (Z.to_nat z) (Z.to_nat x)) with false
      by (symmetry; apply Nat.eqb_neq; lia).
    destruct (Z.eqb_spec z y) as [->|Hzy].
    + rewrite Nat.eqb_refl. reflexivity.
    + replace (Nat.eqb (Z.to_nat z) (Z.to_nat y)) with false
        by (symmetry; apply Nat.eqb_neq; lia).
      reflexivity.
Qed.

Lemma Permutation_exch (a : list Z) (x y : Z) :
  0 <= x < Z.of_nat (length a) -> 0 <= y < Z.of_nat (length a) ->
  Permutation (exch a x y) a.
Proof.
  intros Hx Hy. apply (Permutation_count_occ Z.eq_dec). intros v. unfold exch.
  pose proof (count_occ_set_nth a (Z.to_nat y) (get a x) v ltac:(lia)) as H1.
  pose proof (count_occ_set_nth (set_nth a (Z.to_nat y) (get a x)) (Z.to_nat x)
                (get a y) v ltac:(rewrite length_set_nth; lia)) as H2.
  rewrite nth_set_nth in H2 by lia.
  assert (E : (if Nat.eqb (Z.to_nat x) (Z.to_nat y) then get a x
               else nth (Z.to_nat x) a 0) = get a x).
  { destruct (Nat.eqb (Z.to_nat x) (Z.to_nat y)); reflexivity. }
  rewrite E in H2. unfold get in *. lia.
Qed.

(** ** Heaps of keys *)

(** The parent of position [p] in the implicit binary tree. *)
Definition par (p : Z) : Z := (p - 1) / 2.

Lemma par_bounds (p : Z) : 0 < p -> 0 <= par p < p.
Proof. intros H. unfold par. Z.div_mod_to_equations. lia. Qed.

Lemma par_children (p j : Z) : 0 < p -> par p = j <-> p = 2 * j + 1 \/ p = 2 * j + 2.
Proof. intros H. unfold par. Z.div_mod_to_equations. lia. Qed.

(** Every position below [m] holds a key no bigger than its parent's. *)
Definition heap (k : Z -> Z) (m : Z) : Prop :=
  forall p, 0 < p < m -> k p <= k (par p).

(** The heap order holds below [m] except, possibly, between [j] and its
    parent; the children of [j] are no bigger than the parent of [j]. *)
Definition up_ok (k : Z -> Z) (m j : Z) : Prop :=
  (forall p, 0 < p < m -> p <> j -> k p <= k (par p)) /\
  (0 < j -> forall p, 0 < p < m -> par p = j -> k p <= k (par j)).

(** The heap order holds below [m] except, possibly, between [j] and its
    children; the children of [j] are no bigger than the parent of [j]. *)
Definition down_ok (k : Z -> Z) (m j : Z) : Prop :=
  (forall p, 0 < p < m -> par p <> j -> k p <= k (par p)) /\
  (0 < j -> forall p, 0 < p < m -> par p = j -> k p <= k (par j)).

(** [k'] is [k] with the keys at [x] and [y] exchanged, below [m]. *)
Definition exchanged (k k' : Z -> Z) (m x y : Z) : Prop :=
  forall r, 0 <= r < m ->
            k' r = if r =? x then k y else if r =? y then k x else k r.

Lemma up_ok_init (k : Z -> Z) (i : Z) : 0 <= i -> heap k i -> up_ok k (i + 1) i.
Proof.
  intros Hi H. split.
  - intros p Hp Hne. apply H. lia.
  - intros _ p Hp Hpar. apply par_children in Hpar; lia.
Qed.

Lemma up_ok_root (k : Z -> Z) (m : Z) : up_ok k m 0 -> heap k m.
Proof. intros [H _] p Hp. apply H; lia. Qed.

Lemma up_ok_done (k : Z -> Z) (m j : Z) :
  0 < j < m -> up_ok k m j -> k j <= k (par j) -> heap k m.
Proof.
  intros Hj [H _] Hle p Hp. destruct (Z.eq_dec p j) as [->|Hne]; [exact Hle|].
  apply H; assumption.
Qed.

Lemma up_ok_step (k k' : Z -> Z) (m j : Z) :
  0 < j < m -> up_ok k m j -> k (par j) < k j ->
  exchanged k k' m j (par j) -> up_ok k' m (par j).
Proof.
  intros Hj [H1 H2] Hlt Hex. specialize (H2 ltac:(lia)).
  pose proof (par_bounds j ltac:(lia)) as Hpj.
  split.
  - intros p Hp Hne. pose proof (par_bounds p ltac:(lia)) as Hpp.
    rewrite (Hex p), (Hex (par p)) by lia.
    destruct (Z.eq_dec p j) as [->|Hpj'].
    + rewrite Z.eqb_refl.
      replace (par j =? j) with false by (symmetry; apply Z.eqb_neq; lia).
      rewrite Z.eqb_refl. lia.
    + replace (p =? j) with false by (symmetry; apply Z.eqb_neq; lia).
      replace (p =? par j) with false by (symmetry; apply Z.eqb_neq; lia).
      destruct (Z.eqb_spec (par p) j) as [E|E].
      * apply H2; [lia|exact E].
      * destruct (Z.eqb_spec (par p) (par j)) as [E'|E'].
        -- pose proof (H1 p ltac:(lia) Hpj'). rewrite E' in *. lia.
        -- apply H1; assumption.
  - intros Hpos p Hp Hpar. pose proof (par_bounds p ltac:(lia)) as Hpp.
    pose proof (par_bounds (par j) Hpos) as Hppj.
    rewrite (Hex p), (Hex (par (par j))) by lia.
    replace (par (par j) =? j) with false by (symmetry; apply Z.eqb_neq; lia).
    replace (par (par j) =? par j) with false by (symmetry; apply Z.eqb_neq; lia).
    pose proof (H1 (par j) ltac:(lia) ltac:(lia)) as Hg.
    destruct (Z.eqb_spec p j) as [->|Hpj'].
    + exact Hg.
    + replace (p =? par j) with false by (symmetry; apply Z.eqb_neq; lia).
      pose proof (H1 p ltac:(lia) Hpj') as Hp'. rewrite Hpar in Hp'. lia.
Qed.

Lemma down_ok_done (k : Z -> Z) (m j : Z) : m <= j -> down_ok k m j -> heap k m.
Proof.
  intros Hj [H _] p Hp. pose proof (par_bounds p ltac:(lia)). apply H; lia.
Qed.

Lemma down_ok_nochild (k : Z -> Z) (m j c : Z) :
  0 <= j -> m <= 2 * j + 1 -> 2 * j + 1 <= c -> down_ok k m j -> down_ok k m c.
Proof.
  intros Hj Hm Hc [H _]. split.
  - intros p Hp Hne. apply H; [lia|]. intros E. apply par_children in E; lia.
  - intros _ p Hp E. apply par_children in E; lia.
Qed.

Lemma down_ok_keep (k : Z -> Z) (m j c : Z) :
  0 <= j -> 0 < c < m -> par c = j -> k c <= k j ->
  (forall p, 0 < p < m -> par p = j -> k p <= k c) ->
  down_ok k m j -> down_ok k m c.
Proof.
  intros Hj Hc Hpar Hle Hmax [H1 _]. split.
  - intros p Hp Hne. destruct (Z.eq_dec (par p) j) as [E|E].
    + pose proof (Hmax p Hp E). rewrite E. lia.
    + apply H1; assumption.
  - intros _ p Hp E. rewrite Hpar.
    assert (par p <> j) by (pose proof (par_bounds c ltac:(lia)); lia).
    pose proof (H1 p Hp H). rewrite E in *. lia.
Qed.

Lemma down_ok_swap (k k' : Z -> Z) (m j c : Z) :
  0 <= j -> 0 < c < m -> par c = j -> k j < k c ->
  (forall p, 0 < p < m -> par p = j -> k p <= k c) ->
  down_ok k m j -> exchanged k k' m j c -> down_ok k' m c.
Proof.
  intros Hj Hc Hpar Hlt Hmax [H1 H2] Hex.
  pose proof (par_bounds c ltac:(lia)) as Hpc. rewrite Hpar in Hpc.
  split.
  - intros p Hp Hne. pose proof (par_bounds p ltac:(lia)) as Hpp.
    rewrite (Hex p), (Hex (par p)) by lia.
    replace (par p =? c) with false by (symmetry; apply Z.eqb_neq; lia).
    destruct (Z.eqb_spec p j) as [->|Hpj].
    + replace (par j =? j) with false by (symmetry; apply Z.eqb_neq; lia).
      apply (H2 ltac:(lia) c); [lia|exact Hpar].
    + destruct (Z.eqb_spec p c) as [->|Hpc'].
      * rewrite Hpar, Z.eqb_refl. lia.
      * destruct (Z.eqb_spec (par p) j) as [E|E].
        -- apply Hmax; assumption.
        -- apply H1; assumption.
  - intros _ p Hp E. pose proof (par_bounds p ltac:(lia)) as Hpp.
    rewrite (Hex p), (Hex (par c)) by lia.
    rewrite Hpar, Z.eqb_refl.
    replace (p =? j) with false by (symmetry; apply Z.eqb_neq; lia).
    replace (p =? c) with false by (symmetry; apply Z.eqb_neq; lia).
    assert (par p <> j) by lia.
    pose proof (H1 p Hp H). rewrite E in *. lia.
Qed.

Lemma heap_root_max (k : Z -> Z) (m : Z) :
  heap k m -> forall p, 0 <= p < m -> k p <= k 0.
Proof.
  intros H.
  assert (G : forall (b : nat) p, 0 <= p < m -> (Z.to_nat p < b)%nat -> k p <= k 0).
  { induction b as [|b IH]; intros p Hp Hb; [lia|].
    destruct (Z.eq_dec p 0) as [->|Hne]; [lia|].
    pose proof (par_bounds p ltac:(lia)) as Hpp.
    pose proof (H p ltac:(lia)) as H1.
    pose proof (IH (par p) ltac:(lia) ltac:(lia)) as H2. lia. }
  intros p Hp. apply (G (S (Z.to_nat p))); [assumption|lia].
Qed.

(** ** The loops *)

Section Correct.

Variables (bin_array : list Z) (start n : Z) (a0 : list Z).
Hypothesis Hstart : 0 <= start.
Hypothesis Hn : 0 <= n.
Hypothesis Hsmall : n <= 2 ^ 30.
Hypothesis Hlen : start + n <= Z.of_nat (length a0).
Hypothesis Hfit : start + n <= 2 ^ 31.

(** The index stored at position [p] of the range, and its key. *)
Definition entry (a : list Z) (p : Z) : Z := get a (p + start).
Definition key (a : list Z) (p : Z) : Z := get bin_array (entry a p).

(** What every loop preserves: the length, the contents as a multiset,
    the elements outside the range, and that the elements of the range
    index [bin_array]. *)
Definition Inv (a : list Z) : Prop :=
  length a = length a0 /\
  Permutation a a0 /\
  (forall x, 0 <= x -> x < start \/ start + n <= x -> get a x = get a0 x) /\
  (forall p, 0 <= p < n -> 0 <= entry a p < Z.of_nat (length bin_array)).

Lemma int_ok (z : Z) : INT_MIN <= z <= INT_MAX -> int z = Some z.
Proof.
  intros H. unfold int.
  replace ((INT_MIN <=? z) && (z <=? INT_MAX)) with true; [reflexivity|].
  symmetry. apply andb_true_intro. split; apply Z.leb_le; lia.
Qed.

Lemma load_ok (a : list Z) (i : Z) :
  0 <= i < Z.of_nat (length a) -> load a i = Some (get a i).
Proof.
  intros H. unfold load.
  replace ((0 <=? i) && (i <? Z.of_nat (length a))) with true; [reflexivity|].
  symmetry. apply andb_true_intro. split; [apply Z.leb_le|apply Z.ltb_lt]; lia.
Qed.

Lemma load_entry (a : list Z) (p : Z) :
  Inv a -> 0 <= p < n -> load a (p + start) = Some (entry a p).
Proof. intros [HL _] Hp. apply load_ok. lia. Qed.

Lemma load_key (a : list Z) (p : Z) :
  Inv a -> 0 <= p < n -> load bin_array (entry a p) = Some (key a p).
Proof. intros [_ [_ [_ HV]]] Hp. apply load_ok. apply HV. exact Hp. Qed.

Lemma swap_entries (a : list Z) (p q : Z) :
  Inv a -> 0 <= p < n -> 0 <= q < n ->
  exists a',
    swap a (p + start) (q + start) = Some a' /\ Inv a' /\
    (forall r, 0 <= r < n ->
               entry a' r = if r =? p then entry a q
                            else if r =? q then entry a p else entry a r).
Proof.
  intros [HL [HP [HO HV]]] Hp Hq.
  exists (exch a (p + start) (q + start)).
  assert (Bp : 0 <= p + start < Z.of_nat (length a)) by lia.
  assert (Bq : 0 <= q + start < Z.of_nat (length a)) by lia.
  assert (HE : forall r, 0 <= r < n ->
             entry (exch a (p + start) (q + start)) r
             = if r =? p then entry a q else if r =? q then entry a p else entry a r).
  { intros r Hr. unfold entry. rewrite get_exch by lia.
    destruct (Z.eqb_spec r p) as [->|Hrp].
    - rewrite Z.eqb_refl. reflexivity.
    - replace (r + start =? p + start) with false by (symmetry; apply Z.eqb_neq; lia).
      destruct (Z.eqb_spec r q) as [->|Hrq].
      + rewrite Z.eqb_refl. reflexivity.
      + replace (r + start =? q + start) with false
          by (symmetry; apply Z.eqb_neq; lia).
        reflexivity. }
  split; [apply swap_exch; assumption|]. split; [|exact HE].
  split; [rewrite length_exch; exact HL|].
  split; [apply (Permutation_trans (Permutation_exch a _ _ Bp Bq) HP)|].
  split.
  - intros x Hx Hout. rewrite get_exch by lia.
    replace (x =? p + start) with false by (symmetry; apply Z.eqb_neq; lia).
    replace (x =? q + start) with false by (symmetry; apply Z.eqb_neq; lia).
    apply HO; assumption.
  - intros r Hr. rewrite (HE r Hr).
    destruct (r =? p); [apply HV; lia|]. destruct (r =? q); apply HV; lia.
Qed.

Lemma swap_keys (a a' : list Z) (p q : Z) :
  (forall r, 0 <= r < n ->
             entry a' r = if r =? p then entry a q
                          else if r =? q then entry a p else entry a r) ->
  forall m, m <= n -> exchanged (key a) (key a') m p q.
Proof.
  intros HE m Hm r Hr. unfold key. rewrite (HE r) by lia.
  destruct (r =? p); [reflexivity|]. destruct (r =? q); reflexivity.
Qed.

Lemma int_bounds : INT_MIN = - 2 ^ 31 /\ INT_MAX = 2 ^ 31 - 1.
Proof. split; reflexivity. Qed.

Ltac int_range := destruct int_bounds as [-> ->]; lia.

Lemma quot_par (j : Z) : 0 < j -> Z.quot (j - 1) 2 = par j.
Proof. intros H. unfold par. apply Z.quot_div_nonneg; lia. Qed.

Lemma sift_up_correct (fuel : nat) :
  forall (a : list Z) (j m : Z),
    Inv a -> 0 <= j < m -> m <= n -> (Z.to_nat j < fuel)%nat ->
    up_ok (key a) m j ->
    exists a',
      sift_up fuel bin_array start a j = Some a' /\ Inv a' /\ heap (key a') m.
Proof.
  induction fuel as [|fuel IH]; intros a j m HI Hj Hm Hfuel Hup; [lia|].
  cbn [sift_up]. destruct (Z.ltb_spec 0 j) as [Hpos|Hzero].
  - pose proof (par_bounds j Hpos) as Hpj.
    rewrite (int_ok (j + start)) by int_range. cbn [bind].
    rewrite (load_entry a j HI) by lia. cbn [bind].
    rewrite (load_key a j HI) by lia. cbn [bind].
    rewrite (int_ok (j - 1)) by int_range. cbn [bind].
    rewrite (quot_par j Hpos).
    rewrite (int_ok (par j + start)) by int_range. cbn [bind].
    rewrite (load_entry a (par j) HI) by lia. cbn [bind].
    rewrite (load_key a (par j) HI) by lia. cbn [bind].
    destruct (Z.ltb_spec (key a (par j)) (key a j)) as [Hlt|Hge].
    + destruct (swap_entries a j (par j) HI ltac:(lia) ltac:(lia))
        as [a' [Es [HI' HE]]].
      rewrite Es. cbn [bind].
      apply (IH a' (par j) m HI'); try lia.
      apply (up_ok_step (key a) (key a') m j); try assumption; try lia.
      apply (swap_keys a a' j (par j) HE m Hm).
    + exists a. split; [reflexivity|]. split; [exact HI|].
      apply (up_ok_done (key a) m j); try assumption; lia.
  - exists a. split; [reflexivity|]. split; [exact HI|].
    assert (j = 0) by lia. subst j. apply up_ok_root. exact Hup.
Qed.

Lemma build_heap_correct (count : nat) :
  forall (a : list Z) (i : Z),
    Inv a -> 1 <= i -> (Z.to_nat (n - i) < count)%nat -> heap (key a) i ->
    exists a',
      build_heap count bin_array start n a i = Some a' /\ Inv a' /\ heap (key a') n.
Proof.
  induction count as [|count IH]; intros a i HI Hi Hcount Hheap; [lia|].
  cbn [build_heap]. destruct (Z.ltb_spec i n) as [Hlt|Hge].
  - destruct (sift_up_correct (S (Z.to_nat i)) a i (i + 1) HI ltac:(lia) ltac:(lia)
                ltac:(lia) (up_ok_init (key a) i ltac:(lia) Hheap))
      as [a' [Es [HI' Hheap']]].
    rewrite Es. cbn [bind].
    rewrite (int_ok (i + 1)) by int_range. cbn [bind].
    apply (IH a' (i + 1) HI'); try lia. exact Hheap'.
  - exists a. split; [reflexivity|]. split; [exact HI|].
    intros p Hp. apply Hheap. lia.
Qed.

(** What [sift_down] guarantees about [a'] from [a], below position [m]. *)
Definition sifted (m : Z) (a a' : list Z) : Prop :=
  Inv a' /\ heap (key a') m /\
  (forall r, m <= r < n -> entry a' r = entry a r) /\
  (forall B, (forall p, 0 <= p < m -> key a p <= B) ->
             forall p, 0 <= p < m -> key a' p <= B).

Lemma sifted_after_swap (m j c : Z) (a a' a'' : list Z) :
  0 <= j < m -> 0 <= c < m -> m <= n ->
  (forall r, 0 <= r < n ->
             entry a' r = if r =? j then entry a c
                          else if r =? c then entry a j else entry a r) ->
  sifted m a' a'' -> sifted m a a''.
Proof.
  intros Hj Hc Hm HE [HI [Hh [Hfr Hb]]].
  split; [exact HI|]. split; [exact Hh|]. split.
  - intros r Hr. rewrite (Hfr r Hr), (HE r) by lia.
    replace (r =? j) with false by (symmetry; apply Z.eqb_neq; lia).
    replace (r =? c) with false by (symmetry; apply Z.eqb_neq; lia).
    reflexivity.
  - intros B HB. apply Hb. intros p Hp.
    rewrite (swap_keys a a' j c HE m Hm p Hp).
    destruct (p =? j); [apply HB; lia|]. destruct (p =? c); apply HB; lia.
Qed.

Lemma sift_down_correct (fuel : nat) :
  forall (a : list Z) (j m : Z),
    Inv a -> 0 <= j -> 0 <= m < n -> (Z.to_nat (m - j) < fuel)%nat ->
    down_ok (key a) m j ->
    exists a', sift_down fuel bin_array start m a j = Some a' /\ sifted m a a'.
Proof.
  induction fuel as [|fuel IH]; intros a j m HI Hj Hm Hfuel Hdown; [lia|].
  cbn [sift_down]. destruct (Z.ltb_spec j m) as [Hlt|Hge].
  - rewrite (int_ok (2 * j)) by int_range. cbn [bind].
    rewrite (int_ok (2 * j + 1)) by int_range. cbn [bind].
    rewrite (int_ok (2 * j + 1 + 1)) by int_range. cbn [bind].
    match goal with
    | |- exists a', bind ?X ?F = Some a' /\ _ => set (K := F)
    end.
    assert (Tail : forall c,
               2 * j + 1 <= c <= 2 * j + 2 ->
               (c < m -> forall p, 0 < p < m -> par p = j -> key a p <= key a c) ->
               (m <= c -> m <= 2 * j + 1) ->
               exists a', K c = Some a' /\ sifted m a a').
    { intros c Hc Hmax Hnone. unfold K.
      destruct (Z.ltb_spec c m) as [Hcm|Hcm].
      - assert (Hpar : par c = j) by (apply par_children; lia).
        rewrite (int_ok (j + start)) by int_range. cbn [bind].
        rewrite (load_entry a j HI) by lia. cbn [bind].
        rewrite (load_key a j HI) by lia. cbn [bind].
        rewrite (int_ok (c + start)) by int_range. cbn [bind].
        rewrite (load_entry a c HI) by lia. cbn [bind].
        rewrite (load_key a c HI) by lia. cbn [bind].
        destruct (Z.ltb_spec (key a j) (key a c)) as [Hjc|Hjc].
        + destruct (swap_entries a j c HI ltac:(lia) ltac:(lia)) as [a' [Es [HI' HE]]].
          rewrite Es. cbn [bind].
          assert (Hd : down_ok (key a') m c).
          { apply (down_ok_swap (key a) (key a') m j c); try assumption; try lia.
            - apply Hmax. exact Hcm.
            - apply (swap_keys a a' j c HE m). lia. }
          destruct (IH a' c m HI' ltac:(lia) Hm ltac:(lia) Hd) as [a'' [Es' Hs]].
          exists a''. split; [exact Es'|].
          apply (sifted_after_swap m j c a a' a''); try assumption; lia.
        + cbn [bind]. apply (IH a c m HI); try lia.
          apply (down_ok_keep (key a) m j c); try assumption; try lia.
          apply Hmax. exact Hcm.
      - cbn [bind]. apply (IH a c m HI); try lia.
        apply (down_ok_nochild (key a) m j c); try assumption; lia. }
    destruct (Z.ltb_spec (2 * j + 1 + 1) m) as [Htwo|Hone].
    + rewrite (int_ok (2 * j + 1 + start)) by int_range. cbn [bind].
      rewrite (load_entry a (2 * j + 1) HI) by lia. cbn [bind].
      rewrite (load_key a (2 * j + 1) HI) by lia. cbn [bind].
      rewrite (int_ok (2 * j + 1 + 1 + start)) by int_range. cbn [bind].
      rewrite (load_entry a (2 * j + 1 + 1) HI) by lia. cbn [bind].
      rewrite (load_key a (2 * j + 1 + 1) HI) by lia. cbn [bind].
      destruct (Z.ltb_spec (key a (2 * j + 1)) (key a (2 * j + 1 + 1))) as [Hlr|Hlr];
        cbn [bind]; apply Tail; try lia;
        intros _ p Hp Hpar; apply par_children in Hpar; try lia;
        destruct Hpar as [-> | ->];
        replace (2 * j + 2) with (2 * j + 1 + 1) by lia; lia.
    + cbn [bind]. apply Tail; try lia.
      intros Hc p Hp Hpar. apply par_children in Hpar; try lia.
      destruct Hpar as [-> | ->]; lia.
  - exists a. split; [reflexivity|].
    split; [exact HI|]. split; [apply (down_ok_done (key a) m j); assumption|].
    split; [reflexivity|]. intros B HB. exact HB.
Qed.

Lemma key_frame (a a' : list Z) (r : Z) :
  entry a' r = entry a r -> key a' r = key a r.
Proof. intros H. unfold key. rewrite H. reflexivity. Qed.

Lemma extract_correct (count : nat) :
  forall (a : list Z) (i : Z),
    Inv a -> -1 <= i < Z.max n 1 -> i < n \/ i <= 0 ->
    (Z.to_nat i < count)%nat ->
    heap (key a) (i + 1) ->
    (forall p, i < p -> p + 1 < n -> key a p <= key a (p + 1)) ->
    (forall p r, 0 <= p <= i -> i < r < n -> key a p <= key a r) ->
    exists a',
      extract count bin_array start a i = Some a' /\ Inv a' /\
      (forall p, 0 <= p -> p + 1 < n -> key a' p <= key a' (p + 1)).
Proof.
  induction count as [|count IH]; intros a i HI Hi Hin Hcount Hheap Hsorted Hbound; [lia|].
  cbn [extract]. destruct (Z.ltb_spec 0 i) as [Hpos|Hzero].
  - rewrite (int_ok (i + start)) by int_range. cbn [bind].
    destruct (swap_entries a 0 i HI ltac:(lia) ltac:(lia)) as [a1 [Es [HI1 HE]]].
    change (0 + start) with start in Es. rewrite Es. cbn [bind].
    pose proof (swap_keys a a1 0 i HE n ltac:(lia)) as HK.
    assert (Hd : down_ok (key a1) i 0).
    { split; [|lia]. intros p Hp Hne. pose proof (par_bounds p ltac:(lia)) as Hpp.
      rewrite (HK p), (HK (par p)) by lia.
      replace (p =? 0) with false by (symmetry; apply Z.eqb_neq; lia).
      replace (p =? i) with false by (symmetry; apply Z.eqb_neq; lia).
      replace (par p =? 0) with false by (symmetry; apply Z.eqb_neq; lia).
      replace (par p =? i) with false by (symmetry; apply Z.eqb_neq; lia).
      apply Hheap. lia. }
    destruct (sift_down_correct (S (Z.to_nat i)) a1 0 i HI1 ltac:(lia) ltac:(lia)
                ltac:(lia) Hd) as [a2 [Es2 [HI2 [Hheap2 [Hfr Hb]]]]].
    rewrite Es2. cbn [bind].
    rewrite (int_ok (i - 1)) by int_range. cbn [bind].
    pose proof (heap_root_max (key a) (i + 1) Hheap) as Hmax.
    assert (K2 : forall r, i <= r < n ->
                 key a2 r = if r =? i then key a 0 else key a r).
    { intros r Hr. rewrite (key_frame a1 a2 r (Hfr r Hr)), (HK r) by lia.
      replace (r =? 0) with false by (symmetry; apply Z.eqb_neq; lia).
      reflexivity. }
    apply (IH a2 (i - 1) HI2); try lia.
    + replace (i - 1 + 1) with i by lia. exact Hheap2.
    + intros p Hp Hp1. rewrite (K2 p), (K2 (p + 1)) by lia.
      replace (p + 1 =? i) with false by (symmetry; apply Z.eqb_neq; lia).
      destruct (Z.eqb_spec p i) as [->|Hne].
      * apply Hbound; lia.
      * apply Hsorted; lia.
    + intros p r Hp Hr. apply (Hb (key a2 r)); [|lia].
      intros p' Hp'. rewrite (K2 r), (HK p') by lia.
      replace (p' =? i) with false by (symmetry; apply Z.eqb_neq; lia).
      destruct (Z.eqb_spec r i) as [->|Hri].
      * destruct (p' =? 0); apply Hmax; lia.
      * destruct (p' =? 0); apply Hbound; lia.
  - exists a. split; [reflexivity|]. split; [exact HI|].
    intros p Hp Hp1. destruct (Z.eq_dec p i) as [->|Hne].
    + apply Hbound; lia.
    + apply Hsorted; lia.
Qed.

Lemma Inv_refl : 
  (forall p, 0 <= p < n -> 0 <= get a0 (start + p) < Z.of_nat (length bin_array)) ->
  Inv a0.
Proof.
  intros HV. split; [reflexivity|]. split; [apply Permutation_refl|].
  split; [reflexivity|]. intros p Hp. unfold entry.
  replace (p + start) with (start + p) by lia. apply HV. exact Hp.
Qed.

(** The elements of the range, in order. *)
Definition segment (a : list Z) : list Z :=
  firstn (Z.to_nat n) (skipn (Z.to_nat start) a).

Lemma segment_Permutation (a : list Z) :
  Inv a -> Permutation (segment a) (segment a0).
Proof.
  intros [HL [HP [HO _]]]. unfold segment.
  assert (Hpre : firstn (Z.to_nat start) a = firstn (Z.to_nat start) a0).
  { apply (nth_ext _ _ 0 0).
    - rewrite !length_firstn, HL. reflexivity.
    - intros i Hi. rewrite length_firstn in Hi. rewrite !nth_firstn.
      destruct (Nat.ltb_spec i (Z.to_nat start)); [|reflexivity].
      pose proof (HO (Z.of_nat i) ltac:(lia) ltac:(lia)) as H1.
      unfold get in H1. rewrite Nat2Z.id in H1. exact H1. }
  assert (Hsuf : skipn (Z.to_nat n) (skipn (Z.to_nat start) a)
                 = skipn (Z.to_nat n) (skipn (Z.to_nat start) a0)).
  { apply (nth_ext _ _ 0 0).
    - rewrite !length_skipn, HL. reflexivity.
    - intros i Hi. rewrite !nth_skipn.
      pose proof (HO (Z.of_nat (Z.to_nat start + (Z.to_nat n + i))) ltac:(lia)
                    ltac:(lia)) as H1.
      unfold get in H1. rewrite Nat2Z.id in H1. exact H1. }
  rewrite <- (firstn_skipn (Z.to_nat start) a) in HP.
  rewrite <- (firstn_skipn (Z.to_nat start) a0) in HP.
  rewrite Hpre in HP. apply Permutation_app_inv_l in HP.
  rewrite <- (firstn_skipn (Z.to_nat n) (skipn (Z.to_nat start) a)) in HP.
  rewrite <- (firstn_skipn (Z.to_nat n) (skipn (Z.to_nat start) a0)) in HP.
  rewrite Hsuf in HP. apply Permutation_app_inv_r in HP. exact HP.
Qed.

Lemma operator_call_correct :
  (forall p, 0 <= p < n -> 0 <= get a0 (start + p) < Z.of_nat (length bin_array)) ->
  exists a',
    operator_call a0 bin_array start n = Some a' /\ Inv a' /\
    (forall p, 0 <= p -> p + 1 < n -> key a' p <= key a' (p + 1)).
Proof.
  intros HV. pose proof (Inv_refl HV) as HI0. unfold operator_call.
  destruct (build_heap_correct (S (Z.to_nat n)) a0 1 HI0 ltac:(lia) ltac:(lia))
    as [a1 [E1 [HI1 Hheap]]].
  { intros p Hp. lia. }
  rewrite E1. cbn [bind].
  rewrite (int_ok (n - 1)) by int_range. cbn [bind].
  apply (extract_correct (S (Z.to_nat n)) a1 (n - 1) HI1); try lia.
  replace (n - 1 + 1) with n by lia. exact Hheap.
Qed.

End Correct.

(** C10.  For a range [start, start+n) inside [index_array] whose elements
    index [bin_array], with [start >= 0], [n >= 0] and every index
    expression within the range of [int] ([n <= 2^30] and
    [start + n <= 2^31]), the call returns: the range of [index_array] is a
    permutation of what it was, its keys [bin_array[index_array[start+p]]]
    are in non-decreasing order, and the elements outside the range are
    unchanged.  [bin_array] is only read. *)
Theorem operator_call_sorts (index_array bin_array : list Z) (start n : Z) :
  0 <= start -> 0 <= n -> n <= 2 ^ 30 ->
  start + n <= Z.of_nat (length index_array) -> start + n <= 2 ^ 31 ->
  (forall p, 0 <= p < n ->
             0 <= get index_array (start + p) < Z.of_nat (length bin_array)) ->
  exists index_array',
    operator_call index_array bin_array start n = Some index_array' /\
    length index_array' = length index_array /\
    Permutation (firstn (Z.to_nat n) (skipn (Z.to_nat start) index_array'))
                (firstn (Z.to_nat n) (skipn (Z.to_nat start) index_array)) /\
    (forall p, 0 <= p < n - 1 ->
               get bin_array (get index_array' (start + p))
               <= get bin_array (get index_array' (start + p + 1))) /\
    (forall x, 0 <= x < Z.of_nat (length index_array) ->
               x < start \/ start + n <= x ->
               get index_array' x = get index_array x).
Proof.
  intros Hstart Hn Hsmall Hlen Hfit HV.
  destruct (operator_call_correct bin_array start n index_array
              Hstart Hn Hsmall Hlen Hfit HV) as [a' [E [HI Hsorted]]].
  exists a'. split; [exact E|].
  pose proof (segment_Permutation bin_array start n index_array Hstart a' HI) as HP.
  destruct HI as [HL [_ [HO _]]].
  split; [exact HL|]. split; [exact HP|]. split.
  - intros p Hp. pose proof (Hsorted p ltac:(lia) ltac:(lia)) as H.
    unfold key, entry in H.
    replace (p + start) with (start + p) in H by lia.
    replace (p + 1 + start) with (start + p + 1) in H by lia. exact H.
  - intros x Hx Hout. apply HO; lia.
Qed.

Lemma operator_call_sorts_witness :
  exists index_array',
    operator_call [9; 4; 0; 3; 1; 2; 7] [30; 10; 20; 10; 5] 1 5 = Some index_array' /\
    length index_array' = length [9; 4; 0; 3; 1; 2; 7] /\
    Permutation (firstn (Z.to_nat 5) (skipn (Z.to_nat 1) index_array'))
                (firstn (Z.to_nat 5) (skipn (Z.to_nat 1) [9; 4; 0; 3; 1; 2; 7])) /\
    (forall p, 0 <= p < 5 - 1 ->
               get [30; 10; 20; 10; 5] (get index_array' (1 + p))
               <= get [30; 10; 20; 10; 5] (get index_array' (1 + p + 1))) /\
    (forall x, 0 <= x < Z.of_nat (length [9; 4; 0; 3; 1; 2; 7]) ->
               x < 1 \/ 1 + 5 <= x ->
               get index_array' x = get [9; 4; 0; 3; 1; 2; 7] x).
Proof.
  apply (operator_call_sorts [9; 4; 0; 3; 1; 2; 7] [30; 10; 20; 10; 5] 1 5);
    try (vm_compute; congruence).
  intros p Hp.
  assert (p = 0 \/ p = 1 \/ p = 2 \/ p = 3 \/ p = 4) as [-> | [-> | [-> | [-> | ->]]]]
    by lia; vm_compute; split; congruence.
Defined.

(** ** What a call that returns has touched *)

Lemma int_inv (z v : Z) : int z = Some v -> v = z.
Proof. unfold int. destruct (_ && _); congruence. Qed.

Lemma load_inv (a : list Z) (i v : Z) :
  load a i = Some v -> 0 <= i < Z.of_nat (length a) /\ v = get a i.
Proof.
  unfold load. destruct ((0 <=? i) && (i <? Z.of_nat (length a))) eqn:E; [|discriminate].
  apply andb_prop in E. destruct E as [E1 E2].
  apply Z.leb_le in E1. apply Z.ltb_lt in E2. intros H. injection H as <-. lia.
Qed.

Lemma swap_inv (a a' : list Z) (x y : Z) :
  swap a x y = Some a' ->
  0 <= x < Z.of_nat (length a) /\ 0 <= y < Z.of_nat (length a) /\ a' = exch a x y.
Proof.
  intros H. pose proof H as H'. unfold swap in H'.
  destruct (load a y) as [t|] eqn:Ey; [cbn [bind] in H'|discriminate].
  destruct (load a x) as [u|] eqn:Ex; [cbn [bind] in H'|discriminate].
  apply load_inv in Ey. apply load_inv in Ex.
  destruct Ex as [Bx _]. destruct Ey as [By _].
  rewrite (swap_exch a x y Bx By) in H. injection H as <-. auto.
Qed.

Lemma get_nth (a : list Z) (i : nat) : nth i a 0 = get a (Z.of_nat i).
Proof. unfold get. rewrite Nat2Z.id. reflexivity. Qed.

Lemma exch_exch (a : list Z) (x y : Z) :
  0 <= x < Z.of_nat (length a) -> 0 <= y < Z.of_nat (length a) ->
  exch (exch a x y) x y = a.
Proof.
  intros Hx Hy. apply (nth_ext _ _ 0 0).
  - rewrite !length_exch. reflexivity.
  - intros i _. rewrite !get_nth.
    rewrite get_exch by (rewrite ?length_exch; lia).
    rewrite !(get_exch a x y) by lia.
    rewrite !Z.eqb_refl.
    destruct (Z.eqb_spec (Z.of_nat i) x) as [->|Hix].
    + destruct (Z.eqb_spec y x) as [->|]; reflexivity.
    + destruct (Z.eqb_spec (Z.of_nat i) y) as [->|Hiy]; [|reflexivity].
      destruct (Z.eqb_spec x y); reflexivity.
Qed.

(** X14.  [swap] exchanges the two elements it is given references to,
    also when both are the same element, and a second [swap] of the same
    two puts the array back as it was. *)
Theorem swap_twice (arr arr' : list Z) (x y : Z) :
  swap arr x y = Some arr' ->
  get arr' x = get arr y /\ get arr' y = get arr x /\
  swap arr' x y = Some arr.
Proof.
  intros H. destruct (swap_inv arr arr' x y H) as [Hx [Hy ->]].
  rewrite !get_exch by lia. rewrite !Z.eqb_refl.
  split; [reflexivity|]. split.
  - destruct (Z.eqb_spec y x) as [->|]; reflexivity.
  - rewrite swap_exch by (rewrite length_exch; lia).
    rewrite exch_exch by assumption. reflexivity.
Qed.

(** X15.  A range of at most one element is returned as it is, and
    nothing is read: the call returns the array unchanged for every
    [start], in or out of the array, whatever [index_array] and
    [bin_array] hold. *)
Theorem operator_call_short_range (index_array bin_array : list Z) (start n : Z) :
  INT_MIN < n <= 1 ->
  operator_call index_array bin_array start n = Some index_array.
Proof.
  intros Hn. unfold operator_call. cbn [build_heap].
  replace (1 <? n) with false by (symmetry; apply Z.ltb_ge; lia). cbn [bind].
  unfold int.
  replace ((INT_MIN <=? n - 1) && (n - 1 <=? INT_MAX)) with true.
  - cbn [bind extract].
    replace (0 <? n - 1) with false by (symmetry; apply Z.ltb_ge; lia).
    reflexivity.
  - symmetry. apply andb_true_intro. unfold INT_MAX. split; apply Z.leb_le; lia.
Qed.

(** [sift_up] keeps the length of the array and everything above the
    position it starts from. *)
Lemma sift_up_frame (bin_array : list Z) (start : Z) (fuel : nat) :
  forall (a a' : list Z) (j : Z),
    sift_up fuel bin_array start a j = Some a' ->
    length a' = length a /\
    forall x, 0 <= x -> j + start < x -> get a' x = get a x.
Proof.
  induction fuel as [|fuel IH]; intros a a' j H; [discriminate|].
  cbn [sift_up] in H. destruct (Z.ltb_spec 0 j) as [Hpos|Hzero].
  2:{ injection H as <-. auto. }
  destruct (int (j + start)) as [js|] eqn:E1; [cbn [bind] in H|discriminate].
  destruct (load a js) as [child|] eqn:E2; [cbn [bind] in H|discriminate].
  destruct (load bin_array child) as [child_bin|] eqn:E3; [cbn [bind] in H|discriminate].
  destruct (int (j - 1)) as [jm1|] eqn:E4; [cbn [bind] in H|discriminate].
  destruct (int (jm1 ÷ 2 + start)) as [ps|] eqn:E5; [cbn [bind] in H|discriminate].
  destruct (load a ps) as [parent|] eqn:E6; [cbn [bind] in H|discriminate].
  destruct (load bin_array parent) as [parent_bin|] eqn:E7; [cbn [bind] in H|discriminate].
  destruct (parent_bin <? child_bin).
  2:{ injection H as <-. auto. }
  destruct (swap a js ps) as [a1|] eqn:E8; [cbn [bind] in H|discriminate].
  apply int_inv in E1, E4, E5. subst js jm1 ps.
  destruct (swap_inv _ _ _ _ E8) as [Bj [Bp ->]].
  destruct (IH _ _ _ H) as [HL HF].
  assert (Hq : (j - 1) ÷ 2 = par j) by (unfold par; apply Z.quot_div_nonneg; lia).
  pose proof (par_bounds j Hpos) as Hpj. rewrite Hq in *.
  split; [rewrite HL; apply length_exch|].
  intros x Hx Hgt. rewrite HF by lia. rewrite get_exch by lia.
  replace (x =? j + start) with false by (symmetry; apply Z.eqb_neq; lia).
  replace (x =? par j + start) with false by (symmetry; apply Z.eqb_neq; lia).
  reflexivity.
Qed.

(** A [sift_up] from a position above the root that returns has read the
    element there and the element at its parent, and the key of each. *)
Lemma sift_up_touches (bin_array : list Z) (start : Z) (fuel : nat)
      (a a' : list Z) (j : Z) :
  sift_up (S fuel) bin_array start a j = Some a' -> 0 < j ->
  (0 <= j + start < Z.of_nat (length a) /\
   0 <= get a (j + start) < Z.of_nat (length bin_array)) /\
  (0 <= par j + start < Z.of_nat (length a) /\
   0 <= get a (par j + start) < Z.of_nat (length bin_array)).
Proof.
  intros H Hpos. cbn [sift_up] in H.
  replace (0 <? j) with true in H by (symmetry; apply Z.ltb_lt; lia).
  destruct (int (j + start)) as [js|] eqn:E1; [cbn [bind] in H|discriminate].
  destruct (load a js) as [child|] eqn:E2; [cbn [bind] in H|discriminate].
  destruct (load bin_array child) as [child_bin|] eqn:E3; [cbn [bind] in H|discriminate].
  destruct (int (j - 1)) as [jm1|] eqn:E4; [cbn [bind] in H|discriminate].
  destruct (int (jm1 ÷ 2 + start)) as [ps|] eqn:E5; [cbn [bind] in H|discriminate].
  destruct (load a ps) as [parent|] eqn:E6; [cbn [bind] in H|discriminate].
  destruct (load bin_array parent) as [parent_bin|] eqn:E7; [cbn [bind] in H|discriminate].
  apply int_inv in E1, E4, E5. subst js jm1 ps.
  assert (Hq : (j - 1) ÷ 2 = par j) by (unfold par; apply Z.quot_div_nonneg; lia).
  rewrite Hq in *.
  apply load_inv in E2, E3, E6, E7.
  destruct E2 as [B2 ->]. destruct E6 as [B6 ->].
  destruct E3 as [B3 _]. destruct E7 as [B7 _]. auto.
Qed.

Lemma build_heap_touches (bin_array : list Z) (start n : Z) (count : nat) :
  forall (a a' : list Z) (i : Z),
    build_heap count bin_array start n a i = Some a' -> 1 <= i ->
    forall p, i <= p < n ->
              0 <= p + start < Z.of_nat (length a) /\
              0 <= get a (p + start) < Z.of_nat (length bin_array).
Proof.
  induction count as [|count IH]; intros a a' i H Hi p Hp; [discriminate|].
  cbn [build_heap] in H.
  replace (i <? n) with true in H by (symmetry; apply Z.ltb_lt; lia).
  destruct (sift_up (S (Z.to_nat i)) bin_array start a i) as [a1|] eqn:E1;
    [cbn [bind] in H|discriminate].
  destruct (int (i + 1)) as [i'|] eqn:E2; [cbn [bind] in H|discriminate].
  apply int_inv in E2. subst i'.
  destruct (Z.eq_dec p i) as [->|Hne].
  - apply (sift_up_touches _ _ _ _ _ _ E1). lia.
  - destruct (sift_up_frame _ _ _ _ _ _ E1) as [HL HF].
    destruct (sift_up_touches _ _ _ _ _ _ E1 ltac:(lia)) as [[Bi _] _].
    destruct (IH _ _ _ H ltac:(lia) p ltac:(lia)) as [B1 B2].
    rewrite HL in B1. rewrite HF in B2 by lia. auto.
Qed.

(** X16.  The call never returns from a range it cannot address: when a
    call on two or more elements returns, the whole range
    [start, start+n) lies inside [index_array] and every element of the
    range, as it was on entry, indexes [bin_array]. *)
Theorem operator_call_needs_bounds (index_array bin_array out : list Z)
        (start n : Z) :
  operator_call index_array bin_array start n = Some out ->
  2 <= n ->
  forall p, 0 <= p < n ->
            0 <= start + p < Z.of_nat (length index_array) /\
            0 <= get index_array (start + p) < Z.of_nat (length bin_array).
Proof.
  intros H Hn p Hp. unfold operator_call in H.
  destruct (build_heap (S (Z.to_nat n)) bin_array start n index_array 1)
    as [a1|] eqn:E; [clear H|discriminate].
  replace (start + p) with (p + start) by lia.
  destruct (Z.eq_dec p 0) as [->|Hne].
  - cbn [build_heap] in E.
    replace (1 <? n) with true in E by (symmetry; apply Z.ltb_lt; lia).
    destruct (sift_up (S (Z.to_nat 1)) bin_array start index_array 1) as [a2|] eqn:E1;
      [|discriminate].
    destruct (sift_up_touches _ _ _ _ _ _ E1 ltac:(lia)) as [_ B].
    exact B.
  - apply (build_heap_touches _ _ _ _ _ _ _ E); lia.
Qed.

(** X17.  The first loop sorts the range into a max heap: under the
    preconditions of the call it returns, no element of the range has a
    bigger key than its parent, and the first element of the range has
    the biggest key of all. *)
Theorem build_heap_max_heap (index_array bin_array : list Z) (start n : Z) :
  0 <= start -> 0 <= n -> n <= 2 ^ 30 ->
  start + n <= Z.of_nat (length index_array) -> start + n <= 2 ^ 31 ->
  (forall p, 0 <= p < n ->
             0 <= get index_array (start + p) < Z.of_nat (length bin_array)) ->
  exists index_array',
    build_heap (S (Z.to_nat n)) bin_array start n index_array 1 = Some index_array' /\
    (forall p, 0 < p < n ->
               get bin_array (get index_array' (p + start))
               <= get bin_array (get index_array' ((p - 1) / 2 + start))) /\
    (forall p, 0 <= p < n ->
               get bin_array (get index_array' (p + start))
               <= get bin_array (get index_array' start)).
Proof.
  intros Hstart Hn Hsmall Hlen Hfit HV.
  pose proof (Inv_refl bin_array start n index_array HV) as HI0.
  destruct (build_heap_correct bin_array start n index_array Hstart Hsmall Hlen Hfit
              (S (Z.to_nat n)) index_array 1 HI0 ltac:(lia) ltac:(lia))
    as [a1 [E1 [_ Hheap]]].
  { intros p Hp. lia. }
  exists a1. split; [exact E1|]. split.
  - intros p Hp. apply (Hheap p Hp).
  - intros p Hp. apply (heap_root_max _ n Hheap p Hp).
Qed.

Lemma swap_twice_witness :
  swap [1; 2; 3] 0 2 = Some [3; 2; 1] /\
  get [3; 2; 1] 0 = get [1; 2; 3] 2 /\ get [3; 2; 1] 2 = get [1; 2; 3] 0 /\
  swap [3; 2; 1] 0 2 = Some [1; 2; 3].
Proof.
  assert (H : swap [1; 2; 3] 0 2 = Some [3; 2; 1]) by reflexivity.
  split; [exact H|].
  exact (swap_twice [1; 2; 3] [3; 2; 1] 0 2 H).
Defined.

Lemma operator_call_short_range_witness :
  INT_MIN < 1 <= 1 /\
  operator_call [5; 6] [] 7 1 = Some [5; 6].
Proof.
  assert (H : INT_MIN < 1 <= 1) by (unfold INT_MIN; lia).
  split; [exact H|].
  exact (operator_call_short_range [5; 6] [] 7 1 H).
Defined.

Lemma operator_call_needs_bounds_witness :
  operator_call [9; 4; 0; 3; 1; 2; 7] [30; 10; 20; 10; 5] 1 5
  = Some [9; 4; 3; 1; 2; 0; 7] /\
  2 <= 5 /\ 0 <= 2 < 5 /\
  0 <= 1 + 2 < Z.of_nat (length [9; 4; 0; 3; 1; 2; 7]) /\
  0 <= get [9; 4; 0; 3; 1; 2; 7] (1 + 2) < Z.of_nat (length [30; 10; 20; 10; 5]).
Proof.
  assert (H : operator_call [9; 4; 0; 3; 1; 2; 7] [30; 10; 20; 10; 5] 1 5
              = Some [9; 4; 3; 1; 2; 0; 7]) by (vm_compute; reflexivity).
  assert (Hn : 2 <= 5) by lia.
  assert (Hp : 0 <= 2 < 5) by lia.
  split; [exact H|]. split; [exact Hn|]. split; [exact Hp|].
  exact (operator_call_needs_bounds [9; 4; 0; 3; 1; 2; 7] [30; 10; 20; 10; 5]
           [9; 4; 3; 1; 2; 0; 7] 1 5 H Hn 2 Hp).
Defined.

Lemma build_heap_max_heap_witness :
  exists index_array',
    build_heap (S (Z.to_nat 5)) [30; 10; 20; 10; 5] 1 5 [9; 4; 0; 3; 1; 2; 7] 1
    = Some index_array' /\
    (forall p, 0 < p < 5 ->
               get [30; 10; 20; 10; 5] (get index_array' (p + 1))
               <= get [30; 10; 20; 10; 5] (get index_array' ((p - 1) / 2 + 1))) /\
    (forall p, 0 <= p < 5 ->
               get [30; 10; 20; 10; 5] (get index_array' (p + 1))
               <= get [30; 10; 20; 10; 5] (get index_array' 1)).
Proof.
  apply (build_heap_max_heap [9; 4; 0; 3; 1; 2; 7] [30; 10; 20; 10; 5] 1 5);
    try (vm_compute; congruence).
  intros p Hp.
  assert (p = 0 \/ p = 1 \/ p = 2 \/ p = 3 \/ p = 4) as [-> | [-> | [-> | [-> | ->]]]]
    by lia; vm_compute; split; congruence.
Defined.

End HeapSort.
